(** * The 6D-CRSM manifold core and its geodesic agents

    A shallow embedding of [src/manifold/crsm_6d.py] and
    [src/agents/geodesic_agent.py].

    Numbers.  Python floats are idealised as exact rationals: [Qc], the
    rationals in lowest terms, whose equality is Leibniz equality and
    which evaluate with [vm_compute].  Rounding, NaN and infinities are
    outside the model.  The libm functions ([math.sqrt], [math.exp],
    [math.log]) and the random generator are not rational functions:
    they are parameters of the sections that use them, and each fact a
    proof needs about them is a stated hypothesis.

    Exceptions.  The three Python exceptions the core can raise are the
    constructors of [exn]; code that may raise returns [res]. *)

From Stdlib Require Import String.
From Stdlib Require Import ZArith QArith Qcanon Qreduction Qround Lqa.
From Stdlib Require Import List Bool Lia.
Import ListNotations.

Local Open Scope Qc_scope.

(* ------------------------------------------------------------------ *)
(** ** Floats as canonical rationals *)

(** A decimal literal: [dec n d] is the rational n/d. *)
Definition dec (n : Z) (d : positive) : Qc := Q2Qc (n # d).

Definition Qcltb (x y : Qc) : bool :=
  match x ?= y with Lt => true | _ => false end.

Definition Qcleb (x y : Qc) : bool := negb (Qcltb y x).

Definition Qceqb (x y : Qc) : bool :=
  match x ?= y with Eq => true | _ => false end.

(** Python's [max(a, b)] and [min(a, b)], numpy's [maximum]/[minimum]. *)
Definition Qcmax (x y : Qc) : Qc := if Qcltb x y then y else x.
Definition Qcmin (x y : Qc) : Qc := if Qcltb y x then y else x.

(** [abs(x)] *)
Definition Qcabs' (x : Qc) : Qc := if Qcltb x 0 then - x else x.

(** [np.clip(x, lo, hi)] is [minimum(maximum(x, lo), hi)]. *)
Definition clip (x lo hi : Qc) : Qc := Qcmin (Qcmax x lo) hi.

(* ------------------------------------------------------------------ *)
(** ** Exceptions *)

Inductive exn : Type :=
| LinAlgError          (* np.linalg.inv on a singular matrix *)
| ZeroDivisionError    (* 1.0 / 0 *)
| UnboundLocalError.   (* a local read before any assignment *)

Inductive res (A : Type) : Type :=
| Ok (a : A)
| Raise (e : exn).
Arguments Ok {A} a.
Arguments Raise {A} e.

Definition bind {A B : Type} (c : res A) (k : A -> res B) : res B :=
  match c with
  | Ok a => k a
  | Raise e => Raise e
  end.

Notation "'let*' x ':=' c 'in' k" := (bind c (fun x => k))
  (at level 10, x pattern, c at level 100, k at level 200, only parsing).

(** [mapM f l] runs [f] on the elements of [l] from left to right and
    stops at the first exception. *)
Fixpoint mapM {A B : Type} (f : A -> res B) (l : list A) : res (list B) :=
  match l with
  | [] => Ok []
  | a :: l' => let* b := f a in let* bs := mapM f l' in Ok (b :: bs)
  end.

(** A [for] loop over [l] whose body may raise: the state is threaded
    from left to right and the first exception ends the loop. *)
Fixpoint foldM {A S : Type} (f : S -> A -> res S) (l : list A) (s : S)
  : res S :=
  match l with
  | [] => Ok s
  | a :: l' => let* s' := f s a in foldM f l' s'
  end.

(* ------------------------------------------------------------------ *)
(** ** libm

    [math.sqrt] (also [np.sqrt] and the root taken by [np.linalg.norm]),
    [math.exp] (also [np.exp]) and [math.log], as the float functions
    they are: from numbers to numbers, otherwise unspecified. *)

Class Libm : Type := {
  fsqrt : Qc -> Qc;
  fexp : Qc -> Qc;
  flog : Qc -> Qc
}.

(* ------------------------------------------------------------------ *)
(** ** Arrays: vectors and matrices of numpy *)

Notation vec := (list Qc) (only parsing).
Notation mat := (list (list Qc)) (only parsing).
Notation tensor3 := (list (list (list Qc))) (only parsing).
Notation tensor4 := (list (list (list (list Qc)))) (only parsing).

(** [range(n)] *)
Definition range (n : nat) : list nat := seq 0 n.

(** [v[i]], [m[i, j]], [t[i, j, k]] *)
Definition vget (v : vec) (i : nat) : Qc := nth i v 0.
Definition mget (m : mat) (i j : nat) : Qc := vget (nth i m []) j.
Definition tget (t : tensor3) (i j k : nat) : Qc := mget (nth i t []) j k.
Definition t4get (t : tensor4) (i j k l : nat) : Qc := tget (nth i t []) j k l.

(** [l[i] = x] *)
Fixpoint upd {A : Type} (i : nat) (x : A) (l : list A) : list A :=
  match l, i with
  | [], _ => []
  | _ :: l', O => x :: l'
  | a :: l', S i' => a :: upd i' x l'
  end.

(** [m[i, j] = x] *)
Definition mset (i j : nat) (x : Qc) (m : mat) : mat :=
  upd i (upd j x (nth i m [])) m.

(** An array built by a loop over [range(n)] that fills cell [i] with
    [f i]. *)
Definition tabulate {A : Type} (n : nat) (f : nat -> A) : list A :=
  map f (range n).

(** A running sum [acc += f i for i in range(n)], starting from [acc]. *)
Definition sum_from (acc : Qc) (n : nat) (f : nat -> Qc) : Qc :=
  fold_left (fun a i => a + f i) (range n) acc.

Fixpoint map2 {A B C : Type} (f : A -> B -> C) (l : list A) (l' : list B)
  : list C :=
  match l, l' with
  | a :: t, b :: t' => f a b :: map2 f t t'
  | _, _ => []
  end.

Definition vadd (u v : vec) : vec := map2 Qcplus u v.
Definition vsub (u v : vec) : vec := map2 Qcminus u v.
Definition vscale (c : Qc) (v : vec) : vec := map (Qcmult c) v.
Definition vdiv (v : vec) (c : Qc) : vec := map (fun x => x / c) v.
Definition vneg (v : vec) : vec := map Qcopp v.

(** [u @ v] for two vectors *)
Definition dot (u v : vec) : Qc :=
  fold_left Qcplus (map2 Qcmult u v) 0.

(** [np.linalg.norm(v)] *)
Definition norm {L : Libm} (v : vec) : Qc := fsqrt (dot v v).

(** [np.linspace(start, stop, num)] for a count that is not negative:
    [num] evenly spaced samples, both ends included. *)
Definition linspace (start stop : Qc) (num : nat) : vec :=
  match num with
  | O => []
  | S O => [start]
  | _ =>
      let step := (stop - start) / Q2Qc (inject_Z (Z.of_nat (num - 1))) in
      tabulate num (fun i => start + Q2Qc (inject_Z (Z.of_nat i)) * step)
  end.

(** [np.eye(n)] *)
Definition eye (n : nat) : mat :=
  tabulate n (fun i => tabulate n (fun j => if Nat.eqb i j then 1 else 0)).

(** [m.T] for a matrix with [c] columns *)
Definition transpose (c : nat) (m : mat) : mat :=
  tabulate c (fun j => map (fun row => vget row j) m).

(** [m @ v], [v @ m], [a @ b] *)
Definition matvec (m : mat) (v : vec) : vec := map (fun row => dot row v) m.
Definition vecmat (c : nat) (v : vec) (m : mat) : vec :=
  matvec (transpose c m) v.
Definition matmul (c : nat) (a b : mat) : mat :=
  map (fun row => vecmat c row b) a.

Definition madd (a b : mat) : mat := map2 vadd a b.
Definition msub (a b : mat) : mat := map2 vsub a b.
Definition mdiv (a : mat) (c : Qc) : mat := map (fun r => vdiv r c) a.
Definition t3sub (a b : tensor3) : tensor3 := map2 msub a b.
Definition t3div (a : tensor3) (c : Qc) : tensor3 := map (fun m => mdiv m c) a.

(* ------------------------------------------------------------------ *)
(** ** np.linalg.inv

    The inverse in exact arithmetic, by Gauss-Jordan elimination on the
    rows of [A | I]; a column without a non-zero pivot means the matrix
    is singular, and numpy raises [LinAlgError].

    The float routine is an LU factorisation: it raises on a pivot that
    is exactly zero and on nothing else, so close to a singular matrix
    it returns what the elimination yields, which need not be near an
    inverse.  The theorems take from [inv] that it answers with a
    matrix or with [LinAlgError], and its values at the points of the
    examples; none of them rests on the answer being an inverse. *)

(** A row of the augmented matrix: the left part and the right part. *)
Notation arow := (list Qc * list Qc)%type (only parsing).

Definition arow_scale (c : Qc) (r : arow) : arow :=
  (vscale c (fst r), vscale c (snd r)).

Definition arow_sub (r p : arow) : arow :=
  (vsub (fst r) (fst p), vsub (snd r) (snd p)).

(** Subtract from [r] the multiple of the pivot row that clears
    column [k]. *)
Definition eliminate (k : nat) (p r : arow) : arow :=
  arow_sub r (arow_scale (vget (fst r) k) p).

(** The first row whose entry in column [k] is not zero, and the rows
    left aside. *)
Fixpoint find_pivot (k : nat) (rows : list arow) : option (arow * list arow) :=
  match rows with
  | [] => None
  | r :: rest =>
      if Qceqb (vget (fst r) k) 0
      then match find_pivot k rest with
           | Some (p, others) => Some (p, r :: others)
           | None => None
           end
      else Some (r, rest)
  end.

(** Columns [k], [k+1], ..., [k+fuel-1]: [done] holds the pivot rows of
    the columns already treated, in order. *)
Fixpoint gauss_jordan (fuel k : nat) (done todo : list arow)
  : res (list arow) :=
  match fuel with
  | O => Ok done
  | S fuel' =>
      match find_pivot k todo with
      | None => Raise LinAlgError
      | Some (p, others) =>
          let p' := arow_scale (/ vget (fst p) k) p in
          gauss_jordan fuel' (S k)
            (map (eliminate k p') done ++ [p'])
            (map (eliminate k p') others)
      end
  end.

Definition inv (a : mat) : res mat :=
  let n := length a in
  let* rows := gauss_jordan n 0 [] (combine a (eye n)) in
  Ok (map snd rows).

(* ------------------------------------------------------------------ *)
(** ** Physical constants *)

Definition LAMBDA_PHI : Qc := dec 2176435 100000000000000.  (* 2.176435e-8 *)
Definition PHI_THRESHOLD : Qc := dec 76901 10000.           (* 7.6901 *)
Definition GAMMA_FIXED : Qc := dec 92 1000.                 (* 0.092 *)
Definition CHI_PC : Qc := dec 869 1000.                     (* 0.869 *)

(* ------------------------------------------------------------------ *)
(** ** ManifoldPoint *)

Record ManifoldPoint : Type := RawPoint {
  Lambda : Qc;    (* coherence *)
  Phi : Qc;       (* consciousness *)
  Gamma : Qc;     (* decoherence *)
  tau : Qc;       (* proper time *)
  epsilon : Qc;   (* entanglement *)
  psi : Qc        (* phase *)
}.

(** [__post_init__]: clamp values to valid ranges; [tau] is not
    touched. *)
Definition post_init (p : ManifoldPoint) : ManifoldPoint :=
  {| Lambda := clip (Lambda p) 0 1;
     Phi := clip (Phi p) 0 1;
     Gamma := clip (Gamma p) (dec 1 1000) 1;
     tau := tau p;
     epsilon := clip (epsilon p) 0 1;
     psi := clip (psi p) 0 1 |}.

(** [ManifoldPoint(Lambda=..., Phi=..., ...)]: the dataclass constructor
    stores the six fields and runs [__post_init__]. *)
Definition new_point (L P G t e s : Qc) : ManifoldPoint :=
  post_init (RawPoint L P G t e s).

(** [ManifoldPoint()] with the default field values. *)
Definition default_point : ManifoldPoint :=
  new_point (dec 95 100) (dec 85 100) (dec 1 10) 0 (dec 7 10) (dec 9 10).

Definition to_vector (p : ManifoldPoint) : vec :=
  [Lambda p; Phi p; Gamma p; tau p; epsilon p; psi p].

Definition from_vector (v : vec) : ManifoldPoint :=
  new_point (vget v 0) (vget v 1) (vget v 2) (vget v 3) (vget v 4) (vget v 5).

(** The property [xi]: negentropic efficiency. *)
Definition xi (p : ManifoldPoint) : Qc := (Lambda p * Phi p) / Gamma p.

Definition is_coherent (p : ManifoldPoint) : bool := Qcleb PHI_THRESHOLD (xi p).

Definition needs_healing (p : ManifoldPoint) : bool :=
  Qcltb (dec 3 10) (Gamma p).

(* ------------------------------------------------------------------ *)
(** ** MetricTensor *)

Module MetricTensor.

(** The coupling coefficients set by [__init__]. *)
Definition lambda_phi_coupling : Qc := LAMBDA_PHI * dec 100000000 1.
Definition gamma_psi_coupling : Qc := GAMMA_FIXED.
Definition epsilon_lambda_coupling : Qc := CHI_PC.

(** The metric at a point: the identity with three symmetric couplings
    and two rescaled diagonal cells.
    Dimension indices: 0=Lambda, 1=Phi, 2=Gamma, 3=tau, 4=epsilon,
    5=psi. *)
Definition g (point : ManifoldPoint) : mat :=
  let g0 := eye 6 in
  let c01 := - lambda_phi_coupling * Lambda point * Phi point in
  let g1 := mset 0 1 c01 (mset 1 0 c01 g0) in
  let c25 := gamma_psi_coupling * psi point in
  let g2 := mset 2 5 c25 (mset 5 2 c25 g1) in
  let c40 := - epsilon_lambda_coupling * epsilon point in
  let g3 := mset 4 0 c40 (mset 0 4 c40 g2) in
  let g4 := mset 3 3 (1 / (1 + Lambda point)) g3 in
  let g5 := mset 2 2 (1 + Gamma point * dec 10 1) g4 in
  g5.

Definition g_inverse (point : ManifoldPoint) : res mat := inv (g point).

Definition distance_squared (p1 p2 : ManifoldPoint) : Qc :=
  let dx := vsub (to_vector p2) (to_vector p1) in
  let midpoint :=
    from_vector (vdiv (vadd (to_vector p1) (to_vector p2)) (dec 2 1)) in
  let g := g midpoint in
  dot (vecmat 6 dx g) dx.

(** [math.sqrt(max(0, ds2))] *)
Definition distance {L : Libm} (p1 p2 : ManifoldPoint) : Qc :=
  let ds2 := distance_squared p1 p2 in
  fsqrt (Qcmax 0 ds2).

End MetricTensor.

(* ------------------------------------------------------------------ *)
(** ** ChristoffelSymbols *)

Module ChristoffelSymbols.

Definition _epsilon : Qc := dec 1 1000000.   (* 1e-6 *)

(** [vec[i] += d] on a copy *)
Definition bump (v : vec) (i : nat) (d : Qc) : vec := upd i (vget v i + d) v.

(** [dg[rho, mu, nu]], the central difference of the metric along
    axis [rho]. *)
Definition metric_derivatives (point : ManifoldPoint) : tensor3 :=
  let base_vec := to_vector point in
  tabulate 6 (fun rho =>
    let vec_plus := bump base_vec rho _epsilon in
    let g_plus := MetricTensor.g (from_vector vec_plus) in
    let vec_minus := bump base_vec rho (- _epsilon) in
    let g_minus := MetricTensor.g (from_vector vec_minus) in
    mdiv (msub g_plus g_minus) (dec 2 1 * _epsilon)).

(** The 6x6x6 array whose cell [sigma, mu, nu] is the Christoffel
    symbol; the metric is inverted first, so a singular metric raises
    before any cell is computed. *)
Definition compute (point : ManifoldPoint) : res tensor3 :=
  let* g_inv := MetricTensor.g_inverse point in
  let dg := metric_derivatives point in
  Ok (tabulate 6 (fun sigma =>
      tabulate 6 (fun mu =>
      tabulate 6 (fun nu =>
        sum_from 0 6 (fun rho =>
          dec 1 2 * mget g_inv sigma rho *
          (tget dg mu nu rho + tget dg nu mu rho - tget dg rho mu nu)))))).

End ChristoffelSymbols.

(* ------------------------------------------------------------------ *)
(** ** GeodesicSolver *)

Module GeodesicSolver.

(** The right-hand side of the geodesic equation: starting from zeros,
    [acceleration[mu] -= gamma[mu, nu, sigma] * v[nu] * v[sigma]]. *)
Definition geodesic_acceleration (position velocity : vec) : res vec :=
  let point := from_vector position in
  let* gamma := ChristoffelSymbols.compute point in
  Ok (tabulate 6 (fun mu =>
      fold_left (fun acc nu =>
        fold_left (fun acc sigma =>
          acc - tget gamma mu nu sigma * vget velocity nu * vget velocity sigma)
          (range 6) acc)
        (range 6) 0)).

(** [x[0:3] = np.clip(x[0:3], 0.001, 1.0)] then
    [x[4:6] = np.clip(x[4:6], 0.0, 1.0)]. *)
Definition clamp (x : vec) : vec :=
  [clip (vget x 0) (dec 1 1000) 1;
   clip (vget x 1) (dec 1 1000) 1;
   clip (vget x 2) (dec 1 1000) 1;
   vget x 3;
   clip (vget x 4) 0 1;
   clip (vget x 5) 0 1].

(** One pass of the body of the loop of [_integrate]: the RK4 update of
    [(x, v)] and the clamp of [x].  The velocity is never clamped.  With
    floats it can overflow, and [np.clip] lets a NaN through, so the
    range of the clamped coordinates is a fact of exact arithmetic
    only: no theorem below rests on it. *)
Definition rk4_step (dt : Qc) (x v : vec) : res (vec * vec) :=
  let half := dec 1 2 in
  let two := dec 2 1 in
  let k1_x := v in
  let* k1_v := geodesic_acceleration x v in
  let k2_x := vadd v (vscale (half * dt) k1_v) in
  let* k2_v := geodesic_acceleration (vadd x (vscale (half * dt) k1_x))
                                     (vadd v (vscale (half * dt) k1_v)) in
  let k3_x := vadd v (vscale (half * dt) k2_v) in
  let* k3_v := geodesic_acceleration (vadd x (vscale (half * dt) k2_x))
                                     (vadd v (vscale (half * dt) k2_v)) in
  let k4_x := vadd v (vscale dt k3_v) in
  let* k4_v := geodesic_acceleration (vadd x (vscale dt k3_x))
                                     (vadd v (vscale dt k3_v)) in
  let x' := vadd x (vscale (dt / dec 6 1)
              (vadd (vadd (vadd k1_x (vscale two k2_x)) (vscale two k3_x)) k4_x)) in
  let v' := vadd v (vscale (dt / dec 6 1)
              (vadd (vadd (vadd k1_v (vscale two k2_v)) (vscale two k3_v)) k4_v)) in
  Ok (clamp x', v').

(** The loop of [_integrate]: [n] passes from [(x, v)]; the points
    appended to [path], in order. *)
Fixpoint integrate_loop (n : nat) (dt : Qc) (x v : vec) : res (list vec) :=
  match n with
  | O => Ok []
  | S n' =>
      let* xv := rk4_step dt x v in
      let* rest := integrate_loop n' dt (fst xv) (snd xv) in
      Ok (fst xv :: rest)
  end.

Definition _integrate (x0 v0 : vec) (num_steps : Z) (dt : Qc)
  : res (list vec) :=
  let* rest := integrate_loop (Z.to_nat num_steps) dt x0 v0 in
  Ok (x0 :: rest).

(** [np.linalg.norm(error) < tol] for a positive [tol].  The square
    root is increasing, so the test is made on the squares. *)
Definition norm_lt (error : vec) (tol : Qc) : bool :=
  Qcltb (dot error error) (tol * tol).

(** [path[-1]] of a list that is never empty here. *)
Definition endpoint (path : list vec) : vec := last path [].

(** The shooting loop, [fuel] iterations from the velocity [v0].
    [path] is the local variable of [solve]: [None] until the first
    iteration has assigned it.  The boolean is a ghost: it records
    whether the loop was left through [break]; [solve] drops it. *)
Fixpoint shoot (fuel : nat) (x0 xf v0 : vec) (num_steps : Z) (dt : Qc)
  (path : option (list vec)) : res (option (list vec) * bool) :=
  match fuel with
  | O => Ok (path, false)
  | S fuel' =>
      let* path' := _integrate x0 v0 num_steps dt in
      let error := vsub xf (endpoint path') in
      if norm_lt error (dec 1 10000)
      then Ok (Some path', true)
      else shoot fuel' x0 xf (vadd v0 (vscale (dec 1 2) error))
                 num_steps dt (Some path')
  end.

(** [1.0 / num_steps] *)
Definition step_size (num_steps : Z) : res Qc :=
  if Z.eqb num_steps 0 then Raise ZeroDivisionError
  else Ok (1 / Q2Qc (inject_Z num_steps)).

(** [solve] together with the ghost flag of [shoot]. *)
Definition solve_traced (start end_ : ManifoldPoint)
  (num_steps max_iterations : Z) : res (list ManifoldPoint * bool) :=
  let x0 := to_vector start in
  let xf := to_vector end_ in
  let v0 := vsub xf x0 in
  let* dt := step_size num_steps in
  let* r := shoot (Z.to_nat max_iterations) x0 xf v0 num_steps dt None in
  match fst r with
  | None => Raise UnboundLocalError
  | Some path => Ok (map from_vector path, snd r)
  end.

Definition solve (start end_ : ManifoldPoint)
  (num_steps max_iterations : Z) : res (list ManifoldPoint) :=
  let* r := solve_traced start end_ num_steps max_iterations in
  Ok (fst r).

(** The total length of a path: the distances of its consecutive
    points, added from the first pair on. *)
Definition path_length {L : Libm} (path : list ManifoldPoint) : Qc :=
  if (length path <? 2)%nat then 0
  else
    fold_left (fun length_ i =>
        length_ + MetricTensor.distance (nth i path default_point)
                                        (nth (S i) path default_point))
      (range (length path - 1)) 0.

End GeodesicSolver.


(* ------------------------------------------------------------------ *)
(** ** RiemannCurvature *)

Module RiemannCurvature.

Definition _epsilon : Qc := dec 1 100000.   (* 1e-5 *)

(** [dgamma[mu, rho, nu, sigma]], the central difference of the
    Christoffel symbols along axis [mu]. *)
Definition christoffel_derivatives (point : ManifoldPoint) : res tensor4 :=
  let base_vec := to_vector point in
  mapM (fun mu =>
    let vec_plus := ChristoffelSymbols.bump base_vec mu _epsilon in
    let* gamma_plus := ChristoffelSymbols.compute (from_vector vec_plus) in
    let vec_minus := ChristoffelSymbols.bump base_vec mu (- _epsilon) in
    let* gamma_minus := ChristoffelSymbols.compute (from_vector vec_minus) in
    Ok (t3div (t3sub gamma_plus gamma_minus) (dec 2 1 * _epsilon)))
    (range 6).

Definition riemann_tensor (point : ManifoldPoint) : res tensor4 :=
  let* gamma := ChristoffelSymbols.compute point in
  let* dgamma := christoffel_derivatives point in
  Ok (tabulate 6 (fun rho =>
      tabulate 6 (fun sigma =>
      tabulate 6 (fun mu =>
      tabulate 6 (fun nu =>
        sum_from (t4get dgamma mu rho nu sigma - t4get dgamma nu rho mu sigma) 6
          (fun lam =>
             tget gamma rho mu lam * tget gamma lam nu sigma -
             tget gamma rho nu lam * tget gamma lam mu sigma)))))).

Definition ricci_tensor (point : ManifoldPoint) : res mat :=
  let* R := riemann_tensor point in
  Ok (tabulate 6 (fun mu =>
      tabulate 6 (fun nu =>
        sum_from 0 6 (fun rho => t4get R rho mu rho nu)))).

Definition scalar_curvature (point : ManifoldPoint) : res Qc :=
  let* ricci := ricci_tensor point in
  let* g_inv := MetricTensor.g_inverse point in
  Ok (fold_left (fun R mu =>
        fold_left (fun R nu => R + mget g_inv mu nu * mget ricci mu nu)
          (range 6) R)
        (range 6) 0).

Definition curvature_gradient (point : ManifoldPoint) : res vec :=
  let base_vec := to_vector point in
  let* R0 := scalar_curvature point in
  mapM (fun i =>
    let vec_plus := ChristoffelSymbols.bump base_vec i _epsilon in
    let* R_plus := scalar_curvature (from_vector vec_plus) in
    Ok ((R_plus - R0) / _epsilon))
    (range 6).

End RiemannCurvature.

(* ------------------------------------------------------------------ *)
(** ** WassersteinTransport *)

Module WassersteinTransport.

(** [np.diag(u)] *)
Definition diag (u : vec) : mat :=
  let n := length u in
  tabulate n (fun i => tabulate n (fun j => if Nat.eqb i j then vget u i else 0)).

(** [np.sum(m)] over all the cells, row after row *)
Definition msum (m : mat) : Qc :=
  fold_left Qcplus (map (fun row => fold_left Qcplus row 0) m) 0.

(** [a * b], cell by cell *)
Definition mhadamard (a b : mat) : mat := map2 (map2 Qcmult) a b.

(** One pass of the Sinkhorn loop: [u] from the old [v], then [v] from
    the new [u]. *)
Definition sinkhorn_pass (m : nat) (K : mat) (source_weights target_weights : vec)
  (uv : vec * vec) : vec * vec :=
  let u := map2 Qcdiv source_weights (matvec K (snd uv)) in
  let v := map2 Qcdiv target_weights (matvec (transpose m K) u) in
  (u, v).

(** [for _ in range(k)] *)
Fixpoint repeat_loop {S : Type} (k : nat) (body : S -> S) (s : S) : S :=
  match k with
  | O => s
  | S k' => repeat_loop k' body (body s)
  end.

Definition w2_distance {L : Libm}
  (source_points : list ManifoldPoint) (source_weights : vec)
  (target_points : list ManifoldPoint) (target_weights : vec) : Qc :=
  let n := length source_points in
  let m := length target_points in
  let C := map (fun s =>
             map (fun t => MetricTensor.distance_squared s t) target_points)
             source_points in
  let epsilon := dec 1 10 in
  let K := map (map (fun c => fexp (- c / epsilon))) C in
  let u := repeat 1 n in
  let v := repeat 1 m in
  let uv := repeat_loop 100
              (sinkhorn_pass m K source_weights target_weights) (u, v) in
  let P := matmul m (matmul m (diag (fst uv)) K) (diag (snd uv)) in
  fsqrt (msum (mhadamard P C)).

Definition transport_plan (source target : ManifoldPoint) (num_steps : Z)
  : res (list ManifoldPoint) :=
  GeodesicSolver.solve source target num_steps 50.

End WassersteinTransport.

(* ------------------------------------------------------------------ *)
(** ** CRSM6D, the manifold facade *)

Module CRSM6D.

Definition distance {L : Libm} (p1 p2 : ManifoldPoint) : Qc :=
  MetricTensor.distance p1 p2.

Definition scalar_curvature_at (point : ManifoldPoint) : res Qc :=
  RiemannCurvature.scalar_curvature point.

Definition curvature_gradient_at (point : ManifoldPoint) : res vec :=
  RiemannCurvature.curvature_gradient point.

Definition find_geodesic (start end_ : ManifoldPoint) (steps : Z)
  : res (list ManifoldPoint) :=
  GeodesicSolver.solve start end_ steps 50.

Definition optimal_transport (source target : ManifoldPoint) (steps : Z)
  : res (list ManifoldPoint) :=
  WassersteinTransport.transport_plan source target steps.

Definition is_coherent_region (point : ManifoldPoint) : bool :=
  is_coherent point.

Definition decoherence_field (point : ManifoldPoint) : res Qc :=
  let* R0 := scalar_curvature_at point in
  let R := Qcabs' R0 in
  Ok (Gamma point * (1 + R * dec 1 10)).

Definition coherence_potential {L : Libm} (point : ManifoldPoint) : res Qc :=
  let xi := Qcmax (dec 1 1000) (xi point) in
  let* R := scalar_curvature_at point in
  Ok (- flog xi + dec 1 10 * Qcabs' R).

End CRSM6D.

(* ------------------------------------------------------------------ *)
(** ** Agents *)

Inductive AgentState : Type :=
| DORMANT | SENSING | NAVIGATING | HEALING | EVOLVING | CONVERGED.

Inductive AgentPole : Type := AURA | AIDEN | UNIFIED.

Record CurvatureSense : Type := {
  cs_scalar_curvature : Qc;
  cs_curvature_gradient : vec;
  cs_decoherence_field : Qc;
  cs_coherence_potential : Qc;
  cs_is_coherent : bool;
  cs_needs_healing : bool
}.

Definition danger_level (s : CurvatureSense) : Qc :=
  Qcmin 1 (cs_decoherence_field s + Qcabs' (cs_scalar_curvature s) * dec 1 10).

(** [==] on the members of [AgentState]. *)
Definition AgentState_eqb (s s' : AgentState) : bool :=
  match s, s' with
  | DORMANT, DORMANT | SENSING, SENSING | NAVIGATING, NAVIGATING
  | HEALING, HEALING | EVOLVING, EVOLVING | CONVERGED, CONVERGED => true
  | _, _ => false
  end.

Record NavigationSense : Type := {
  ns_current_position : ManifoldPoint;
  ns_target_position : option ManifoldPoint;
  ns_geodesic_path : list ManifoldPoint;
  ns_path_length : Qc;
  ns_progress : Qc;
  ns_estimated_steps : Z
}.

(** The dictionary that [telemetry] returns, one record per nested
    dictionary; an enum member stands for its name. *)
Record TelemetryPosition : Type := {
  tp_Lambda : Qc; tp_Phi : Qc; tp_Gamma : Qc; tp_tau : Qc;
  tp_epsilon : Qc; tp_psi : Qc; tp_Xi : Qc
}.

Record TelemetryCurvature : Type := {
  tc_scalar : Qc;
  tc_decoherence_field : Qc;
  tc_coherence_potential : Qc;
  tc_is_coherent : bool;
  tc_danger_level : Qc
}.

Record TelemetryNavigation : Type := {
  tn_has_target : bool;
  tn_path_length : Qc;
  tn_progress : Qc
}.

Record TelemetryMetrics : Type := {
  tx_total_distance : Qc;
  tx_healing_count : nat;
  tx_evolution_count : nat;
  tx_generation : nat;
  tx_fitness : Qc;
  tx_trajectory_length : nat
}.

Record Telemetry : Type := {
  tm_agent_id : string;
  tm_pole : AgentPole;
  tm_state : AgentState;
  tm_position : TelemetryPosition;
  tm_curvature : TelemetryCurvature;
  tm_navigation : TelemetryNavigation;
  tm_metrics : TelemetryMetrics
}.

(** The mutable fields of a [GeodesicAgent].  The manifold it holds is
    the stateless [CRSM6D]; the lock guards calls that this sequential
    model runs one at a time. *)
Record GeodesicAgent : Type := {
  pole : AgentPole;
  state : AgentState;
  position : ManifoldPoint;
  velocity : vec;
  target : option ManifoldPoint;
  path : list ManifoldPoint;
  path_index : nat;
  trajectory : list ManifoldPoint;
  generation : nat;
  fitness : Qc;
  mutation_rate : Qc;
  total_distance : Qc;
  healing_count : nat;
  evolution_count : nat
}.

Module GeodesicAgent.

(** [__init__]; [initial_position or ManifoldPoint()] *)
Definition init (initial_position : option ManifoldPoint) (pole : AgentPole)
  : GeodesicAgent :=
  let position :=
    match initial_position with Some p => p | None => default_point end in
  {| pole := pole;
     state := DORMANT;
     position := position;
     velocity := repeat 0 6;
     target := None;
     path := [];
     path_index := 0;
     trajectory := [position];
     generation := 0;
     fitness := 1;
     mutation_rate := dec 3 100;
     total_distance := 0;
     healing_count := 0;
     evolution_count := 0 |}.

Definition set_state (st : AgentState) (a : GeodesicAgent) : GeodesicAgent :=
  {| pole := pole a; state := st; position := position a;
     velocity := velocity a; target := target a; path := path a;
     path_index := path_index a; trajectory := trajectory a;
     generation := generation a; fitness := fitness a;
     mutation_rate := mutation_rate a; total_distance := total_distance a;
     healing_count := healing_count a; evolution_count := evolution_count a |}.

Definition set_position (p : ManifoldPoint) (a : GeodesicAgent) : GeodesicAgent :=
  {| pole := pole a; state := state a; position := p;
     velocity := velocity a; target := target a; path := path a;
     path_index := path_index a; trajectory := trajectory a;
     generation := generation a; fitness := fitness a;
     mutation_rate := mutation_rate a; total_distance := total_distance a;
     healing_count := healing_count a; evolution_count := evolution_count a |}.

(** [self.trajectory.append(self.position)] *)
Definition record_trajectory (a : GeodesicAgent) : GeodesicAgent :=
  {| pole := pole a; state := state a; position := position a;
     velocity := velocity a; target := target a; path := path a;
     path_index := path_index a;
     trajectory := trajectory a ++ [position a];
     generation := generation a; fitness := fitness a;
     mutation_rate := mutation_rate a; total_distance := total_distance a;
     healing_count := healing_count a; evolution_count := evolution_count a |}.

Definition sense_curvature {L : Libm} (a : GeodesicAgent)
  : res (CurvatureSense * GeodesicAgent) :=
  let a := set_state SENSING a in
  let* sc := CRSM6D.scalar_curvature_at (position a) in
  let* grad := CRSM6D.curvature_gradient_at (position a) in
  let* df := CRSM6D.decoherence_field (position a) in
  let* cp := CRSM6D.coherence_potential (position a) in
  Ok ({| cs_scalar_curvature := sc;
         cs_curvature_gradient := grad;
         cs_decoherence_field := df;
         cs_coherence_potential := cp;
         cs_is_coherent := CRSM6D.is_coherent_region (position a);
         cs_needs_healing := needs_healing (position a) |}, a).

Definition set_target (target : ManifoldPoint) (a : GeodesicAgent)
  : res GeodesicAgent :=
  let* path := CRSM6D.find_geodesic (position a) target 50 in
  Ok {| pole := pole a; state := NAVIGATING; position := position a;
        velocity := velocity a; target := Some target; path := path;
        path_index := 0; trajectory := trajectory a;
        generation := generation a; fitness := fitness a;
        mutation_rate := mutation_rate a; total_distance := total_distance a;
        healing_count := healing_count a;
        evolution_count := evolution_count a |}.

(** Phase conjugation. *)
Definition _heal (a : GeodesicAgent) : GeodesicAgent :=
  let old_gamma := Gamma (position a) in
  let new_gamma := old_gamma * (1 - CHI_PC) in
  let new_lambda := Qcmin 1 (Lambda (position a) / Qcmax (dec 1 100) old_gamma) in
  let new_psi := Qcmin 1 (Qcmax 0 (1 - psi (position a) + CHI_PC)) in
  let position' :=
    new_point new_lambda
      (Phi (position a) * CHI_PC + (1 - CHI_PC) * PHI_THRESHOLD / dec 10 1)
      new_gamma
      (tau (position a) + dec 1 100)
      (epsilon (position a))
      new_psi in
  {| pole := pole a; state := HEALING; position := position';
     velocity := velocity a; target := target a; path := path a;
     path_index := path_index a;
     trajectory := trajectory a ++ [position'];
     generation := generation a; fitness := fitness a;
     mutation_rate := mutation_rate a; total_distance := total_distance a;
     healing_count := S (healing_count a);
     evolution_count := evolution_count a |}.

Definition force_heal (a : GeodesicAgent) : GeodesicAgent := _heal a.

(** Autopoietic self-modification; [noise] is the draw of
    [np.random.randn(6)]. *)
Definition _evolve (noise : vec) (a : GeodesicAgent) : GeodesicAgent :=
  let mutation := vscale (mutation_rate a) noise in
  let mutation := upd 0 (vget mutation 0 + dec 1 100) mutation in
  let mutation := upd 2 (vget mutation 2 - dec 1 100) mutation in
  let new_vec := vadd (to_vector (position a)) mutation in
  let position' := from_vector new_vec in
  {| pole := pole a; state := EVOLVING; position := position';
     velocity := velocity a; target := target a; path := path a;
     path_index := path_index a; trajectory := trajectory a;
     generation := S (generation a);
     fitness := xi position' / PHI_THRESHOLD;
     mutation_rate := mutation_rate a; total_distance := total_distance a;
     healing_count := healing_count a;
     evolution_count := S (evolution_count a) |}.

(** [step]: [u] is the draw of [np.random.random()] and [noise] the
    draw of [np.random.randn(6)], read only on the branch that reaches
    them. *)
(** [not self.path or self.path_index >= len(self.path) - 1] *)
Definition path_exhausted (a : GeodesicAgent) : bool :=
  match path a with
  | [] => true
  | _ :: _ => (length (path a) - 1 <=? path_index a)%nat
  end.

Definition step {L : Libm} (u : Qc) (noise : vec) (a : GeodesicAgent)
  : bool * GeodesicAgent :=
  if needs_healing (position a) then (true, _heal a)
  else
    if path_exhausted a
    then (false, set_state CONVERGED a)
    else
      let old_position := position a in
      let path_index' := S (path_index a) in
      let position' := nth path_index' (path a) default_point in
      let a' :=
        {| pole := pole a; state := state a; position := position';
           velocity := vsub (to_vector position') (to_vector old_position);
           target := target a; path := path a;
           path_index := path_index';
           trajectory := trajectory a ++ [position'];
           generation := generation a; fitness := fitness a;
           mutation_rate := mutation_rate a;
           total_distance :=
             total_distance a + CRSM6D.distance old_position position';
           healing_count := healing_count a;
           evolution_count := evolution_count a |} in
      if Qcltb u (mutation_rate a') then (true, _evolve noise a')
      else (true, a').

Definition flee_step {L : Libm} (a : GeodesicAgent) : res GeodesicAgent :=
  let* grad := CRSM6D.curvature_gradient_at (position a) in
  let direction := vdiv (vneg grad) (norm grad + dec 1 100000000) in
  let new_vec := vadd (to_vector (position a)) (vscale (dec 5 100) direction) in
  Ok (record_trajectory (set_position (from_vector new_vec) a)).

Fixpoint flee_high_curvature {L : Libm} (steps : nat) (a : GeodesicAgent)
  : res GeodesicAgent :=
  match steps with
  | O => Ok a
  | S steps' =>
      let* a' := flee_step a in flee_high_curvature steps' a'
  end.

(** [evolve_step], for the [autopoietic_operator] of the concrete
    class. *)
Definition evolve_step (autopoietic_operator : ManifoldPoint -> ManifoldPoint)
  (a : GeodesicAgent) : ManifoldPoint * GeodesicAgent :=
  let new_position := autopoietic_operator (position a) in
  (new_position,
   {| pole := pole a; state := state a; position := new_position;
      velocity := velocity a; target := target a; path := path a;
      path_index := path_index a;
      trajectory := trajectory a ++ [new_position];
      generation := S (generation a); fitness := fitness a;
      mutation_rate := mutation_rate a; total_distance := total_distance a;
      healing_count := healing_count a;
      evolution_count := evolution_count a |}).

(** The length of the path that is left, from the current index on. *)
Definition _compute_path_length {L : Libm} (a : GeodesicAgent) : Qc :=
  if path_exhausted a then 0
  else
    fold_left (fun length_ i =>
        length_ + CRSM6D.distance (nth i (path a) default_point)
                                  (nth (S i) (path a) default_point))
      (seq (path_index a) (length (path a) - 1 - path_index a)) 0.

Definition sense_navigation {L : Libm} (a : GeodesicAgent) : NavigationSense :=
  let progress :=
    match path a with
    | [] => 0
    | _ :: _ =>
        if (1 <? length (path a))%nat
        then Q2Qc (inject_Z (Z.of_nat (path_index a))) /
             Q2Qc (inject_Z (Z.of_nat (length (path a)) - 1))
        else 0
    end in
  {| ns_current_position := position a;
     ns_target_position := target a;
     ns_geodesic_path := path a;
     ns_path_length := _compute_path_length a;
     ns_progress := progress;
     ns_estimated_steps :=
       match path a with
       | [] => 0%Z
       | _ :: _ => (Z.of_nat (length (path a)) - Z.of_nat (path_index a))%Z
       end |}.

(** The loop of [navigate_to], [n] passes left; [draws k] holds the
    random draws of the call of [step] of pass [k]. *)
Fixpoint navigate_loop {L : Libm} (n k : nat) (draws : nat -> Qc * vec)
  (target : ManifoldPoint) (a : GeodesicAgent) : bool * GeodesicAgent :=
  match n with
  | O => (AgentState_eqb (state a) CONVERGED, a)
  | S n' =>
      let r := step (fst (draws k)) (snd (draws k)) a in
      if negb (fst r)
      then (AgentState_eqb (state (snd r)) CONVERGED, snd r)
      else
        if Qcltb (CRSM6D.distance (position (snd r)) target) (dec 1 100)
        then (true, set_state CONVERGED (snd r))
        else navigate_loop n' (S k) draws target (snd r)
  end.

Definition navigate_to {L : Libm} (draws : nat -> Qc * vec)
  (target : ManifoldPoint) (max_steps : Z) (a : GeodesicAgent)
  : res (bool * GeodesicAgent) :=
  let* a := set_target target a in
  Ok (navigate_loop (Z.to_nat max_steps) 0 draws target a).

(** [telemetry]; [agent_id] is the identifier given to [__init__]. *)
Definition telemetry {L : Libm} (agent_id : string) (a : GeodesicAgent)
  : res (Telemetry * GeodesicAgent) :=
  let* r := sense_curvature a in
  let sense := fst r in
  let a := snd r in
  Ok ({| tm_agent_id := agent_id;
         tm_pole := pole a;
         tm_state := state a;
         tm_position :=
           {| tp_Lambda := Lambda (position a);
              tp_Phi := Phi (position a);
              tp_Gamma := Gamma (position a);
              tp_tau := tau (position a);
              tp_epsilon := epsilon (position a);
              tp_psi := psi (position a);
              tp_Xi := xi (position a) |};
         tm_curvature :=
           {| tc_scalar := cs_scalar_curvature sense;
              tc_decoherence_field := cs_decoherence_field sense;
              tc_coherence_potential := cs_coherence_potential sense;
              tc_is_coherent := cs_is_coherent sense;
              tc_danger_level := danger_level sense |};
         tm_navigation :=
           {| tn_has_target :=
                match target a with Some _ => true | None => false end;
              tn_path_length := _compute_path_length a;
              tn_progress :=
                match path a with
                | [] => 0
                | _ :: _ =>
                    Q2Qc (inject_Z (Z.of_nat (path_index a))) /
                    Q2Qc (inject_Z
                            (Z.max 1 (Z.of_nat (length (path a)) - 1)))
                end |};
         tm_metrics :=
           {| tx_total_distance := total_distance a;
              tx_healing_count := healing_count a;
              tx_evolution_count := evolution_count a;
              tx_generation := generation a;
              tx_fitness := fitness a;
              tx_trajectory_length := length (trajectory a) |} |}, a).

(** The loop of [execute_mutation] of the executor, on the fields of
    the base class: [fuel] bounds the number of tests of the loop
    condition, and [noise k] is the draw of the mutation number [k]. *)
Fixpoint execute_mutation_loop (fuel k : nat) (noise : nat -> vec)
  (target_xi : Qc) (a : GeodesicAgent) : option GeodesicAgent :=
  match fuel with
  | O => None
  | S fuel' =>
      if Qcltb (xi (position a)) target_xi then
        let a' := _evolve (noise k) a in
        if (1000 <? evolution_count a')%nat then Some a'
        else execute_mutation_loop fuel' (S k) noise target_xi a'
      else Some a
  end.

End GeodesicAgent.

(** [round(x, 2)]: the nearest multiple of 1/100, a tie going to the
    even one. *)
Definition round2 (x : Qc) : Qc :=
  let y := x * dec 100 1 in
  let f := Qfloor y in
  let r := y - Q2Qc (inject_Z f) in
  let n :=
    if Qcltb r (dec 1 2) then f
    else if Qcltb (dec 1 2) r then (f + 1)%Z
    else if Z.even f then f else (f + 1)%Z in
  Q2Qc (inject_Z n) / dec 100 1.

Notation map_key := (Qc * Qc * Qc)%type (only parsing).

Definition map_key_eqb (k k' : map_key) : bool :=
  let '(a, b, c) := k in
  let '(a', b', c') := k' in
  Qceqb a a' && Qceqb b b' && Qceqb c c'.

(** [d[key] = value] on a dict kept in insertion order *)
Fixpoint dict_set (key : map_key) (value : Qc) (d : list (map_key * Qc))
  : list (map_key * Qc) :=
  match d with
  | [] => [(key, value)]
  | (k, v) :: d' =>
      if map_key_eqb k key then (k, value) :: d'
      else (k, v) :: dict_set key value d'
  end.

(** [d[key]]; [None] stands for [KeyError]. *)
Fixpoint dict_get (key : map_key) (d : list (map_key * Qc)) : option Qc :=
  match d with
  | [] => None
  | (k, v) :: d' => if map_key_eqb k key then Some v else dict_get key d'
  end.

(** AURA, the observer. *)
Record AURAAgent : Type := {
  aura_base : GeodesicAgent;
  observations : list CurvatureSense;
  manifold_map : list (map_key * Qc)
}.

Module AURAAgent.

Definition init (initial_position : option ManifoldPoint) : AURAAgent :=
  {| aura_base := GeodesicAgent.init initial_position AURA;
     observations := [];
     manifold_map := [] |}.

Definition with_base (b : GeodesicAgent) (a : AURAAgent) : AURAAgent :=
  {| aura_base := b;
     observations := observations a;
     manifold_map := manifold_map a |}.

Definition autopoietic_operator (state : ManifoldPoint) : ManifoldPoint :=
  let delta_phi := dec 1 100 * (Lambda state - Gamma state) in
  let new_phi := Qcmin 1 (Qcmax 0 (Phi state + delta_phi)) in
  new_point
    (Lambda state * dec 99 100 + dec 1 100 * new_phi)
    new_phi
    (Gamma state)
    (tau state + LAMBDA_PHI)
    (epsilon state)
    (psi state * dec 99 100 + dec 1 100).

Definition evolve_step (a : AURAAgent) : ManifoldPoint * AURAAgent :=
  let r := GeodesicAgent.evolve_step autopoietic_operator (aura_base a) in
  (fst r, with_base (snd r) a).

Definition observe {L : Libm} (a : AURAAgent) : res (CurvatureSense * AURAAgent) :=
  let* r := GeodesicAgent.sense_curvature (aura_base a) in
  let sense := fst r in
  let b := snd r in
  let key := (round2 (Lambda (position b)),
              round2 (Phi (position b)),
              round2 (Gamma (position b))) in
  Ok (sense,
      {| aura_base := b;
         observations := observations a ++ [sense];
         manifold_map :=
           dict_set key (cs_scalar_curvature sense) (manifold_map a) |}).

(** [map_region]: the probes of the three nested loops, observed one
    after the other, and the position put back at the end. *)
Definition map_region {L : Libm} (center : ManifoldPoint) (radius : Qc)
  (resolution : nat) (a : AURAAgent) : res AURAAgent :=
  let original_position := position (aura_base a) in
  let grid := linspace (- radius) radius resolution in
  let* a :=
    foldM (fun a dL =>
      foldM (fun a dP =>
        foldM (fun a dG =>
          let probe :=
            new_point (Lambda center + dL) (Phi center + dP)
                      (Qcmax (dec 1 100) (Gamma center + dG))
                      (tau center) (epsilon center) (psi center) in
          let a :=
            with_base (GeodesicAgent.set_position probe (aura_base a)) a in
          let* r := observe a in
          Ok (snd r))
          grid a)
        grid a)
      grid a in
  Ok (with_base (GeodesicAgent.set_position original_position (aura_base a)) a).

End AURAAgent.

(** AIDEN, the executor. *)
Record AIDENAgent : Type := {
  aiden_base : GeodesicAgent;
  optimization_history : list Qc;
  best_fitness : Qc;
  best_position : option ManifoldPoint
}.

Module AIDENAgent.

Definition init (initial_position : option ManifoldPoint) : AIDENAgent :=
  {| aiden_base := GeodesicAgent.init initial_position AIDEN;
     optimization_history := [];
     best_fitness := 0;
     best_position := None |}.

Definition with_base (b : GeodesicAgent) (a : AIDENAgent) : AIDENAgent :=
  {| aiden_base := b;
     optimization_history := optimization_history a;
     best_fitness := best_fitness a;
     best_position := best_position a |}.

Definition autopoietic_operator (state : ManifoldPoint) : ManifoldPoint :=
  let xi_ratio := xi state / PHI_THRESHOLD in
  let delta_lambda := dec 1 100 * (xi_ratio - 1) in
  let new_lambda := Qcmin 1 (Qcmax 0 (Lambda state + delta_lambda)) in
  let new_gamma := Qcmax (dec 1 100) (Gamma state * dec 99 100) in
  new_point
    new_lambda
    (Phi state)
    new_gamma
    (tau state + LAMBDA_PHI * dec 10 1)
    (Qcmin 1 (epsilon state * dec 101 100))
    (psi state).

Definition evolve_step (a : AIDENAgent) : ManifoldPoint * AIDENAgent :=
  let r := GeodesicAgent.evolve_step autopoietic_operator (aiden_base a) in
  (fst r, with_base (snd r) a).

Definition force_heal (a : AIDENAgent) : AIDENAgent :=
  with_base (GeodesicAgent.force_heal (aiden_base a)) a.

Definition flee_high_curvature {L : Libm} (steps : nat) (a : AIDENAgent)
  : res AIDENAgent :=
  let* b := GeodesicAgent.flee_high_curvature steps (aiden_base a) in
  Ok (with_base b a).

(** One pass of the loop of [optimize_position]. *)
Definition optimize_pass {L : Libm} (a : AIDENAgent) : res AIDENAgent :=
  let position0 := position (aiden_base a) in
  let* potential := CRSM6D.coherence_potential position0 in
  let history := optimization_history a ++ [potential] in
  let eps := dec 1 100000 in
  let base_vec := to_vector position0 in
  let* grad :=
    mapM (fun i =>
      let vec_plus := ChristoffelSymbols.bump base_vec i eps in
      let* p_plus := CRSM6D.coherence_potential (from_vector vec_plus) in
      Ok ((p_plus - potential) / eps))
      (range 6) in
  let step := vdiv (vscale (- dec 1 10) grad) (norm grad + dec 1 100000000) in
  let new_vec := vadd base_vec step in
  let position' := from_vector new_vec in
  let base' :=
    GeodesicAgent.record_trajectory
      (GeodesicAgent.set_position position' (aiden_base a)) in
  let improved := Qcltb (best_fitness a) (xi position') in
  Ok {| aiden_base := base';
        optimization_history := history;
        best_fitness := if improved then xi position' else best_fitness a;
        best_position :=
          if improved then Some (from_vector (to_vector position'))
          else best_position a |}.

Fixpoint optimize_loop {L : Libm} (iterations : nat) (a : AIDENAgent)
  : res AIDENAgent :=
  match iterations with
  | O => Ok a
  | S n => let* a' := optimize_pass a in optimize_loop n a'
  end.

Definition optimize_position {L : Libm} (iterations : Z) (a : AIDENAgent)
  : res (ManifoldPoint * AIDENAgent) :=
  let* a' := optimize_loop (Z.to_nat iterations) a in
  Ok (position (aiden_base a'), a').

(** [execute_mutation]: [None] when [fuel] tests of the loop condition
    did not end the loop. *)
Definition execute_mutation (fuel : nat) (noise : nat -> vec) (target_xi : Qc)
  (a : AIDENAgent) : option AIDENAgent :=
  match GeodesicAgent.execute_mutation_loop fuel 0 noise target_xi
          (aiden_base a) with
  | Some b => Some (with_base b a)
  | None => None
  end.

End AIDENAgent.

(* ------------------------------------------------------------------ *)
(** ** AURAIDENSystem, the coupled pair *)

Record AURAIDENSystem : Type := {
  aura : AURAAgent;
  aiden : AIDENAgent;
  coupling_strength : Qc;
  synchronization_history : list Qc
}.

Module AURAIDENSystem.

Definition init : AURAIDENSystem :=
  {| aura := AURAAgent.init
       (Some (new_point (dec 9 10) (dec 9 10) (dec 1 10) 0 (dec 5 10) (dec 9 10)));
     aiden := AIDENAgent.init
       (Some (new_point (dec 9 10) (dec 7 10) (dec 1 10) 0 (dec 5 10) (dec 9 10)));
     coupling_strength := CHI_PC;
     synchronization_history := [] |}.

Definition aura_position (s : AURAIDENSystem) : ManifoldPoint :=
  position (aura_base (aura s)).

Definition aiden_position (s : AURAIDENSystem) : ManifoldPoint :=
  position (aiden_base (aiden s)).

Definition synchronization {L : Libm} (s : AURAIDENSystem)
  : Qc * AURAIDENSystem :=
  let distance := CRSM6D.distance (aura_position s) (aiden_position s) in
  let sync := fexp (- distance) in
  (sync,
   {| aura := aura s; aiden := aiden s;
      coupling_strength := coupling_strength s;
      synchronization_history := synchronization_history s ++ [sync] |}).

Definition _apply_coupling (s : AURAIDENSystem) : AURAIDENSystem :=
  let diff := vsub (to_vector (aiden_position s)) (to_vector (aura_position s)) in
  let aura_vec :=
    vadd (to_vector (aura_position s))
         (vscale (coupling_strength s * dec 1 10) diff) in
  let aiden_vec :=
    vsub (to_vector (aiden_position s))
         (vscale (coupling_strength s * dec 1 10) diff) in
  {| aura := AURAAgent.with_base
       (GeodesicAgent.set_position (from_vector aura_vec) (aura_base (aura s)))
       (aura s);
     aiden := AIDENAgent.with_base
       (GeodesicAgent.set_position (from_vector aiden_vec) (aiden_base (aiden s)))
       (aiden s);
     coupling_strength := coupling_strength s;
     synchronization_history := synchronization_history s |}.

(** The statements of [coupled_step] that come before the coupling:
    AURA observes, AIDEN responds, AURA evolves. *)
Definition observe_and_respond {L : Libm} (s : AURAIDENSystem)
  : res AURAIDENSystem :=
  let* r := AURAAgent.observe (aura s) in
  let observation := fst r in
  let aura1 := snd r in
  let* aiden1 :=
    if cs_needs_healing observation then Ok (AIDENAgent.force_heal (aiden s))
    else if Qcltb (dec 1 2) (danger_level observation)
         then AIDENAgent.flee_high_curvature 3 (aiden s)
         else Ok (snd (AIDENAgent.evolve_step (aiden s))) in
  let aura2 := snd (AURAAgent.evolve_step aura1) in
  Ok {| aura := aura2; aiden := aiden1;
        coupling_strength := coupling_strength s;
        synchronization_history := synchronization_history s |}.

Definition coupled_step {L : Libm} (s : AURAIDENSystem)
  : res (Qc * AURAIDENSystem) :=
  let* s1 := observe_and_respond s in
  let s2 := _apply_coupling s1 in
  Ok (synchronization s2).

(** The dictionary that [run] returns. *)
Record RunResult : Type := {
  final_sync : Qc;
  aura_telemetry : Telemetry;
  aiden_telemetry : Telemetry;
  sync_history : list Qc
}.

(** [for _ in range(steps): self.coupled_step()] *)
Fixpoint coupled_steps {L : Libm} (steps : nat) (s : AURAIDENSystem)
  : res AURAIDENSystem :=
  match steps with
  | O => Ok s
  | S n => let* r := coupled_step s in coupled_steps n (snd r)
  end.

(** [run]: the entries of the dictionary are evaluated in the order in
    which they are written, so [sync_history] is read after the last
    call of [synchronization]. *)
Definition run {L : Libm} (steps : Z) (s : AURAIDENSystem)
  : res (RunResult * AURAIDENSystem) :=
  let* s := coupled_steps (Z.to_nat steps) s in
  let r := synchronization s in
  let sync := fst r in
  let s := snd r in
  let* ta := GeodesicAgent.telemetry "AURA_PRIMARY"%string (aura_base (aura s)) in
  let s := {| aura := AURAAgent.with_base (snd ta) (aura s);
              aiden := aiden s;
              coupling_strength := coupling_strength s;
              synchronization_history := synchronization_history s |} in
  let* td := GeodesicAgent.telemetry "AIDEN_PRIMARY"%string (aiden_base (aiden s)) in
  let s := {| aura := aura s;
              aiden := AIDENAgent.with_base (snd td) (aiden s);
              coupling_strength := coupling_strength s;
              synchronization_history := synchronization_history s |} in
  Ok ({| final_sync := sync;
         aura_telemetry := fst ta;
         aiden_telemetry := fst td;
         sync_history := synchronization_history s |}, s).

End AURAIDENSystem.

(* ------------------------------------------------------------------ *)
(** ** A rational libm, to run the model on examples

    The square root rounded down to 15 decimals, and the first terms of
    the series of the exponential and of the logarithm. *)

Definition sqrt_down (x : Qc) : Qc :=
  Q2Qc (Z.sqrt (Qfloor (x * dec 1000000000000000000000000000000 1))
        # 1000000000000000).

Definition exp_series (x : Qc) : Qc :=
  snd (fold_left (fun '(term, acc) k =>
           let term' := term * x / Q2Qc (inject_Z (Z.of_nat (S k))) in
           (term', acc + term'))
         (range 12) (1, 1)).

Definition log_series (x : Qc) : Qc :=
  let z := (x - 1) / (x + 1) in
  dec 2 1 * snd (fold_left (fun '(pow, acc) k =>
                     let pow' := pow * z * z in
                     (pow', acc + pow' / Q2Qc (inject_Z (Z.of_nat (2 * S k + 1)))))
                   (range 8) (z, z)).

Definition rational_libm : Libm :=
  {| fsqrt := sqrt_down; fexp := exp_series; flog := log_series |}.


(* ================================================================== *)
(** * Properties *)

(** ** Specification-side definitions *)

(** The range the constructor enforces on the five clamped fields. *)
Definition in_domain (p : ManifoldPoint) : Prop :=
  (0 <= Lambda p /\ Lambda p <= 1) /\
  (0 <= Phi p /\ Phi p <= 1) /\
  (dec 1 1000 <= Gamma p /\ Gamma p <= 1) /\
  (0 <= epsilon p /\ epsilon p <= 1) /\
  (0 <= psi p /\ psi p <= 1).

(** The invariants of the data model as the specification lists them:
    the ranges of Lambda, epsilon, psi and Gamma, and a non-negative
    tau. *)
Definition spec_invariants (p : ManifoldPoint) : Prop :=
  (0 <= Lambda p /\ Lambda p <= 1) /\
  (0 <= epsilon p /\ epsilon p <= 1) /\
  (0 <= psi p /\ psi p <= 1) /\
  (dec 1 1000 <= Gamma p /\ Gamma p <= 1) /\
  0 <= tau p.

(** The box the integrator clamps into after every RK4 sub-step. *)
Definition in_clamp_box (p : ManifoldPoint) : Prop :=
  (dec 1 1000 <= Lambda p /\ Lambda p <= 1) /\
  (dec 1 1000 <= Phi p /\ Phi p <= 1) /\
  (dec 1 1000 <= Gamma p /\ Gamma p <= 1) /\
  (0 <= epsilon p /\ epsilon p <= 1) /\
  (0 <= psi p /\ psi p <= 1).

(** The velocity of the shot number [k] of the shooting loop (the first
    is number 0), when no earlier shot met the tolerance: each miss adds
    half of the endpoint error to the velocity. *)
Fixpoint shot_velocity (k : nat) (x0 xf v0 : vec) (num_steps : Z) (dt : Qc)
  : res vec :=
  match k with
  | O => Ok v0
  | S k' =>
      let* path := GeodesicSolver._integrate x0 v0 num_steps dt in
      shot_velocity k' x0 xf
        (vadd v0 (vscale (dec 1 2) (vsub xf (GeodesicSolver.endpoint path))))
        num_steps dt
  end.

(** A shot misses when its endpoint error is not below the tolerance. *)
Definition shot_misses (xf : vec) (path : list vec) : Prop :=
  GeodesicSolver.norm_lt (vsub xf (GeodesicSolver.endpoint path)) (dec 1 10000)
    = false.

(** Successive calls of [step], one per pair of random draws: the
    booleans returned, in order, and the agent after the last call. *)
Fixpoint run_steps {L : Libm} (draws : list (Qc * vec)) (a : GeodesicAgent)
  : list bool * GeodesicAgent :=
  match draws with
  | [] => ([], a)
  | (u, noise) :: rest =>
      let r := GeodesicAgent.step u noise a in
      let r' := run_steps rest (snd r) in
      (fst r :: fst r', snd r')
  end.

(** The fraction of the separation by which the coupling moves each
    agent: [coupling_strength * 0.1] with the strength set by
    [__init__]. *)
Definition coupling_fraction : Qc := CHI_PC * dec 1 10.

Definition is_ok {A : Type} (r : res A) : bool :=
  match r with Ok _ => true | Raise _ => false end.

(** Equality tests that compute, to compare the results of concrete
    runs. *)
Definition point_eqb (p q : ManifoldPoint) : bool :=
  Qceqb (Lambda p) (Lambda q) && Qceqb (Phi p) (Phi q) &&
  Qceqb (Gamma p) (Gamma q) && Qceqb (tau p) (tau q) &&
  Qceqb (epsilon p) (epsilon q) && Qceqb (psi p) (psi q).

Fixpoint points_eqb (l l' : list ManifoldPoint) : bool :=
  match l, l' with
  | [], [] => true
  | p :: t, q :: t' => point_eqb p q && points_eqb t t'
  | _, _ => false
  end.

Definition traced_eqb (r : res (list ManifoldPoint * bool))
  (expected : list ManifoldPoint * bool) : bool :=
  match r with
  | Ok (l, b) => points_eqb l (fst expected) && Bool.eqb b (snd expected)
  | Raise _ => false
  end.

(** Boolean equality of vectors, and of the outcome of an RK4 pass. *)
Fixpoint vec_eqb (x y : vec) : bool :=
  match x, y with
  | [], [] => true
  | a :: x', b :: y' => Qceqb a b && vec_eqb x' y'
  | _, _ => false
  end.

Definition step_eqb (r : res (vec * vec)) (expected : vec * vec) : bool :=
  match r with
  | Ok xv => vec_eqb (fst xv) (fst expected) && vec_eqb (snd xv) (snd expected)
  | Raise _ => false
  end.

(* ------------------------------------------------------------------ *)
(** ** Examples and the predicates of the proofs *)

(** A point with a negative proper time. *)
Definition negative_tau_point : ManifoldPoint :=
  from_vector [dec 1 2; dec 1 2; dec 1 10; dec (-1) 1; dec 1 2; dec 1 2].

(** An agent whose decoherence sits on the lower bound of its range. *)
Definition floor_gamma_agent : GeodesicAgent :=
  GeodesicAgent.init
    (Some (new_point (dec 1 2) (dec 1 2) (dec 1 1000) 0 (dec 1 2) (dec 1 2)))
    AIDEN.

(** An agent that [step] heals: Gamma is 0.5. *)
Definition decoherent_agent : GeodesicAgent :=
  GeodesicAgent.init
    (Some (new_point (dec 1 2) (dec 1 2) (dec 1 2) 0 (dec 1 2) (dec 1 2)))
    AIDEN.

(** A vector that left the clamp of the integrator. *)
Definition clamped (x : vec) : Prop := exists y, x = GeodesicSolver.clamp y.

(** Three points with Gamma = 0.1 and tau = epsilon = psi = 0:
    Lambda = Phi = 0, Lambda = Phi = 0.001 and Lambda = Phi = 0.00095. *)
Definition origin_point : ManifoldPoint := new_point 0 0 (dec 1 10) 0 0 0.
Definition lifted_point : ManifoldPoint :=
  new_point (dec 1 1000) (dec 1 1000) (dec 1 10) 0 0 0.
Definition near_point : ManifoldPoint :=
  new_point (dec 95 100000) (dec 95 100000) (dec 1 10) 0 0 0.

(** The agent of the counterexample: Gamma is 0.5, and its target is
    the point it stands on. *)
Definition navigating_decoherent_agent : GeodesicAgent :=
  {| pole := AIDEN; state := NAVIGATING;
     position := position decoherent_agent;
     velocity := repeat 0 6;
     target := Some (position decoherent_agent);
     path := repeat (position decoherent_agent) 51;
     path_index := 0;
     trajectory := [position decoherent_agent];
     generation := 0; fitness := 1; mutation_rate := dec 3 100;
     total_distance := 0; healing_count := 0; evolution_count := 0 |}.

(** A calm agent (Gamma is 0.1) whose target is the point it stands
    on. *)
Definition calm_agent : GeodesicAgent :=
  GeodesicAgent.init (Some lifted_point) AURA.

Definition navigating_calm_agent : GeodesicAgent :=
  {| pole := AURA; state := NAVIGATING;
     position := lifted_point;
     velocity := repeat 0 6;
     target := Some lifted_point;
     path := repeat lifted_point 51;
     path_index := 0;
     trajectory := [lifted_point];
     generation := 0; fitness := 1; mutation_rate := dec 3 100;
     total_distance := 0; healing_count := 0; evolution_count := 0 |}.

(** An [n] by [n] matrix. *)
Definition square (n : nat) (a : mat) : Prop :=
  length a = n /\ forall i, (i < n)%nat -> length (nth i a []) = n.

(** A point of the domain at which the metric is singular: the
    coupling cell [g[0, 1]] is -2.176435 * Lambda * Phi = -1, so rows 0
    and 1 of the Lambda-Phi block are opposite. *)
Definition singular_point : ManifoldPoint :=
  new_point (dec 200000 435287) 1 (dec 1 10) 0 0 (dec 1 2).

(** The computation of [w2_distance] as the specification words it,
    cell by cell: first the pairwise squared-distance cost matrix. *)
Definition cost_matrix (sources targets : list ManifoldPoint) : mat :=
  map (fun s => map (fun t => MetricTensor.distance_squared s t) targets)
      sources.

(** The kernel K = exp(-C / 0.1). *)
Definition gibbs_kernel {L : Libm} (C : mat) : mat :=
  map (map (fun c => fexp (- c / dec 1 10))) C.

(** One alternating scaling: each [u_i] is the source weight over the
    row sum of [K] against [v], then each [v_j] is the target weight
    over the column sum of [K] against the new [u]. *)
Definition sinkhorn_scaling (n m : nat) (K : mat) (a b : vec)
  (uv : vec * vec) : vec * vec :=
  let u := tabulate n (fun i =>
             vget a i / sum_from 0 m (fun j => mget K i j * vget (snd uv) j)) in
  let v := tabulate m (fun j =>
             vget b j / sum_from 0 n (fun i => mget K i j * vget u i)) in
  (u, v).

(** The cell of the transport plan P = diag(u) K diag(v). *)
Definition plan_cell (K : mat) (uv : vec * vec) (i j : nat) : Qc :=
  vget (fst uv) i * mget K i j * vget (snd uv) j.

Definition w2_spec {L : Libm}
  (source_points : list ManifoldPoint) (source_weights : vec)
  (target_points : list ManifoldPoint) (target_weights : vec) : Qc :=
  let n := length source_points in
  let m := length target_points in
  let C := cost_matrix source_points target_points in
  let K := gibbs_kernel C in
  let uv := Nat.iter 100 (sinkhorn_scaling n m K source_weights target_weights)
              (repeat 1 n, repeat 1 m) in
  fsqrt (sum_from 0 n (fun i =>
           sum_from 0 m (fun j => plan_cell K uv i j * mget C i j))).

(** An [n] by [m] matrix. *)
Definition shaped (n m : nat) (a : mat) : Prop :=
  length a = n /\ forall i, (i < n)%nat -> length (nth i a []) = m.

(** An agent that stands on the point where the metric is singular. *)
Definition stranded_agent : GeodesicAgent :=
  GeodesicAgent.init (Some singular_point) AIDEN.

(** The observer as [AURAIDENSystem.__init__] places it. *)
Definition first_observer : GeodesicAgent :=
  aura_base (aura AURAIDENSystem.init).

(** A pair whose two agents stand where the observer starts. *)
Definition twin_system : AURAIDENSystem :=
  {| aura := aura AURAIDENSystem.init;
     aiden := AIDENAgent.init (Some (position first_observer));
     coupling_strength := CHI_PC;
     synchronization_history := [] |}.

(** Draws with which [step] never mutates: the uniform draw is 1. *)
Definition quiet_draws (k : nat) : Qc * vec := (1, repeat 0 6).

(** The key under which the observer files a position in its map. *)
Definition map_key_of (p : ManifoldPoint) : map_key :=
  (round2 (Lambda p), round2 (Phi p), round2 (Gamma p)).

(** The probe of [map_region] at the offsets [dL], [dP], [dG]. *)
Definition probe_at (center : ManifoldPoint) (dL dP dG : Qc) : ManifoldPoint :=
  new_point (Lambda center + dL) (Phi center + dP)
            (Qcmax (dec 1 100) (Gamma center + dG))
            (tau center) (epsilon center) (psi center).
(** What a loop of probes leaves of the observer: [n] more
    observations, and the base as it was but for its position and its
    state. *)
Definition probed (n : nat) (a a' : AURAAgent) : Prop :=
  length (observations a') = (length (observations a) + n)%nat /\
  trajectory (aura_base a') = trajectory (aura_base a) /\
  path (aura_base a') = path (aura_base a) /\
  path_index (aura_base a') = path_index (aura_base a) /\
  target (aura_base a') = target (aura_base a) /\
  total_distance (aura_base a') = total_distance (aura_base a) /\
  generation (aura_base a') = generation (aura_base a) /\
  ((0 < n)%nat -> state (aura_base a') = SENSING) /\
  (n = O -> a' = a).

(** A pair whose observer needs healing: its Gamma is 0.5. *)
Definition unsettled_system : AURAIDENSystem :=
  {| aura := AURAAgent.init
       (Some (new_point (dec 9 10) (dec 9 10) (dec 1 2) 0 (dec 5 10) (dec 9 10)));
     aiden := aiden AURAIDENSystem.init;
     coupling_strength := CHI_PC;
     synchronization_history := [] |}.

(* ------------------------------------------------------------------ *)
(** ** Arithmetic on canonical rationals *)

(** Turns a goal on [Qc] into the same goal on [Q], where [lra]
    applies. *)
Ltac to_Q :=
  unfold Qcdiv, Qcminus in *;
  unfold Qclt, Qcle, Qcplus, Qcmult, Qcopp, Qcinv, dec, Q2Qc in *;
  cbn [this] in *;
  repeat match goal with
         | |- context [Qred ?q] => rewrite (Qred_correct q)
         | H : context [Qred ?q] |- _ => rewrite (Qred_correct q) in H
         end;
  repeat match goal with
         | |- context [Qinv (?n # ?d)] =>
             let v := eval cbv in (Qinv (n # d)) in
             change (Qinv (n # d)) with v
         | H : context [Qinv (?n # ?d)] |- _ =>
             let v := eval cbv in (Qinv (n # d)) in
             change (Qinv (n # d)) with v in H
         end.

Ltac qc_lra := to_Q; lra.

Lemma Qcltb_true (x y : Qc) : Qcltb x y = true <-> x < y.
Proof.
  unfold Qcltb. rewrite Qclt_alt. destruct (x ?= y); split; congruence.
Qed.

Lemma Qcltb_false (x y : Qc) : Qcltb x y = false <-> y <= x.
Proof.
  split; intro H.
  - apply Qcnot_lt_le. intro Hlt. apply Qcltb_true in Hlt. congruence.
  - destruct (Qcltb x y) eqn:E; [|reflexivity].
    apply Qcltb_true in E. exfalso. exact (Qcle_not_lt _ _ H E).
Qed.

Lemma Qceqb_true (x y : Qc) : Qceqb x y = true <-> x = y.
Proof.
  unfold Qceqb. rewrite Qceq_alt. destruct (x ?= y); split; congruence.
Qed.

(** Case analysis on a comparison, with the order fact in context. *)
Ltac case_ltb x y :=
  let E := fresh "E" in
  destruct (Qcltb x y) eqn:E;
  [apply Qcltb_true in E | apply Qcltb_false in E].

Lemma Qcmax_cases (x y : Qc) :
  (x < y /\ Qcmax x y = y) \/ (y <= x /\ Qcmax x y = x).
Proof. unfold Qcmax. case_ltb x y; auto. Qed.

Lemma Qcmin_cases (x y : Qc) :
  (y < x /\ Qcmin x y = y) \/ (x <= y /\ Qcmin x y = x).
Proof. unfold Qcmin. case_ltb y x; auto. Qed.

Lemma clip_cases (x lo hi : Qc) :
  lo <= hi ->
  (x < lo /\ clip x lo hi = lo) \/
  (hi < x /\ clip x lo hi = hi) \/
  (lo <= x /\ x <= hi /\ clip x lo hi = x).
Proof.
  intro H. unfold clip, Qcmin, Qcmax.
  case_ltb x lo.
  - case_ltb hi lo.
    + exfalso. exact (Qclt_not_le _ _ E0 H).
    + auto.
  - case_ltb hi x; auto.
Qed.

Lemma clip_range (x lo hi : Qc) :
  lo <= hi -> lo <= clip x lo hi /\ clip x lo hi <= hi.
Proof.
  intro H.
  destruct (clip_cases x lo hi H) as [[_ ->] | [[_ ->] | (? & ? & ->)]];
    auto using Qcle_refl.
Qed.

Lemma clip_id (x lo hi : Qc) : lo <= x -> x <= hi -> clip x lo hi = x.
Proof.
  intros H1 H2. unfold clip, Qcmin, Qcmax.
  case_ltb x lo.
  - exfalso. exact (Qclt_not_le _ _ E H1).
  - case_ltb hi x; [|reflexivity].
    exfalso. exact (Qclt_not_le _ _ E0 H2).
Qed.

Lemma le_0_1 : 0 <= 1.
Proof. qc_lra. Qed.

Lemma le_milli_1 : dec 1 1000 <= 1.
Proof. qc_lra. Qed.

Lemma in_domain_post_init (p : ManifoldPoint) : in_domain (post_init p).
Proof.
  unfold in_domain, post_init; cbn [Lambda Phi Gamma epsilon psi].
  pose proof (fun x => clip_range x _ _ le_0_1) as H01.
  pose proof (fun x => clip_range x _ _ le_milli_1) as Hm1.
  split; [apply H01|]. split; [apply H01|]. split; [apply Hm1|].
  split; apply H01.
Qed.

Lemma post_init_id (p : ManifoldPoint) : in_domain p -> post_init p = p.
Proof.
  intros ((?&?)&(?&?)&(?&?)&(?&?)&(?&?)).
  destruct p; unfold post_init; cbn in *.
  f_equal; apply clip_id; assumption.
Qed.

Lemma from_to_vector (p : ManifoldPoint) : from_vector (to_vector p) = post_init p.
Proof. destruct p; reflexivity. Qed.

Lemma in_clamp_box_domain (p : ManifoldPoint) : in_clamp_box p -> in_domain p.
Proof.
  unfold in_clamp_box, in_domain.
  intros ((?&?)&(?&?)&(?&?)&(?&?)&(?&?)).
  repeat split; try assumption; qc_lra.
Qed.

(* ------------------------------------------------------------------ *)
(** ** Exceptions of the tensor code *)

Lemma bind_Ok_inv {A B : Type} (c : res A) (k : A -> res B) (b : B) :
  bind c k = Ok b -> exists a, c = Ok a /\ k a = Ok b.
Proof.
  destruct c as [a|e]; intro H; [exists a; split; [reflexivity | exact H]|].
  discriminate H.
Qed.

Lemma bind_Raise_inv {A B : Type} (c : res A) (k : A -> res B) (e : exn) :
  bind c k = Raise e -> c = Raise e \/ exists a, c = Ok a /\ k a = Raise e.
Proof.
  destruct c as [a|e']; intro H.
  - right. exists a. split; [reflexivity | exact H].
  - left. cbn in H. congruence.
Qed.

Lemma gauss_jordan_raises (fuel : nat) :
  forall k done todo e,
    gauss_jordan fuel k done todo = Raise e -> e = LinAlgError.
Proof.
  induction fuel as [|fuel IH]; intros k done todo e H; cbn in H.
  - discriminate.
  - destruct (find_pivot k todo) as [[p others]|].
    + exact (IH _ _ _ _ H).
    + congruence.
Qed.

Lemma inv_raises (a : mat) (e : exn) : inv a = Raise e -> e = LinAlgError.
Proof.
  unfold inv. intro H. apply bind_Raise_inv in H as [H | (rows & _ & H)].
  - exact (gauss_jordan_raises _ _ _ _ _ H).
  - discriminate.
Qed.

Lemma compute_raises (p : ManifoldPoint) (e : exn) :
  ChristoffelSymbols.compute p = Raise e -> e = LinAlgError.
Proof.
  unfold ChristoffelSymbols.compute, MetricTensor.g_inverse. intro H.
  apply bind_Raise_inv in H as [H | (rows & _ & H)].
  - exact (inv_raises _ _ H).
  - discriminate.
Qed.

(** The equations of the tensor computations. *)
Lemma compute_unfold (point : ManifoldPoint) :
  ChristoffelSymbols.compute point =
    bind (MetricTensor.g_inverse point) (fun g_inv =>
    Ok (tabulate 6 (fun sigma =>
        tabulate 6 (fun mu =>
        tabulate 6 (fun nu =>
          sum_from 0 6 (fun rho =>
            dec 1 2 * mget g_inv sigma rho *
            (tget (ChristoffelSymbols.metric_derivatives point) mu nu rho +
             tget (ChristoffelSymbols.metric_derivatives point) nu mu rho -
             tget (ChristoffelSymbols.metric_derivatives point) rho mu nu))))))).
Proof. reflexivity. Qed.

Lemma riemann_tensor_unfold (point : ManifoldPoint) :
  RiemannCurvature.riemann_tensor point =
    bind (ChristoffelSymbols.compute point) (fun gamma =>
    bind (RiemannCurvature.christoffel_derivatives point) (fun dgamma =>
    Ok (tabulate 6 (fun rho =>
        tabulate 6 (fun sigma =>
        tabulate 6 (fun mu =>
        tabulate 6 (fun nu =>
          sum_from (t4get dgamma mu rho nu sigma - t4get dgamma nu rho mu sigma)
            6 (fun lam =>
               tget gamma rho mu lam * tget gamma lam nu sigma -
               tget gamma rho nu lam * tget gamma lam mu sigma)))))))).
Proof. reflexivity. Qed.

Lemma scalar_curvature_unfold (point : ManifoldPoint) :
  RiemannCurvature.scalar_curvature point =
    bind (RiemannCurvature.ricci_tensor point) (fun ricci =>
    bind (MetricTensor.g_inverse point) (fun g_inv =>
    Ok (fold_left (fun R mu =>
          fold_left (fun R nu => R + mget g_inv mu nu * mget ricci mu nu)
            (range 6) R)
          (range 6) 0))).
Proof. reflexivity. Qed.

Lemma curvature_gradient_unfold (point : ManifoldPoint) :
  RiemannCurvature.curvature_gradient point =
    bind (RiemannCurvature.scalar_curvature point) (fun R0 =>
    mapM (fun i =>
      bind (RiemannCurvature.scalar_curvature
              (from_vector (ChristoffelSymbols.bump (to_vector point) i
                              RiemannCurvature._epsilon))) (fun R_plus =>
      Ok ((R_plus - R0) / RiemannCurvature._epsilon)))
      (range 6)).
Proof. reflexivity. Qed.

(** The tensor computations are run by [vm_compute] on concrete points
    and are not unfolded in the proofs below. *)
#[global] Opaque ChristoffelSymbols.compute RiemannCurvature.riemann_tensor
  RiemannCurvature.scalar_curvature RiemannCurvature.curvature_gradient.

(* ------------------------------------------------------------------ *)
(** ** Construction of points *)

(** C10: building a point from six numbers never raises and never
    rejects; Lambda, Phi, epsilon and psi are clamped into [0,1] and
    Gamma into [0.001,1] ([clip] returns the bound that was crossed and
    leaves a value in range alone), while tau is stored unchanged,
    whatever its sign. *)
Theorem C10_constructor_clamps_and_keeps_tau (L P G t e s : Qc) :
  from_vector [L; P; G; t; e; s] = new_point L P G t e s /\
  new_point L P G t e s =
    RawPoint (clip L 0 1) (clip P 0 1) (clip G (dec 1 1000) 1) t
             (clip e 0 1) (clip s 0 1) /\
  in_domain (new_point L P G t e s) /\
  tau (new_point L P G t e s) = t /\
  (forall x lo hi : Qc, lo <= hi ->
     (x < lo -> clip x lo hi = lo) /\
     (hi < x -> clip x lo hi = hi) /\
     (lo <= x -> x <= hi -> clip x lo hi = x)).
Proof.
  split; [reflexivity|]. split; [reflexivity|].
  split; [apply in_domain_post_init|]. split; [reflexivity|].
  intros x lo hi Hle.
  destruct (clip_cases x lo hi Hle) as [[H1 ->] | [[H1 ->] | (H1 & H2 & ->)]];
    repeat split; intros; try reflexivity;
    try (exfalso; qc_lra); apply Qcle_antisym; qc_lra.
Qed.

(** C3, as stated, fails: the constructor accepts a negative tau. *)
Lemma C3_negative_tau_is_kept : ~ spec_invariants negative_tau_point.
Proof.
  intros (_ & _ & _ & _ & H). revert H. apply Qclt_not_le. reflexivity.
Qed.

Lemma in_domain_new_point (L P G t e s : Qc) : in_domain (new_point L P G t e s).
Proof. apply in_domain_post_init. Qed.

Lemma in_domain_from_vector (v : vec) : in_domain (from_vector v).
Proof. apply in_domain_post_init. Qed.

Lemma in_domain_flee_step {L : Libm} (a a' : GeodesicAgent) :
  GeodesicAgent.flee_step a = Ok a' -> in_domain (position a').
Proof.
  unfold GeodesicAgent.flee_step. intro H.
  apply bind_Ok_inv in H as (grad & _ & H).
  injection H as <-. exact (in_domain_from_vector _).
Qed.

Lemma flee_high_curvature_S {L : Libm} (n : nat) (a : GeodesicAgent) :
  GeodesicAgent.flee_high_curvature (S n) a =
    bind (GeodesicAgent.flee_step a) (GeodesicAgent.flee_high_curvature n).
Proof. reflexivity. Qed.

Lemma in_domain_flee {L : Libm} (n : nat) :
  forall a a', GeodesicAgent.flee_high_curvature (S n) a = Ok a' ->
               in_domain (position a').
Proof.
  induction n as [|n IH]; intros a a' H;
    rewrite flee_high_curvature_S in H;
    apply bind_Ok_inv in H as (a1 & E1 & H).
  - injection H as <-. exact (in_domain_flee_step _ _ E1).
  - exact (IH _ _ H).
Qed.

(** C3, amended: every point that the constructor, [from_vector],
    healing, evolution, fleeing or coupling produces has Lambda, Phi,
    epsilon and psi in [0,1] and Gamma in [0.001,1]; tau is stored as it
    is given and carries no constraint. *)
Theorem C3_domain_after_construction_and_mutation :
  (forall L P G t e s : Qc,
     in_domain (new_point L P G t e s) /\ tau (new_point L P G t e s) = t) /\
  (forall v : vec, in_domain (from_vector v) /\ tau (from_vector v) = vget v 3) /\
  (forall a, in_domain (position (GeodesicAgent._heal a))) /\
  (forall noise a, in_domain (position (GeodesicAgent._evolve noise a))) /\
  (forall a, in_domain (position (aura_base (snd (AURAAgent.evolve_step a))))) /\
  (forall a, in_domain (position (aiden_base (snd (AIDENAgent.evolve_step a))))) /\
  (forall (L : Libm) n a a',
     GeodesicAgent.flee_high_curvature (S n) a = Ok a' ->
     in_domain (position a')) /\
  (forall s,
     in_domain (AURAIDENSystem.aura_position (AURAIDENSystem._apply_coupling s)) /\
     in_domain (AURAIDENSystem.aiden_position (AURAIDENSystem._apply_coupling s))).
Proof.
  split; [intros; split; [apply in_domain_new_point | reflexivity]|].
  split; [intros; split; [apply in_domain_from_vector | reflexivity]|].
  split; [intro a; exact (in_domain_new_point _ _ _ _ _ _)|].
  split; [intros noise a; exact (in_domain_from_vector _)|].
  split; [intro a; exact (in_domain_new_point _ _ _ _ _ _)|].
  split; [intro a; exact (in_domain_new_point _ _ _ _ _ _)|].
  split.
  - intros L n a a' H. exact (in_domain_flee n a a' H).
  - intro s. split; exact (in_domain_from_vector _).
Qed.

(* ------------------------------------------------------------------ *)
(** ** Healing *)

(** C5, as stated, fails: healing a point whose Gamma is the positive
    value 0.001 leaves Gamma where it was, because the constructor
    clamps the product back up to 0.001. *)
Lemma C5_healing_at_the_floor :
  0 < Gamma (position floor_gamma_agent) /\
  Gamma (position (GeodesicAgent.force_heal floor_gamma_agent)) =
    Gamma (position floor_gamma_agent) /\
  ~ (Gamma (position (GeodesicAgent.force_heal floor_gamma_agent)) <
       Gamma (position floor_gamma_agent)).
Proof.
  split; [reflexivity|]. split.
  - apply Qc_is_canon. vm_compute. reflexivity.
  - intro H. vm_compute in H. discriminate.
Qed.

Lemma healed_gamma (a : GeodesicAgent) :
  Gamma (position (GeodesicAgent._heal a)) =
    clip (Gamma (position a) * (1 - CHI_PC)) (dec 1 1000) 1.
Proof. reflexivity. Qed.

(** C5, amended: healing strictly lowers Gamma and keeps it positive
    for every point whose Gamma is above the floor 0.001; when healing
    is triggered by [step] (Gamma above 0.3, and at most 1 as for every
    constructed point) the healed Gamma is exactly Gamma * (1 - CHI_PC),
    and [step] does nothing but heal. *)
Theorem C5_healing_lowers_gamma (a : GeodesicAgent)
  (Hfloor : dec 1 1000 < Gamma (position a)) :
  0 < Gamma (position (GeodesicAgent._heal a)) /\
  Gamma (position (GeodesicAgent._heal a)) < Gamma (position a) /\
  (dec 3 10 < Gamma (position a) -> Gamma (position a) <= 1 ->
     Gamma (position (GeodesicAgent._heal a)) =
       Gamma (position a) * (1 - CHI_PC)) /\
  (dec 3 10 < Gamma (position a) ->
     forall (L : Libm) u noise,
       GeodesicAgent.step u noise a = (true, GeodesicAgent._heal a)).
Proof.
  rewrite healed_gamma. unfold CHI_PC.
  set (g := Gamma (position a)) in *.
  destruct (clip_cases (g * (1 - dec 869 1000)) (dec 1 1000) 1 le_milli_1)
    as [[H1 ->] | [[H1 ->] | (H1 & H2 & ->)]].
  - split; [qc_lra|]. split; [qc_lra|]. split.
    + intros. exfalso. qc_lra.
    + intros H3 L u noise. unfold GeodesicAgent.step, needs_healing.
      fold g. apply Qcltb_true in H3. rewrite H3. reflexivity.
  - split; [qc_lra|]. split; [qc_lra|]. split.
    + intros. exfalso. qc_lra.
    + intros H3 L u noise. unfold GeodesicAgent.step, needs_healing.
      fold g. apply Qcltb_true in H3. rewrite H3. reflexivity.
  - split; [qc_lra|]. split; [qc_lra|]. split.
    + reflexivity.
    + intros H3 L u noise. unfold GeodesicAgent.step, needs_healing.
      fold g. apply Qcltb_true in H3. rewrite H3. reflexivity.
Qed.

Lemma C5_healing_lowers_gamma_witness :
  dec 1 1000 < Gamma (position decoherent_agent) /\
  0 < Gamma (position (GeodesicAgent._heal decoherent_agent)) /\
  Gamma (position (GeodesicAgent._heal decoherent_agent)) <
    Gamma (position decoherent_agent).
Proof.
  assert (H : dec 1 1000 < Gamma (position decoherent_agent)) by reflexivity.
  split; [exact H|].
  destruct (C5_healing_lowers_gamma decoherent_agent H) as (H1 & H2 & _).
  split; assumption.
Defined.

(* ------------------------------------------------------------------ *)
(** ** The metric and the distance *)

(** The cells of the metric, written out. *)
Lemma g_cells (m : ManifoldPoint) :
  MetricTensor.g m =
    let c01 := - MetricTensor.lambda_phi_coupling * Lambda m * Phi m in
    let c25 := MetricTensor.gamma_psi_coupling * psi m in
    let c40 := - MetricTensor.epsilon_lambda_coupling * epsilon m in
    let g33 := 1 / (1 + Lambda m) in
    let g22 := 1 + Gamma m * dec 10 1 in
    [ [1;   c01; 0;   0;   c40; 0];
      [c01; 1;   0;   0;   0;   0];
      [0;   0;   g22; 0;   0;   c25];
      [0;   0;   0;   g33; 0;   0];
      [c40; 0;   0;   0;   1;   0];
      [0;   0;   c25; 0;   0;   1] ].
Proof. reflexivity. Qed.

(** [dx @ g @ dx] on the cells of the metric. *)
Lemma quadratic_form (c01 c25 c40 g33 g22 x0 x1 x2 x3 x4 x5 : Qc) :
  dot (vecmat 6 [x0; x1; x2; x3; x4; x5]
         [ [1;   c01; 0;   0;   c40; 0];
           [c01; 1;   0;   0;   0;   0];
           [0;   0;   g22; 0;   0;   c25];
           [0;   0;   0;   g33; 0;   0];
           [c40; 0;   0;   0;   1;   0];
           [0;   0;   c25; 0;   0;   1] ])
      [x0; x1; x2; x3; x4; x5] =
  x0 * x0 + x1 * x1 + g22 * (x2 * x2) + g33 * (x3 * x3) + x4 * x4 + x5 * x5
  + dec 2 1 * c01 * (x0 * x1) + dec 2 1 * c40 * (x0 * x4)
  + dec 2 1 * c25 * (x2 * x5).
Proof.
  cbv [dot vecmat matvec transpose tabulate range seq map map2 fold_left
       vget nth].
  replace (dec 2 1) with (1 + 1) by (apply Qc_is_canon; reflexivity).
  ring.
Qed.

Lemma midpoint_sym (p1 p2 : ManifoldPoint) :
  vadd (to_vector p1) (to_vector p2) = vadd (to_vector p2) (to_vector p1).
Proof.
  destruct p1, p2;
    cbv [to_vector vadd map2 Lambda Phi Gamma tau epsilon psi].
  repeat (apply f_equal2; [apply Qcplus_comm|]). reflexivity.
Qed.

Lemma distance_squared_sym (p1 p2 : ManifoldPoint) :
  MetricTensor.distance_squared p1 p2 = MetricTensor.distance_squared p2 p1.
Proof.
  unfold MetricTensor.distance_squared.
  rewrite (midpoint_sym p2 p1).
  generalize (from_vector (vdiv (vadd (to_vector p1) (to_vector p2)) (dec 2 1))).
  intro m. rewrite g_cells. cbv zeta.
  destruct p1, p2; cbv [to_vector vsub map2].
  rewrite !quadratic_form. ring.
Qed.

Lemma distance_squared_refl (p : ManifoldPoint) :
  MetricTensor.distance_squared p p = 0.
Proof.
  unfold MetricTensor.distance_squared.
  generalize (from_vector (vdiv (vadd (to_vector p) (to_vector p)) (dec 2 1))).
  intro m. rewrite g_cells. cbv zeta.
  destruct p; cbv [to_vector vsub map2].
  rewrite quadratic_form. ring.
Qed.

(** C9: the distance of a point to itself is zero (as soon as the
    square root of zero is zero), the distance is symmetric in its two
    arguments, and it is the square root of the squared distance clamped
    at zero from below. *)
Theorem C9_distance_zero_and_symmetric (L : Libm) (Hsqrt : fsqrt 0 = 0)
  (p p1 p2 : ManifoldPoint) :
  MetricTensor.distance p p = 0 /\
  MetricTensor.distance p1 p2 = MetricTensor.distance p2 p1 /\
  CRSM6D.distance p1 p2 = CRSM6D.distance p2 p1 /\
  MetricTensor.distance p1 p2 =
    fsqrt (Qcmax 0 (MetricTensor.distance_squared p1 p2)).
Proof.
  unfold CRSM6D.distance, MetricTensor.distance.
  rewrite distance_squared_refl, (distance_squared_sym p1 p2).
  repeat split. exact Hsqrt.
Qed.

Lemma C9_distance_zero_and_symmetric_witness :
  @fsqrt rational_libm 0 = 0 /\
  @MetricTensor.distance rational_libm default_point default_point = 0 /\
  @MetricTensor.distance rational_libm default_point negative_tau_point =
    @MetricTensor.distance rational_libm negative_tau_point default_point.
Proof.
  assert (H : @fsqrt rational_libm 0 = 0)
    by (apply Qc_is_canon; vm_compute; reflexivity).
  split; [exact H|].
  destruct (C9_distance_zero_and_symmetric rational_libm H default_point
              default_point negative_tau_point) as (H1 & H2 & _).
  split; assumption.
Defined.

(* ------------------------------------------------------------------ *)
(** ** The geodesic solver *)

Lemma geodesic_acceleration_raises (x v : vec) (e : exn) :
  GeodesicSolver.geodesic_acceleration x v = Raise e -> e = LinAlgError.
Proof.
  unfold GeodesicSolver.geodesic_acceleration. intro H.
  apply bind_Raise_inv in H as [H | (gamma & _ & H)].
  - exact (compute_raises _ _ H).
  - discriminate.
Qed.

Lemma rk4_step_clamped (dt : Qc) (x v : vec) (xv : vec * vec) :
  GeodesicSolver.rk4_step dt x v = Ok xv -> clamped (fst xv).
Proof.
  unfold GeodesicSolver.rk4_step. cbv zeta. intro H.
  apply bind_Ok_inv in H as (k1 & _ & H).
  apply bind_Ok_inv in H as (k2 & _ & H).
  apply bind_Ok_inv in H as (k3 & _ & H).
  apply bind_Ok_inv in H as (k4 & _ & H).
  injection H as <-. eexists. reflexivity.
Qed.

Lemma rk4_step_raises (dt : Qc) (x v : vec) (e : exn) :
  GeodesicSolver.rk4_step dt x v = Raise e -> e = LinAlgError.
Proof.
  unfold GeodesicSolver.rk4_step. cbv zeta. intro H.
  repeat match type of H with
         | bind _ _ = Raise _ =>
             apply bind_Raise_inv in H as [H | (? & _ & H)];
             [exact (geodesic_acceleration_raises _ _ _ H)|]
         end.
  discriminate.
Qed.

Lemma integrate_loop_S (n : nat) (dt : Qc) (x v : vec) :
  GeodesicSolver.integrate_loop (S n) dt x v =
    bind (GeodesicSolver.rk4_step dt x v) (fun xv =>
    bind (GeodesicSolver.integrate_loop n dt (fst xv) (snd xv)) (fun rest =>
    Ok (fst xv :: rest))).
Proof. reflexivity. Qed.

Lemma integrate_loop_spec (n : nat) (dt : Qc) :
  forall x v l,
    GeodesicSolver.integrate_loop n dt x v = Ok l ->
    length l = n /\ Forall clamped l.
Proof.
  induction n as [|n IH]; intros x v l H.
  - injection H as <-. split; [reflexivity | constructor].
  - rewrite integrate_loop_S in H.
    apply bind_Ok_inv in H as (xv & Hstep & H).
    apply bind_Ok_inv in H as (rest & Hrest & H).
    injection H as <-. destruct (IH _ _ _ Hrest) as [Hlen Hall].
    split; [cbn; congruence|].
    constructor; [exact (rk4_step_clamped _ _ _ _ Hstep) | exact Hall].
Qed.

Lemma integrate_loop_raises (n : nat) (dt : Qc) :
  forall x v e,
    GeodesicSolver.integrate_loop n dt x v = Raise e -> e = LinAlgError.
Proof.
  induction n as [|n IH]; intros x v e H.
  - discriminate.
  - rewrite integrate_loop_S in H.
    apply bind_Raise_inv in H as [H | (xv & _ & H)];
      [exact (rk4_step_raises _ _ _ _ H)|].
    apply bind_Raise_inv in H as [H | (rest & _ & H)];
      [exact (IH _ _ _ H) | discriminate].
Qed.

Lemma _integrate_spec (x0 v0 : vec) (num_steps : Z) (dt : Qc) (path : list vec) :
  GeodesicSolver._integrate x0 v0 num_steps dt = Ok path ->
  exists rest, path = x0 :: rest /\ length rest = Z.to_nat num_steps /\
               Forall clamped rest.
Proof.
  unfold GeodesicSolver._integrate. intro H.
  apply bind_Ok_inv in H as (rest & Hrest & H). injection H as <-.
  exists rest. split; [reflexivity|]. exact (integrate_loop_spec _ _ _ _ _ Hrest).
Qed.

Lemma _integrate_raises (x0 v0 : vec) (num_steps : Z) (dt : Qc) (e : exn) :
  GeodesicSolver._integrate x0 v0 num_steps dt = Raise e -> e = LinAlgError.
Proof.
  unfold GeodesicSolver._integrate. intro H.
  apply bind_Raise_inv in H as [H | (rest & _ & H)];
    [exact (integrate_loop_raises _ _ _ _ _ H) | discriminate].
Qed.

Lemma shoot_S (fuel : nat) (x0 xf v0 : vec) (num_steps : Z) (dt : Qc)
  (path : option (list vec)) :
  GeodesicSolver.shoot (S fuel) x0 xf v0 num_steps dt path =
    bind (GeodesicSolver._integrate x0 v0 num_steps dt) (fun path' =>
      if GeodesicSolver.norm_lt (vsub xf (GeodesicSolver.endpoint path'))
           (dec 1 10000)
      then Ok (Some path', true)
      else GeodesicSolver.shoot fuel x0 xf
             (vadd v0 (vscale (dec 1 2) (vsub xf (GeodesicSolver.endpoint path'))))
             num_steps dt (Some path')).
Proof. reflexivity. Qed.

Lemma shot_velocity_S (k : nat) (x0 xf v0 : vec) (num_steps : Z) (dt : Qc) :
  shot_velocity (S k) x0 xf v0 num_steps dt =
    bind (GeodesicSolver._integrate x0 v0 num_steps dt) (fun path =>
      shot_velocity k x0 xf
        (vadd v0 (vscale (dec 1 2) (vsub xf (GeodesicSolver.endpoint path))))
        num_steps dt).
Proof. reflexivity. Qed.

(** What the shooting loop leaves in [path]: the integration of one
    shot, the one that met the tolerance or else the last one. *)
Lemma shoot_spec (x0 xf : vec) (num_steps : Z) (dt : Qc) (fuel : nat) :
  forall v0 p0 path b,
    GeodesicSolver.shoot fuel x0 xf v0 num_steps dt p0 = Ok (Some path, b) ->
    (fuel = O /\ p0 = Some path /\ b = false) \/
    exists k v,
      shot_velocity k x0 xf v0 num_steps dt = Ok v /\
      GeodesicSolver._integrate x0 v num_steps dt = Ok path /\
      ((b = true /\ (k < fuel)%nat /\ ~ shot_misses xf path) \/
       (b = false /\ fuel = S k /\ shot_misses xf path)).
Proof.
  induction fuel as [|fuel IH]; intros v0 p0 path b H.
  - injection H as -> <-. left. auto.
  - right. rewrite shoot_S in H.
    apply bind_Ok_inv in H as (path' & Hint & H).
    destruct (GeodesicSolver.norm_lt _ _) eqn:Hnorm.
    + injection H as <- <-. exists O, v0.
      split; [reflexivity|]. split; [exact Hint|].
      left. split; [reflexivity|]. split; [lia|].
      unfold shot_misses. congruence.
    + destruct (IH _ _ _ _ H) as [(-> & Hp & ->) | (k & v & Hv & Hpath & Hb)].
      * injection Hp as <-. exists O, v0.
        split; [reflexivity|]. split; [exact Hint|].
        right. split; [reflexivity|]. split; [reflexivity | exact Hnorm].
      * exists (S k), v. rewrite shot_velocity_S, Hint. unfold bind.
        split; [exact Hv|]. split; [exact Hpath|].
        destruct Hb as [(-> & Hk & Hm) | (-> & -> & Hm)].
        -- left. split; [reflexivity|]. split; [lia | exact Hm].
        -- right. auto.
Qed.

Lemma shoot_raises (x0 xf : vec) (num_steps : Z) (dt : Qc) (fuel : nat) :
  forall v0 p0 e,
    GeodesicSolver.shoot fuel x0 xf v0 num_steps dt p0 = Raise e ->
    e = LinAlgError.
Proof.
  induction fuel as [|fuel IH]; intros v0 p0 e H.
  - discriminate.
  - rewrite shoot_S in H.
    apply bind_Raise_inv in H as [H | (path' & _ & H)];
      [exact (_integrate_raises _ _ _ _ _ H)|].
    destruct (GeodesicSolver.norm_lt _ _); [discriminate | exact (IH _ _ _ H)].
Qed.

Lemma shoot_some (x0 xf : vec) (num_steps : Z) (dt : Qc) (fuel : nat) :
  forall v0 p0 r,
    GeodesicSolver.shoot (S fuel) x0 xf v0 num_steps dt p0 = Ok r ->
    exists path, fst r = Some path.
Proof.
  induction fuel as [|fuel IH]; intros v0 p0 r H;
    rewrite shoot_S in H;
    apply bind_Ok_inv in H as (path' & _ & H);
    destruct (GeodesicSolver.norm_lt _ _).
  - injection H as <-. eexists; reflexivity.
  - injection H as <-. eexists; reflexivity.
  - injection H as <-. eexists; reflexivity.
  - exact (IH _ _ _ H).
Qed.

Lemma solve_traced_unfold (start end_ : ManifoldPoint) (num_steps max_iterations : Z) :
  GeodesicSolver.solve_traced start end_ num_steps max_iterations =
    bind (GeodesicSolver.step_size num_steps) (fun dt =>
    bind (GeodesicSolver.shoot (Z.to_nat max_iterations) (to_vector start)
            (to_vector end_) (vsub (to_vector end_) (to_vector start))
            num_steps dt None) (fun r =>
    match fst r with
    | None => Raise UnboundLocalError
    | Some path => Ok (map from_vector path, snd r)
    end)).
Proof. reflexivity. Qed.

Lemma solve_unfold (start end_ : ManifoldPoint) (num_steps max_iterations : Z) :
  GeodesicSolver.solve start end_ num_steps max_iterations =
    bind (GeodesicSolver.solve_traced start end_ num_steps max_iterations)
         (fun r => Ok (fst r)).
Proof. reflexivity. Qed.

(** The outcome of [solve_traced], shot by shot. *)
Lemma solve_traced_spec (start end_ : ManifoldPoint)
  (num_steps max_iterations : Z) (pts : list ManifoldPoint) (conv : bool) :
  GeodesicSolver.solve_traced start end_ num_steps max_iterations
    = Ok (pts, conv) ->
  exists dt k v path,
    GeodesicSolver.step_size num_steps = Ok dt /\
    shot_velocity k (to_vector start) (to_vector end_)
      (vsub (to_vector end_) (to_vector start)) num_steps dt = Ok v /\
    GeodesicSolver._integrate (to_vector start) v num_steps dt = Ok path /\
    pts = map from_vector path /\
    ((conv = true /\ (k < Z.to_nat max_iterations)%nat /\
      ~ shot_misses (to_vector end_) path) \/
     (conv = false /\ Z.to_nat max_iterations = S k /\
      shot_misses (to_vector end_) path)).
Proof.
  rewrite solve_traced_unfold. intro H.
  apply bind_Ok_inv in H as (dt & Hdt & H).
  apply bind_Ok_inv in H as ([p b] & Hshoot & H).
  cbn [fst snd] in H. destruct p as [path|]; [|discriminate].
  injection H as <- <-.
  destruct (shoot_spec _ _ _ _ _ _ _ _ _ Hshoot)
    as [(_ & Hp & _) | (k & v & Hv & Hpath & Hb)]; [discriminate|].
  exists dt, k, v, path. auto.
Qed.

Lemma step_size_Ok (num_steps : Z) (dt : Qc) :
  GeodesicSolver.step_size num_steps = Ok dt -> num_steps <> 0%Z.
Proof.
  unfold GeodesicSolver.step_size.
  destruct (Z.eqb_spec num_steps 0); [discriminate | auto].
Qed.

Lemma point_eqb_eq (p q : ManifoldPoint) : point_eqb p q = true -> p = q.
Proof.
  destruct p, q. unfold point_eqb; cbn [Lambda Phi Gamma tau epsilon psi].
  rewrite !andb_true_iff, !Qceqb_true.
  intros (((((-> & ->) & ->) & ->) & ->) & ->). reflexivity.
Qed.

Lemma points_eqb_eq (l : list ManifoldPoint) :
  forall l', points_eqb l l' = true -> l = l'.
Proof.
  induction l as [|p l IH]; intros [|q l'] H; try discriminate; [reflexivity|].
  cbn in H. apply andb_true_iff in H as [Hp Hl].
  f_equal; [exact (point_eqb_eq _ _ Hp) | exact (IH _ Hl)].
Qed.

Lemma traced_eqb_eq (r : res (list ManifoldPoint * bool))
  (expected : list ManifoldPoint * bool) :
  traced_eqb r expected = true -> r = Ok expected.
Proof.
  destruct r as [[l b]|e], expected as [l' b']; cbn; [|discriminate].
  intro H. apply andb_true_iff in H as [Hl Hb].
  apply points_eqb_eq in Hl. apply Bool.eqb_prop in Hb. congruence.
Qed.

(** From the origin point towards itself, one sub-step per shot: the
    clamp lifts Lambda and Phi to 0.001, the endpoint error stays 0.001
    in both, and none of the 50 shots meets the tolerance. *)
Lemma run_origin_to_origin :
  GeodesicSolver.solve_traced origin_point origin_point 1 50 =
    Ok ([origin_point; lifted_point], false).
Proof. apply traced_eqb_eq. vm_cast_no_check (eq_refl true). Qed.

(** From the origin point towards the near point: the first shot ends
    on the lifted point, at 0.00005 of the target in Lambda and in Phi,
    within the tolerance. *)
Lemma run_origin_to_near :
  GeodesicSolver.solve_traced origin_point near_point 1 50 =
    Ok ([origin_point; lifted_point], true).
Proof. apply traced_eqb_eq. vm_cast_no_check (eq_refl true). Qed.

Lemma solve_of_traced (start end_ : ManifoldPoint) (num_steps max_iterations : Z)
  (pts : list ManifoldPoint) (conv : bool) :
  GeodesicSolver.solve_traced start end_ num_steps max_iterations
    = Ok (pts, conv) ->
  GeodesicSolver.solve start end_ num_steps max_iterations = Ok pts.
Proof. intro H. rewrite solve_unfold, H. reflexivity. Qed.

(** C1, as stated, fails: [solve] returns the list of points and
    nothing else.  The run that exhausts its 50 shots without meeting
    the tolerance and the run that converges at its first shot return
    the very same value. *)
Lemma C1_unconverged_and_converged_return_the_same :
  GeodesicSolver.solve_traced origin_point origin_point 1 50 =
    Ok ([origin_point; lifted_point], false) /\
  GeodesicSolver.solve_traced origin_point near_point 1 50 =
    Ok ([origin_point; lifted_point], true) /\
  GeodesicSolver.solve origin_point origin_point 1 50 =
    GeodesicSolver.solve origin_point near_point 1 50.
Proof.
  split; [exact run_origin_to_origin|]. split; [exact run_origin_to_near|].
  rewrite (solve_of_traced _ _ _ _ _ _ run_origin_to_origin).
  rewrite (solve_of_traced _ _ _ _ _ _ run_origin_to_near). reflexivity.
Qed.

(** C1, amended: when [solve] exhausts its budget of [max_iterations]
    shots without the endpoint error norm dropping below 1e-4, it
    returns the path of the last shot, converted to points, and nothing
    else: no flag tells this result from a converged one. *)
Theorem C1_exhausted_budget_returns_last_path
  (start end_ : ManifoldPoint) (num_steps max_iterations : Z)
  (pts : list ManifoldPoint)
  (Hrun : GeodesicSolver.solve_traced start end_ num_steps max_iterations
            = Ok (pts, false)) :
  GeodesicSolver.solve start end_ num_steps max_iterations = Ok pts /\
  exists dt k v path,
    GeodesicSolver.step_size num_steps = Ok dt /\
    Z.to_nat max_iterations = S k /\
    shot_velocity k (to_vector start) (to_vector end_)
      (vsub (to_vector end_) (to_vector start)) num_steps dt = Ok v /\
    GeodesicSolver._integrate (to_vector start) v num_steps dt = Ok path /\
    shot_misses (to_vector end_) path /\
    pts = map from_vector path.
Proof.
  split; [exact (solve_of_traced _ _ _ _ _ _ Hrun)|].
  destruct (solve_traced_spec _ _ _ _ _ _ Hrun)
    as (dt & k & v & path & Hdt & Hv & Hpath & Hpts & Hb).
  destruct Hb as [(Hc & _) | (_ & Hk & Hm)]; [discriminate|].
  exists dt, k, v, path. auto 10.
Qed.

Lemma C1_exhausted_budget_returns_last_path_witness :
  GeodesicSolver.solve_traced origin_point origin_point 1 50 =
    Ok ([origin_point; lifted_point], false) /\
  GeodesicSolver.solve origin_point origin_point 1 50 =
    Ok [origin_point; lifted_point].
Proof.
  split; [exact run_origin_to_origin|].
  exact (proj1 (C1_exhausted_budget_returns_last_path _ _ _ _ _
                  run_origin_to_origin)).
Defined.

(** C4, as stated, fails: the first point of the path is [start]
    itself, which the integrator never clamps, so its Lambda and Phi
    may be below 0.001; and a step count of 0 raises. *)
Lemma C4_first_point_outside_the_clamp_box :
  GeodesicSolver.solve origin_point origin_point 1 50 =
    Ok [origin_point; lifted_point] /\
  ~ Forall in_clamp_box [origin_point; lifted_point] /\
  GeodesicSolver.solve origin_point origin_point 0 50 = Raise ZeroDivisionError.
Proof.
  split; [exact (solve_of_traced _ _ _ _ _ _ run_origin_to_origin)|].
  split; [|reflexivity].
  intro H. inversion H as [|p l ((Hlo & _) & _) _]. subst.
  revert Hlo. apply Qclt_not_le. reflexivity.
Qed.

(** C4, amended: for a start point in its domain, a step count of at
    least 1 and a budget of at least 1 shot, [solve] either raises
    [LinAlgError] (the inversion of the metric failed on the way) or
    returns exactly [steps + 1] points, the first of which is [start].
    This bounds no coordinate: the first point is [start] as it is,
    and the later ones are what [np.clip] makes of the positions of the
    RK4 sub-steps, which with floats need not be numbers. *)
Theorem C4_path_shape_and_first_point
  (start end_ : ManifoldPoint) (num_steps max_iterations : Z)
  (Hstart : in_domain start)
  (Hsteps : (1 <= num_steps)%Z) (Hiter : (1 <= max_iterations)%Z) :
  match GeodesicSolver.solve start end_ num_steps max_iterations
        return Prop with
  | Ok pts =>
      Z.of_nat (length pts) = (num_steps + 1)%Z /\
      nth_error pts 0 = Some start
  | Raise e => e = LinAlgError
  end.
Proof.
  destruct (GeodesicSolver.solve start end_ num_steps max_iterations)
    as [pts|e] eqn:Hsolve; rewrite solve_unfold in Hsolve.
  - apply bind_Ok_inv in Hsolve as ([pts' conv] & Hrun & Hpts).
    injection Hpts as <-.
    destruct (solve_traced_spec _ _ _ _ _ _ Hrun)
      as (dt & k & v & path & _ & _ & Hpath & -> & _).
    destruct (_integrate_spec _ _ _ _ _ Hpath) as (rest & -> & Hlen & _).
    cbn [map length nth_error].
    rewrite from_to_vector, (post_init_id _ Hstart), length_map, Hlen.
    split; [lia | reflexivity].
  - apply bind_Raise_inv in Hsolve as [Hrun | (r & _ & Hr)]; [|discriminate].
    rewrite solve_traced_unfold in Hrun.
    apply bind_Raise_inv in Hrun as [Hdt | (dt & _ & Hrun)].
    + unfold GeodesicSolver.step_size in Hdt.
      destruct (Z.eqb_spec num_steps 0); [lia | discriminate].
    + apply bind_Raise_inv in Hrun as [Hshoot | (r & Hshoot & Hr)];
        [exact (shoot_raises _ _ _ _ _ _ _ _ Hshoot)|].
      destruct (Z.to_nat max_iterations) as [|m] eqn:Hm; [lia|].
      destruct (shoot_some _ _ _ _ _ _ _ _ Hshoot) as [path Hsome].
      rewrite Hsome in Hr. discriminate.
Qed.

Lemma C4_path_shape_and_first_point_witness :
  in_domain origin_point /\
  GeodesicSolver.solve origin_point near_point 1 50 =
    Ok [origin_point; lifted_point] /\
  Z.of_nat (length [origin_point; lifted_point]) = (1 + 1)%Z /\
  nth_error [origin_point; lifted_point] 0 = Some origin_point.
Proof.
  assert (H : in_domain origin_point)
    by exact (in_domain_new_point _ _ _ _ _ _).
  assert (H1 : (1 <= 1)%Z) by lia.
  assert (H50 : (1 <= 50)%Z) by lia.
  pose proof (C4_path_shape_and_first_point origin_point near_point 1 50
                H H1 H50) as Hshape.
  rewrite (solve_of_traced _ _ _ _ _ _ run_origin_to_near) in Hshape.
  split; [exact H|].
  split; [exact (solve_of_traced _ _ _ _ _ _ run_origin_to_near)|].
  exact Hshape.
Defined.

(* ------------------------------------------------------------------ *)
(** ** Navigation: set_target and step *)

Lemma path_exhausted_true (a : GeodesicAgent) :
  GeodesicAgent.path_exhausted a = true <->
  (length (path a) <= path_index a + 1)%nat.
Proof.
  unfold GeodesicAgent.path_exhausted. destruct (path a) as [|p l]; cbn.
  - split; [lia | reflexivity].
  - rewrite Nat.leb_le. lia.
Qed.

Lemma path_exhausted_false (a : GeodesicAgent) :
  GeodesicAgent.path_exhausted a = false <->
  (path_index a + 1 < length (path a))%nat.
Proof.
  rewrite <- Bool.not_true_iff_false, path_exhausted_true. lia.
Qed.

(** A call of [step] on a calm position whose path is exhausted. *)
Lemma step_converged {L : Libm} (u : Qc) (noise : vec) (a : GeodesicAgent) :
  needs_healing (position a) = false ->
  GeodesicAgent.path_exhausted a = true ->
  GeodesicAgent.step u noise a = (false, GeodesicAgent.set_state CONVERGED a).
Proof.
  intros Hcalm Hex. unfold GeodesicAgent.step. rewrite Hcalm, Hex. reflexivity.
Qed.

Lemma run_steps_converged {L : Libm} (draws : list (Qc * vec)) :
  forall a,
    needs_healing (position a) = false ->
    GeodesicAgent.path_exhausted a = true ->
    Forall (eq false) (fst (run_steps draws a)) /\
    position (snd (run_steps draws a)) = position a /\
    path_index (snd (run_steps draws a)) = path_index a /\
    path (snd (run_steps draws a)) = path a /\
    (draws <> [] -> state (snd (run_steps draws a)) = CONVERGED).
Proof.
  induction draws as [|[u noise] rest IH]; intros a Hcalm Hex.
  - cbn. repeat split; [constructor | congruence].
  - cbn [run_steps]. rewrite (step_converged u noise a Hcalm Hex).
    cbn [fst snd].
    destruct (IH (GeodesicAgent.set_state CONVERGED a) Hcalm Hex)
      as (Hall & Hpos & Hidx & Hpath & Hst).
    split; [constructor; [reflexivity | exact Hall]|].
    split; [exact Hpos|]. split; [exact Hidx|]. split; [exact Hpath|].
    intros _. destruct rest as [|d rest'].
    + reflexivity.
    + apply Hst. discriminate.
Qed.

(** With a zero initial velocity the 50 sub-steps stay on the start
    point and the first shot converges. *)
Lemma vec_eqb_eq (x : vec) : forall y, vec_eqb x y = true -> x = y.
Proof.
  induction x as [|a x IH]; intros [|b y] H; try discriminate; [reflexivity|].
  cbn in H. apply andb_true_iff in H as [Ha Hx].
  apply Qceqb_true in Ha. f_equal; [exact Ha | exact (IH _ Hx)].
Qed.

Lemma step_eqb_eq (r : res (vec * vec)) (expected : vec * vec) :
  step_eqb r expected = true -> r = Ok expected.
Proof.
  destruct r as [[x v]|e], expected as [x' v']; cbn; [|discriminate].
  intro H. apply andb_true_iff in H as [Hx Hv].
  apply vec_eqb_eq in Hx. apply vec_eqb_eq in Hv. congruence.
Qed.

(** A state that one RK4 pass leaves where it is stays there for the
    whole integration. *)
Lemma integrate_loop_rest (n : nat) (dt : Qc) (x v : vec) :
  GeodesicSolver.rk4_step dt x v = Ok (x, v) ->
  GeodesicSolver.integrate_loop n dt x v = Ok (repeat x n).
Proof.
  intro H. induction n as [|n IH]; [reflexivity|].
  rewrite integrate_loop_S, H. cbn [bind fst snd]. rewrite IH. reflexivity.
Qed.

Lemma last_repeat {A : Type} (x d : A) (n : nat) : last (x :: repeat x n) d = x.
Proof.
  induction n as [|n IH]; [reflexivity|].
  change (last (x :: repeat x (S n)) d) with (last (x :: repeat x n) d).
  exact IH.
Qed.

Lemma vsub_self (p : ManifoldPoint) :
  vsub (to_vector p) (to_vector p) = repeat 0 6.
Proof.
  assert (E : forall a : Qc, a - a = 0) by (intro a; ring).
  destruct p. unfold vsub, to_vector. cbn. rewrite !E. reflexivity.
Qed.

(** The geodesic from a point to itself: when one RK4 pass with zero
    velocity leaves the point where it is, the first shot converges and
    the path repeats the point. *)
Lemma solve_traced_rest (p : ManifoldPoint) (num_steps max_iterations : Z)
  (dt : Qc) :
  GeodesicSolver.step_size num_steps = Ok dt ->
  GeodesicSolver.rk4_step dt (to_vector p) (repeat 0 6) =
    Ok (to_vector p, repeat 0 6) ->
  in_domain p -> (0 < max_iterations)%Z ->
  GeodesicSolver.solve_traced p p num_steps max_iterations =
    Ok (repeat p (S (Z.to_nat num_steps)), true).
Proof.
  intros Hdt Hstep Hp Hmax.
  rewrite solve_traced_unfold, Hdt. cbn [bind].
  destruct (Z.to_nat max_iterations) as [|fuel] eqn:Hfuel; [lia|].
  rewrite shoot_S, vsub_self.
  unfold GeodesicSolver._integrate.
  rewrite (integrate_loop_rest _ _ _ _ Hstep). cbn [bind].
  unfold GeodesicSolver.endpoint. rewrite last_repeat, vsub_self.
  change (GeodesicSolver.norm_lt (repeat 0 6) (dec 1 10000)) with true.
  cbn [bind fst snd]. rewrite map_cons, map_repeat, from_to_vector.
  rewrite (post_init_id _ Hp). reflexivity.
Qed.

Lemma rest_step_decoherent :
  GeodesicSolver.rk4_step (1 / Q2Qc (inject_Z 50))
    (to_vector (position decoherent_agent)) (repeat 0 6) =
    Ok (to_vector (position decoherent_agent), repeat 0 6).
Proof. apply step_eqb_eq. vm_cast_no_check (eq_refl true). Qed.

Lemma rest_step_lifted :
  GeodesicSolver.rk4_step (1 / Q2Qc (inject_Z 50))
    (to_vector lifted_point) (repeat 0 6) =
    Ok (to_vector lifted_point, repeat 0 6).
Proof. apply step_eqb_eq. vm_cast_no_check (eq_refl true). Qed.

Lemma run_decoherent_to_itself :
  GeodesicSolver.solve_traced (position decoherent_agent)
    (position decoherent_agent) 50 50 =
    Ok (repeat (position decoherent_agent) 51, true).
Proof.
  apply (solve_traced_rest _ 50 50 _ eq_refl rest_step_decoherent).
  - exact (in_domain_new_point _ _ _ _ _ _).
  - reflexivity.
Qed.

Lemma run_lifted_to_itself :
  GeodesicSolver.solve_traced lifted_point lifted_point 50 50 =
    Ok (repeat lifted_point 51, true).
Proof.
  apply (solve_traced_rest _ 50 50 _ eq_refl rest_step_lifted).
  - exact (in_domain_new_point _ _ _ _ _ _).
  - reflexivity.
Qed.

Lemma set_target_decoherent :
  GeodesicAgent.set_target (position decoherent_agent) decoherent_agent =
    Ok navigating_decoherent_agent.
Proof.
  unfold GeodesicAgent.set_target, CRSM6D.find_geodesic.
  rewrite (solve_of_traced _ _ _ _ _ _ run_decoherent_to_itself).
  reflexivity.
Qed.

Lemma set_target_calm :
  GeodesicAgent.set_target lifted_point calm_agent = Ok navigating_calm_agent.
Proof.
  unfold GeodesicAgent.set_target, CRSM6D.find_geodesic.
  change (position calm_agent) with lifted_point.
  rewrite (solve_of_traced _ _ _ _ _ _ run_lifted_to_itself).
  reflexivity.
Qed.

(** C6, as stated, fails: [step] looks at the position before it looks
    at the path.  Right after [set_target], with 50 path points still
    ahead, a call on a position whose Gamma is above 0.3 heals, returns
    true and leaves [path_index] at 0; and with no path at all such a
    call again returns true, and moves the position. *)
Lemma C6_step_heals_before_it_advances :
  GeodesicAgent.set_target (position decoherent_agent) decoherent_agent =
    Ok navigating_decoherent_agent /\
  (path_index navigating_decoherent_agent + 1 <
     length (path navigating_decoherent_agent))%nat /\
  (forall (L : Libm) (u : Qc) (noise : vec),
     fst (GeodesicAgent.step u noise navigating_decoherent_agent) = true /\
     path_index (snd (GeodesicAgent.step u noise navigating_decoherent_agent))
       = path_index navigating_decoherent_agent) /\
  path decoherent_agent = [] /\
  (forall (L : Libm) (u : Qc) (noise : vec),
     fst (GeodesicAgent.step u noise decoherent_agent) = true /\
     position (snd (GeodesicAgent.step u noise decoherent_agent))
       <> position decoherent_agent).
Proof.
  split; [exact set_target_decoherent|].
  split; [cbn; lia|].
  split; [intros; split; reflexivity|].
  split; [reflexivity|].
  intros L u noise. split; [reflexivity|].
  intro H. apply (f_equal Gamma) in H.
  apply (f_equal (fun x => Qceqb x (dec 1 2))) in H.
  vm_compute in H. discriminate.
Qed.

(** C6, amended: [set_target] stores the geodesic and resets
    [path_index] to 0; then every call of [step] made on a position
    that does not need healing advances [path_index] by exactly 1 (and
    returns true) as long as a path point is left; once the path is
    exhausted or absent, every further call sets the state to
    [CONVERGED], returns false and leaves position and [path_index]
    unchanged.  A call made on a position whose Gamma is above 0.3
    heals instead: it returns true and leaves [path_index] alone. *)
Theorem C6_step_advances_then_converges (L : Libm) (a : GeodesicAgent) :
  (forall target a',
     GeodesicAgent.set_target target a = Ok a' ->
     path_index a' = O /\ state a' = NAVIGATING /\
     position a' = position a /\
     CRSM6D.find_geodesic (position a) target 50 = Ok (path a')) /\
  (needs_healing (position a) = false ->
   (path_index a + 1 < length (path a))%nat ->
   forall u noise,
     fst (GeodesicAgent.step u noise a) = true /\
     path_index (snd (GeodesicAgent.step u noise a)) = S (path_index a) /\
     path (snd (GeodesicAgent.step u noise a)) = path a /\
     (Qcltb u (mutation_rate a) = false ->
      position (snd (GeodesicAgent.step u noise a)) =
        nth (S (path_index a)) (path a) default_point)) /\
  (needs_healing (position a) = false ->
   (length (path a) <= path_index a + 1)%nat ->
   forall draws,
     Forall (eq false) (fst (run_steps draws a)) /\
     position (snd (run_steps draws a)) = position a /\
     path_index (snd (run_steps draws a)) = path_index a /\
     (draws <> [] -> state (snd (run_steps draws a)) = CONVERGED)) /\
  (needs_healing (position a) = true ->
   forall u noise,
     GeodesicAgent.step u noise a = (true, GeodesicAgent._heal a) /\
     path_index (GeodesicAgent._heal a) = path_index a).
Proof.
  split; [|split; [|split]].
  - intros tgt a' H. unfold GeodesicAgent.set_target in H.
    apply bind_Ok_inv in H as (pth & Hgeo & H). injection H as <-.
    cbn [path_index state position path]. auto.
  - intros Hcalm Hleft u noise.
    apply path_exhausted_false in Hleft.
    unfold GeodesicAgent.step. rewrite Hcalm, Hleft. cbv zeta.
    cbn [mutation_rate].
    destruct (Qcltb u (mutation_rate a)); cbn [fst snd];
      repeat split; intros; try reflexivity; discriminate.
  - intros Hcalm Hex draws. apply path_exhausted_true in Hex.
    destruct (run_steps_converged draws a Hcalm Hex) as (H1 & H2 & H3 & _ & H4).
    auto.
  - intros Hheal u noise. unfold GeodesicAgent.step. rewrite Hheal.
    split; reflexivity.
Qed.

(** The theorem at work on the calm agent: after [set_target] its first
    [step] moves [path_index] from 0 to 1. *)
Lemma C6_step_advances_then_converges_witness :
  GeodesicAgent.set_target lifted_point calm_agent = Ok navigating_calm_agent /\
  needs_healing (position navigating_calm_agent) = false /\
  (path_index navigating_calm_agent + 1 <
     length (path navigating_calm_agent))%nat /\
  path_index (snd (@GeodesicAgent.step rational_libm 1 (repeat 0 6)
                     navigating_calm_agent)) = 1%nat.
Proof.
  assert (Hcalm : needs_healing (position navigating_calm_agent) = false)
    by reflexivity.
  assert (Hleft : (path_index navigating_calm_agent + 1 <
                     length (path navigating_calm_agent))%nat) by (cbn; lia).
  split; [exact set_target_calm|]. split; [exact Hcalm|].
  split; [exact Hleft|].
  destruct (C6_step_advances_then_converges rational_libm navigating_calm_agent)
    as (_ & Hadv & _).
  exact (proj1 (proj2 (Hadv Hcalm Hleft 1 (repeat 0 6)))).
Defined.

(* ------------------------------------------------------------------ *)
(** ** The coupled pair *)

(** A step of the fraction [coupling_fraction] from [a] towards [b], or
    from [b] towards [a], stays between the two. *)
Lemma coupling_between (lo hi a b : Qc) :
  lo <= a -> a <= hi -> lo <= b -> b <= hi ->
  (lo <= a + coupling_fraction * (b - a) /\
   a + coupling_fraction * (b - a) <= hi) /\
  (lo <= b - coupling_fraction * (b - a) /\
   b - coupling_fraction * (b - a) <= hi).
Proof.
  unfold coupling_fraction, CHI_PC. intros. repeat split; qc_lra.
Qed.

(** On two points of the domain the clamps of [from_vector] leave the
    coupled vectors as they are. *)
Lemma coupling_exact (pa pb : ManifoldPoint) :
  in_domain pa -> in_domain pb ->
  to_vector (from_vector
    (vadd (to_vector pa)
       (vscale coupling_fraction (vsub (to_vector pb) (to_vector pa))))) =
    vadd (to_vector pa)
       (vscale coupling_fraction (vsub (to_vector pb) (to_vector pa))) /\
  to_vector (from_vector
    (vsub (to_vector pb)
       (vscale coupling_fraction (vsub (to_vector pb) (to_vector pa))))) =
    vsub (to_vector pb)
       (vscale coupling_fraction (vsub (to_vector pb) (to_vector pa))).
Proof.
  intros ((HaL0 & HaL1) & (HaP0 & HaP1) & (HaG0 & HaG1) & (Hae0 & Hae1)
          & (Has0 & Has1))
         ((HbL0 & HbL1) & (HbP0 & HbP1) & (HbG0 & HbG1) & (Hbe0 & Hbe1)
          & (Hbs0 & Hbs1)).
  destruct pa as [aL aP aG at_ ae as_], pb as [bL bP bG bt be bs].
  cbn [Lambda Phi Gamma tau epsilon psi] in *.
  destruct (coupling_between _ _ _ _ HaL0 HaL1 HbL0 HbL1) as ((?&?)&(?&?)).
  destruct (coupling_between _ _ _ _ HaP0 HaP1 HbP0 HbP1) as ((?&?)&(?&?)).
  destruct (coupling_between _ _ _ _ HaG0 HaG1 HbG0 HbG1) as ((?&?)&(?&?)).
  destruct (coupling_between _ _ _ _ Hae0 Hae1 Hbe0 Hbe1) as ((?&?)&(?&?)).
  destruct (coupling_between _ _ _ _ Has0 Has1 Hbs0 Hbs1) as ((?&?)&(?&?)).
  cbv [to_vector from_vector new_point post_init vadd vsub vscale map map2
       vget nth Lambda Phi Gamma tau epsilon psi].
  split; repeat (apply f_equal2; [try reflexivity; apply clip_id; assumption|]);
    reflexivity.
Qed.

Lemma respond_in_domain {L : Libm} (observation : CurvatureSense)
  (a a1 : AIDENAgent) :
  (if cs_needs_healing observation then Ok (AIDENAgent.force_heal a)
   else if Qcltb (dec 1 2) (danger_level observation)
        then AIDENAgent.flee_high_curvature 3 a
        else Ok (snd (AIDENAgent.evolve_step a))) = Ok a1 ->
  in_domain (position (aiden_base a1)).
Proof.
  destruct (cs_needs_healing observation).
  - intros [= <-]. exact (in_domain_new_point _ _ _ _ _ _).
  - destruct (Qcltb (dec 1 2) (danger_level observation)).
    + unfold AIDENAgent.flee_high_curvature. intro H.
      apply bind_Ok_inv in H as (b & Hb & H). injection H as <-.
      exact (in_domain_flee 2 _ _ Hb).
    + intros [= <-]. exact (in_domain_new_point _ _ _ _ _ _).
Qed.

Lemma observe_and_respond_spec {L : Libm} (s s1 : AURAIDENSystem) :
  AURAIDENSystem.observe_and_respond s = Ok s1 ->
  in_domain (AURAIDENSystem.aura_position s1) /\
  in_domain (AURAIDENSystem.aiden_position s1) /\
  coupling_strength s1 = coupling_strength s /\
  synchronization_history s1 = synchronization_history s.
Proof.
  unfold AURAIDENSystem.observe_and_respond. intro H.
  apply bind_Ok_inv in H as (r & _ & H).
  apply bind_Ok_inv in H as (aiden1 & Hresp & H).
  injection H as <-.
  split; [exact (in_domain_new_point _ _ _ _ _ _)|].
  split; [exact (respond_in_domain _ _ _ Hresp)|].
  split; reflexivity.
Qed.

(** C7: in [coupled_step] the coupling takes the difference of the two
    positions once, as they stand after AURA has observed, AIDEN has
    responded and AURA has evolved, and moves AURA by that difference
    times the coupling fraction and AIDEN by the opposite amount (the
    clamps of the constructor change nothing there); the step then
    returns exp(-distance) of the two coupled positions, which it also
    appends to the synchronization history. *)
Theorem C7_coupling_is_symmetric_and_sync_is_returned
  (L : Libm) (s s' : AURAIDENSystem) (sync : Qc)
  (Hstrength : coupling_strength s = CHI_PC)
  (Hstep : AURAIDENSystem.coupled_step s = Ok (sync, s')) :
  exists s1,
    AURAIDENSystem.observe_and_respond s = Ok s1 /\
    to_vector (AURAIDENSystem.aura_position s') =
      vadd (to_vector (AURAIDENSystem.aura_position s1))
        (vscale coupling_fraction
           (vsub (to_vector (AURAIDENSystem.aiden_position s1))
                 (to_vector (AURAIDENSystem.aura_position s1)))) /\
    to_vector (AURAIDENSystem.aiden_position s') =
      vsub (to_vector (AURAIDENSystem.aiden_position s1))
        (vscale coupling_fraction
           (vsub (to_vector (AURAIDENSystem.aiden_position s1))
                 (to_vector (AURAIDENSystem.aura_position s1)))) /\
    sync = fexp (- CRSM6D.distance (AURAIDENSystem.aura_position s')
                                   (AURAIDENSystem.aiden_position s')) /\
    synchronization_history s' = synchronization_history s ++ [sync].
Proof.
  unfold AURAIDENSystem.coupled_step in Hstep.
  apply bind_Ok_inv in Hstep as (s1 & Hs1 & Hstep).
  exists s1. split; [exact Hs1|].
  destruct (observe_and_respond_spec _ _ Hs1) as (Ha & Hb & Hk & Hh).
  injection Hstep as <- <-.
  destruct (coupling_exact _ _ Ha Hb) as [Hca Hcb].
  unfold AURAIDENSystem._apply_coupling, AURAIDENSystem.synchronization,
    AURAIDENSystem.aura_position, AURAIDENSystem.aiden_position in *.
  cbn [aura aiden aura_base aiden_base position AURAAgent.with_base
       AIDENAgent.with_base GeodesicAgent.set_position coupling_strength
       synchronization_history fst snd].
  rewrite Hk, Hstrength, Hh. fold coupling_fraction.
  split; [exact Hca|]. split; [exact Hcb|]. split; reflexivity.
Qed.

(** The first coupled step of the system as [__init__] builds it does
    not raise. *)
Lemma first_coupled_step_runs :
  is_ok (@AURAIDENSystem.coupled_step rational_libm AURAIDENSystem.init) = true.
Proof. vm_cast_no_check (eq_refl true). Qed.

Lemma C7_coupling_is_symmetric_and_sync_is_returned_witness :
  exists s1 s' sync,
    @AURAIDENSystem.coupled_step rational_libm AURAIDENSystem.init
      = Ok (sync, s') /\
    @AURAIDENSystem.observe_and_respond rational_libm AURAIDENSystem.init
      = Ok s1 /\
    to_vector (AURAIDENSystem.aura_position s') =
      vadd (to_vector (AURAIDENSystem.aura_position s1))
        (vscale coupling_fraction
           (vsub (to_vector (AURAIDENSystem.aiden_position s1))
                 (to_vector (AURAIDENSystem.aura_position s1)))) /\
    sync = @fexp rational_libm
             (- @CRSM6D.distance rational_libm
                  (AURAIDENSystem.aura_position s')
                  (AURAIDENSystem.aiden_position s')).
Proof.
  pose proof first_coupled_step_runs as Hok.
  destruct (@AURAIDENSystem.coupled_step rational_libm AURAIDENSystem.init)
    as [[sync s']|e] eqn:Hstep; [|discriminate Hok].
  destruct (C7_coupling_is_symmetric_and_sync_is_returned rational_libm
              AURAIDENSystem.init s' sync eq_refl Hstep)
    as (s1 & Hs1 & Ha & _ & Hsync & _).
  exists s1, s', sync.
  split; [reflexivity|]. split; [exact Hs1|]. split; [exact Ha | exact Hsync].
Defined.

(* ------------------------------------------------------------------ *)
(** ** Vectors, sums and products *)

Lemma range_S (n : nat) : range (S n) = range n ++ [n].
Proof. unfold range. rewrite seq_S. reflexivity. Qed.

Lemma length_tabulate {A : Type} (n : nat) (f : nat -> A) :
  length (tabulate n f) = n.
Proof. unfold tabulate, range. rewrite length_map, length_seq. reflexivity. Qed.

Lemma nth_tabulate {A : Type} (n : nat) (f : nat -> A) (i : nat) (d : A) :
  (i < n)%nat -> nth i (tabulate n f) d = f i.
Proof.
  intro H. unfold tabulate, range.
  rewrite (nth_indep _ d (f O)) by (rewrite length_map, length_seq; exact H).
  rewrite map_nth, seq_nth by exact H. reflexivity.
Qed.

Lemma tabulate_ext {A : Type} (n : nat) (f g : nat -> A) :
  (forall i, (i < n)%nat -> f i = g i) -> tabulate n f = tabulate n g.
Proof.
  intro H. unfold tabulate, range. apply map_ext_in.
  intros i Hi. apply in_seq in Hi. apply H. lia.
Qed.

(** Two lists of the same length with the same cells are equal. *)
Lemma list_eq_nth {A : Type} (d : A) (l : list A) :
  forall l', length l = length l' ->
             (forall i, (i < length l)%nat -> nth i l d = nth i l' d) ->
             l = l'.
Proof.
  induction l as [|x l IH]; intros [|y l'] Hlen Hnth; try discriminate.
  - reflexivity.
  - f_equal.
    + exact (Hnth O (Nat.lt_0_succ _)).
    + apply IH; [cbn in Hlen; lia|].
      intros i Hi. apply (Hnth (S i)). cbn. lia.
Qed.

Lemma length_map2 {A B C : Type} (f : A -> B -> C) (l : list A) :
  forall l', length l = length l' -> length (map2 f l l') = length l.
Proof.
  induction l as [|a l IH]; intros [|b l'] H; try discriminate; cbn.
  - reflexivity.
  - rewrite IH by (cbn in H; lia). reflexivity.
Qed.

Lemma nth_map2 {A B C : Type} (f : A -> B -> C) (da : A) (db : B) (dc : C)
  (l : list A) :
  forall l' i, length l = length l' -> (i < length l)%nat ->
               nth i (map2 f l l') dc = f (nth i l da) (nth i l' db).
Proof.
  induction l as [|a l IH]; intros [|b l'] i Hlen Hi; try discriminate;
    cbn in Hi; [lia|].
  destruct i as [|i]; cbn; [reflexivity|].
  apply IH; [cbn in Hlen; lia | lia].
Qed.

(** The running sum of [sum_from], one term at a time. *)
Lemma sum_from_S (acc : Qc) (n : nat) (f : nat -> Qc) :
  sum_from acc (S n) f = sum_from acc n f + f n.
Proof. unfold sum_from. rewrite range_S, fold_left_app. reflexivity. Qed.

Lemma sum_from_ext (acc : Qc) (n : nat) (f g : nat -> Qc) :
  (forall i, (i < n)%nat -> f i = g i) -> sum_from acc n f = sum_from acc n g.
Proof.
  induction n as [|n IH]; intro H; [reflexivity|].
  rewrite !sum_from_S, IH, (H n) by (intros; try apply H; lia). reflexivity.
Qed.

Lemma sum_from_acc (acc : Qc) (n : nat) (f : nat -> Qc) :
  sum_from acc n f = acc + sum_from 0 n f.
Proof.
  induction n as [|n IH]; [cbn; ring|].
  rewrite !sum_from_S, IH. ring.
Qed.

Lemma sum_from_scale (c : Qc) (n : nat) (f : nat -> Qc) :
  sum_from 0 n (fun i => c * f i) = c * sum_from 0 n f.
Proof.
  induction n as [|n IH]; [cbn; ring|].
  rewrite !sum_from_S, IH. ring.
Qed.

Lemma sum_from_zero (n : nat) (f : nat -> Qc) :
  (forall i, (i < n)%nat -> f i = 0) -> sum_from 0 n f = 0.
Proof.
  induction n as [|n IH]; intro H; [reflexivity|].
  rewrite sum_from_S, IH, (H n) by (intros; try apply H; lia). ring.
Qed.

(** A sum whose only non-zero term is the one of index [i]. *)
Lemma sum_from_single (n i : nat) (x : Qc) (f : nat -> Qc) :
  (i < n)%nat ->
  (forall j, (j < n)%nat -> f j = if Nat.eqb j i then x else 0) ->
  sum_from 0 n f = x.
Proof.
  revert f. induction n as [|n IH]; intros f Hi Hf; [lia|].
  rewrite sum_from_S, (Hf n) by lia.
  destruct (Nat.eqb_spec n i) as [->|Hne].
  - rewrite sum_from_zero; [ring|].
    intros j Hj. rewrite Hf by lia.
    destruct (Nat.eqb_spec j i); [lia | reflexivity].
  - rewrite (IH f) by (try lia; intros; apply Hf; lia). ring.
Qed.

(** The sum of a list, as [np.sum] and [dot] accumulate it. *)
Lemma fold_plus_acc (l : vec) (acc : Qc) :
  fold_left Qcplus l acc = acc + fold_left Qcplus l 0.
Proof.
  revert acc. induction l as [|x l IH]; intro acc; cbn; [ring|].
  rewrite (IH (acc + x)), (IH (0 + x)). ring.
Qed.

Lemma fold_plus_sum_from (l : vec) :
  fold_left Qcplus l 0 = sum_from 0 (length l) (fun i => vget l i).
Proof.
  induction l as [|x l IH] using rev_ind; [reflexivity|].
  rewrite fold_left_app, length_app, Nat.add_comm. cbn [length Nat.add fold_left].
  rewrite sum_from_S, IH. unfold vget.
  rewrite app_nth2, Nat.sub_diag by lia. cbn [nth]. f_equal.
  apply sum_from_ext. intros i Hi. rewrite app_nth1 by exact Hi. reflexivity.
Qed.

Lemma dot_sum_from (u : vec) :
  forall v, length u = length v ->
            dot u v = sum_from 0 (length u) (fun i => vget u i * vget v i).
Proof.
  intros v Hlen. unfold dot. rewrite fold_plus_sum_from, length_map2 by exact Hlen.
  apply sum_from_ext. intros i Hi. unfold vget.
  apply (nth_map2 Qcmult 0 0 0); assumption.
Qed.

Lemma vget_map2 (f : Qc -> Qc -> Qc) (u v : vec) (i : nat) :
  f 0 0 = 0 -> length u = length v ->
  vget (map2 f u v) i = f (vget u i) (vget v i).
Proof.
  intros Hf Hlen. unfold vget.
  destruct (Nat.lt_ge_cases i (length u)) as [Hi|Hi].
  - apply (nth_map2 f 0 0 0); assumption.
  - rewrite !nth_overflow, Hf; try lia; [reflexivity|].
    rewrite length_map2; assumption.
Qed.

Lemma vget_vscale (c : Qc) (v : vec) (i : nat) :
  vget (vscale c v) i = c * vget v i.
Proof.
  unfold vget, vscale.
  replace 0 with (c * 0) at 1 by ring. apply map_nth.
Qed.

(* ------------------------------------------------------------------ *)
(** ** Matrices and the inversion of the metric *)

Lemma vecmat_tabulate (c : nat) (v : vec) (m : mat) :
  vecmat c v m = tabulate c (fun j => dot (map (fun row => vget row j) m) v).
Proof.
  unfold vecmat, matvec, transpose, tabulate. rewrite map_map. reflexivity.
Qed.

Lemma length_column (j : nat) (a : mat) :
  length (map (fun row : vec => vget row j) a) = length a.
Proof. apply length_map. Qed.

Lemma vget_column (i j : nat) (a : mat) :
  vget (map (fun row : vec => vget row j) a) i = vget (nth i a []) j.
Proof.
  assert (H0 : vget [] j = 0) by (destruct j; reflexivity).
  unfold vget at 1. rewrite <- H0.
  exact (map_nth (fun row : vec => vget row j) a [] i).
Qed.

Lemma length_vecmat (n : nat) (r : vec) (a : mat) : length (vecmat n r a) = n.
Proof. rewrite vecmat_tabulate. apply length_tabulate. Qed.

Lemma nth_map_in {A B : Type} (f : A -> B) (l : list A) (i : nat)
  (da : A) (db : B) :
  (i < length l)%nat -> nth i (map f l) db = f (nth i l da).
Proof.
  intro H. rewrite (nth_indep _ db (f da)) by (rewrite length_map; exact H).
  apply map_nth.
Qed.

Lemma vget_tabulate (n : nat) (f : nat -> Qc) (i : nat) :
  (i < n)%nat -> vget (tabulate n f) i = f i.
Proof. apply nth_tabulate. Qed.

Lemma g_square (p : ManifoldPoint) : square 6 (MetricTensor.g p).
Proof.
  rewrite g_cells. cbv zeta. split; [reflexivity|].
  intros i Hi. do 6 (destruct i as [|i]; [reflexivity|]). lia.
Qed.

(** C2, as stated, fails: at a point of the domain where the metric is
    singular, [g_inverse] raises [LinAlgError]; there is no fallback. *)
Lemma C2_g_inverse_raises_at_a_singular_metric :
  in_domain singular_point /\
  MetricTensor.g_inverse singular_point = Raise LinAlgError.
Proof.
  split; [exact (in_domain_new_point _ _ _ _ _ _)|].
  vm_compute. reflexivity.
Qed.

(* ------------------------------------------------------------------ *)
(** ** Sinkhorn transport *)

Lemma repeat_loop_iter {S : Type} (k : nat) (body : S -> S) :
  forall s, WassersteinTransport.repeat_loop k body s = Nat.iter k body s.
Proof.
  induction k as [|k IH]; intro s; [reflexivity|].
  cbn [WassersteinTransport.repeat_loop]. rewrite IH, Nat.iter_succ_r.
  reflexivity.
Qed.

Lemma shaped_cost (sources targets : list ManifoldPoint) :
  shaped (length sources) (length targets) (cost_matrix sources targets).
Proof.
  unfold shaped, cost_matrix. split; [apply length_map|].
  intros i Hi. rewrite (nth_map_in _ sources i default_point) by exact Hi.
  apply length_map.
Qed.

Lemma shaped_kernel {L : Libm} (n m : nat) (C : mat) :
  shaped n m C -> shaped n m (gibbs_kernel C).
Proof.
  intros [Hlen Hrows]. unfold shaped, gibbs_kernel.
  split; [rewrite length_map; exact Hlen|].
  intros i Hi. rewrite (nth_map_in _ C i []) by (rewrite Hlen; exact Hi).
  rewrite length_map. exact (Hrows i Hi).
Qed.

Lemma vget_vecmat (c : nat) (r : vec) (b : mat) (j : nat) :
  (j < c)%nat ->
  vget (vecmat c r b) j = dot (map (fun row => vget row j) b) r.
Proof. intro H. rewrite vecmat_tabulate. apply vget_tabulate. exact H. Qed.

(** One pass of the loop is one alternating scaling. *)
Lemma sinkhorn_pass_scaling (n m : nat) (K : mat) (a b : vec) (uv : vec * vec) :
  shaped n m K -> length a = n -> length b = m -> length (snd uv) = m ->
  WassersteinTransport.sinkhorn_pass m K a b uv = sinkhorn_scaling n m K a b uv /\
  length (snd (sinkhorn_scaling n m K a b uv)) = m.
Proof.
  intros [HK Hrows] Ha Hb Hv.
  unfold WassersteinTransport.sinkhorn_pass, sinkhorn_scaling. cbv zeta.
  cbn [snd]. rewrite length_tabulate. split; [|reflexivity].
  assert (Hu : map2 Qcdiv a (matvec K (snd uv)) =
               tabulate n (fun i =>
                 vget a i / sum_from 0 m (fun j => mget K i j * vget (snd uv) j))).
  { assert (Hlen : length a = length (matvec K (snd uv)))
      by (unfold matvec; rewrite length_map; congruence).
    apply (list_eq_nth 0).
    - rewrite length_map2, length_tabulate by exact Hlen. exact Ha.
    - intros i Hi. rewrite length_map2, Ha in Hi by exact Hlen.
      rewrite (nth_map2 Qcdiv 0 0 0) by (try exact Hlen; rewrite Ha; exact Hi).
      rewrite nth_tabulate by exact Hi. unfold vget at 1. f_equal.
      unfold matvec. rewrite (nth_map_in _ K i []) by (rewrite HK; exact Hi).
      rewrite dot_sum_from, (Hrows i Hi) by (rewrite (Hrows i Hi); congruence).
      reflexivity. }
  rewrite Hu. f_equal.
  set (u := tabulate n _).
  assert (Hlenu : length u = n) by apply length_tabulate.
  assert (Hlen : length b = length (matvec (transpose m K) u))
    by (unfold matvec, transpose; rewrite length_map, length_tabulate; exact Hb).
  apply (list_eq_nth 0).
  - rewrite length_map2, length_tabulate by exact Hlen. exact Hb.
  - intros j Hj. rewrite length_map2, Hb in Hj by exact Hlen.
    rewrite (nth_map2 Qcdiv 0 0 0) by (try exact Hlen; rewrite Hb; exact Hj).
    rewrite nth_tabulate by exact Hj. unfold vget at 1. f_equal.
    change (nth j (matvec (transpose m K) u) 0) with (vget (vecmat m u K) j).
    rewrite vget_vecmat by exact Hj.
    rewrite dot_sum_from, length_map, HK by (rewrite length_map; congruence).
    apply sum_from_ext. intros i Hi. rewrite vget_column. reflexivity.
Qed.

Lemma sinkhorn_iterates (n m : nat) (K : mat) (a b : vec) (k : nat) :
  shaped n m K -> length a = n -> length b = m ->
  forall uv, length (snd uv) = m ->
    Nat.iter k (WassersteinTransport.sinkhorn_pass m K a b) uv =
      Nat.iter k (sinkhorn_scaling n m K a b) uv /\
    length (snd (Nat.iter k (sinkhorn_scaling n m K a b) uv)) = m.
Proof.
  intros HK Ha Hb uv Hv.
  induction k as [|k [IH Hlen]]; [split; [reflexivity | exact Hv]|].
  rewrite !Nat.iter_succ, IH.
  exact (sinkhorn_pass_scaling n m K a b _ HK Ha Hb Hlen).
Qed.

Lemma length_iterates_fst (n m : nat) (K : mat) (a b : vec) (k : nat)
  (uv : vec * vec) :
  length (fst uv) = n ->
  length (fst (Nat.iter k (sinkhorn_scaling n m K a b) uv)) = n.
Proof.
  intro H. destruct k as [|k]; [exact H|].
  rewrite Nat.iter_succ. unfold sinkhorn_scaling at 1. cbn [fst].
  apply length_tabulate.
Qed.

(** The cells of [diag(u) @ K @ diag(v)]. *)
Lemma plan_cells (n m : nat) (K : mat) (u v : vec) (i j : nat) :
  shaped n m K -> length u = n -> length v = m ->
  (i < n)%nat -> (j < m)%nat ->
  mget (matmul m (matmul m (WassersteinTransport.diag u) K)
                 (WassersteinTransport.diag v)) i j =
    plan_cell K (u, v) i j.
Proof.
  intros [HK Hrows] Hu Hv Hi Hj.
  assert (Hdu : length (WassersteinTransport.diag u) = n)
    by (unfold WassersteinTransport.diag; rewrite length_tabulate; exact Hu).
  assert (Hdv : length (WassersteinTransport.diag v) = m)
    by (unfold WassersteinTransport.diag; rewrite length_tabulate; exact Hv).
  unfold mget, matmul.
  rewrite (nth_map_in _ _ i []) by (rewrite length_map, Hdu; exact Hi).
  rewrite (nth_map_in _ _ i []) by (rewrite Hdu; exact Hi).
  rewrite vget_vecmat by exact Hj.
  rewrite dot_sum_from by (rewrite length_map, length_vecmat; exact Hdv).
  rewrite length_map, Hdv.
  rewrite (sum_from_single m j (vget v j * (mget K i j * vget u i))).
  - unfold plan_cell. cbn [fst snd]. ring.
  - exact Hj.
  - intros l Hl. rewrite vget_column.
    unfold WassersteinTransport.diag at 1. rewrite Hv.
    rewrite (nth_tabulate m _ l []) by exact Hl.
    rewrite vget_tabulate by exact Hj.
    rewrite vget_vecmat by exact Hl.
    destruct (Nat.eqb_spec l j) as [->|Hne]; [|ring]. f_equal.
    unfold WassersteinTransport.diag. rewrite Hu.
    rewrite (nth_tabulate n _ i []) by exact Hi.
    rewrite dot_sum_from by (rewrite length_map, length_tabulate; exact HK).
    rewrite length_map, HK.
    apply (sum_from_single n i); [exact Hi|].
    intros k Hk. rewrite vget_column, vget_tabulate by exact Hk.
    rewrite (Nat.eqb_sym i k).
    destruct (Nat.eqb_spec k i) as [->|_]; [reflexivity | ring].
Qed.

Lemma msum_cells (n m : nat) (a : mat) :
  shaped n m a ->
  WassersteinTransport.msum a =
    sum_from 0 n (fun i => sum_from 0 m (fun j => mget a i j)).
Proof.
  intros [Hlen Hrows]. unfold WassersteinTransport.msum.
  rewrite fold_plus_sum_from, length_map, Hlen.
  apply sum_from_ext. intros i Hi. unfold vget at 1.
  rewrite (nth_map_in _ a i []) by (rewrite Hlen; exact Hi).
  rewrite fold_plus_sum_from, (Hrows i Hi). reflexivity.
Qed.

Lemma shaped_matmul (n c : nat) (a b : mat) :
  length a = n -> shaped n c (matmul c a b).
Proof.
  intro Ha. unfold shaped, matmul. split; [rewrite length_map; exact Ha|].
  intros i Hi. rewrite (nth_map_in _ a i []) by (rewrite Ha; exact Hi).
  apply length_vecmat.
Qed.

Lemma shaped_hadamard (n m : nat) (a b : mat) :
  shaped n m a -> shaped n m b ->
  shaped n m (WassersteinTransport.mhadamard a b) /\
  forall i j, (i < n)%nat -> (j < m)%nat ->
    mget (WassersteinTransport.mhadamard a b) i j = mget a i j * mget b i j.
Proof.
  intros [Ha Harows] [Hb Hbrows]. unfold WassersteinTransport.mhadamard.
  assert (Hab : length a = length b) by congruence.
  assert (Hrow : forall i, (i < n)%nat ->
            nth i (map2 (map2 Qcmult) a b) [] =
              map2 Qcmult (nth i a []) (nth i b [])).
  { intros i Hi. apply (nth_map2 (map2 Qcmult) [] [] []);
      [exact Hab | rewrite Ha; exact Hi]. }
  split; [split|].
  - rewrite length_map2 by exact Hab. exact Ha.
  - intros i Hi. rewrite (Hrow i Hi), length_map2; [exact (Harows i Hi)|].
    rewrite (Harows i Hi), (Hbrows i Hi). reflexivity.
  - intros i j Hi Hj. unfold mget. rewrite (Hrow i Hi).
    apply vget_map2; [ring|]. rewrite (Harows i Hi), (Hbrows i Hi). reflexivity.
Qed.

(** C8: [w2_distance] builds the matrix of the squared distances, runs
    exactly 100 Sinkhorn passes from all-ones scalings with the kernel
    exp(-C / 0.1), whatever the data (there is no convergence test),
    and returns the square root of the sum over all the cells of
    P[i,j] * C[i,j] with P[i,j] = u[i] * K[i,j] * v[j]. *)
Theorem C8_w2_distance_is_fixed_sinkhorn (L : Libm)
  (source_points : list ManifoldPoint) (source_weights : vec)
  (target_points : list ManifoldPoint) (target_weights : vec)
  (Hsources : length source_weights = length source_points)
  (Htargets : length target_weights = length target_points) :
  WassersteinTransport.w2_distance source_points source_weights
    target_points target_weights =
  w2_spec source_points source_weights target_points target_weights.
Proof.
  unfold WassersteinTransport.w2_distance, w2_spec. cbv zeta.
  fold (cost_matrix source_points target_points).
  set (n := length source_points) in *. set (m := length target_points) in *.
  set (C := cost_matrix source_points target_points).
  fold (gibbs_kernel C). set (K := gibbs_kernel C).
  assert (HC : shaped n m C) by apply shaped_cost.
  assert (HK : shaped n m K) by exact (shaped_kernel n m C HC).
  rewrite repeat_loop_iter.
  destruct (sinkhorn_iterates n m K source_weights target_weights 100 HK
              Hsources Htargets (repeat 1 n, repeat 1 m) (repeat_length _ _))
    as [-> Hlenv].
  pose proof (length_iterates_fst n m K source_weights target_weights 100
                (repeat 1 n, repeat 1 m) (repeat_length _ _)) as Hlenu.
  set (uv := Nat.iter 100 _ _) in *.
  f_equal.
  assert (HP : shaped n m
                 (matmul m (matmul m (WassersteinTransport.diag (fst uv)) K)
                    (WassersteinTransport.diag (snd uv)))).
  { apply shaped_matmul. unfold matmul at 1. rewrite length_map.
    unfold WassersteinTransport.diag.
    rewrite length_tabulate. exact Hlenu. }
  destruct (shaped_hadamard n m _ _ HP HC) as [Hshape Hcells].
  rewrite (msum_cells n m _ Hshape).
  apply sum_from_ext. intros i Hi. apply sum_from_ext. intros j Hj.
  rewrite (Hcells i j Hi Hj),
    (plan_cells n m K (fst uv) (snd uv) i j HK Hlenu Hlenv Hi Hj).
  destruct uv. reflexivity.
Qed.

Lemma C8_w2_distance_is_fixed_sinkhorn_witness :
  @WassersteinTransport.w2_distance rational_libm
    [origin_point; lifted_point] [dec 1 2; dec 1 2] [near_point] [1] =
  @w2_spec rational_libm
    [origin_point; lifted_point] [dec 1 2; dec 1 2] [near_point] [1].
Proof.
  exact (C8_w2_distance_is_fixed_sinkhorn rational_libm
           [origin_point; lifted_point] [dec 1 2; dec 1 2] [near_point] [1]
           eq_refl eq_refl).
Defined.

(* ================================================================== *)
(** * Further properties of the code *)

(* ------------------------------------------------------------------ *)
(** ** Points: efficiency, coherence and the vector round trip *)

Lemma Qc_eq_Qeq (a b : Qc) : a = b -> (a == b)%Q.
Proof. intros ->. reflexivity. Qed.

(** The inverse of a positive number, as the two facts that
    arithmetic needs of it. *)
Lemma Qcinv_pos (x : Qc) : 0 < x -> 0 < / x /\ x * / x = 1.
Proof.
  intro H. split.
  - unfold Qclt in *. change (this (/ x)) with (Qred (/ this x)).
    rewrite Qred_correct. apply Qinv_lt_0_compat. exact H.
  - apply Qcmult_inv_r. intro E. rewrite E in H.
    exact (Qclt_not_le _ _ H (Qcle_refl 0)).
Qed.

(** Nonlinear arithmetic on [Qc], through [Q]. *)
Ltac qc_nra := to_Q; nra.

Lemma xi_bounds (p : ManifoldPoint) :
  in_domain p ->
  0 <= xi p /\ xi p <= dec 1000 1 /\ xi p * Gamma p = Lambda p * Phi p /\
  (PHI_THRESHOLD <= xi p -> Gamma p <= dec 3 10).
Proof.
  intros ((HL0 & HL1) & (HP0 & HP1) & (HG0 & HG1) & _).
  destruct p as [L P G t e s]; unfold xi, PHI_THRESHOLD;
    cbn [Lambda Phi Gamma] in *.
  assert (HG : 0 < G) by qc_lra.
  destruct (Qcinv_pos G HG) as [Hi HGi].
  unfold Qcdiv. revert Hi HGi. generalize (/ G). intros i Hi HGi.
  apply Qc_eq_Qeq in HGi.
  assert (HLP0 : 0 <= L * P) by qc_nra.
  assert (HLP1 : L * P <= 1) by qc_nra.
  assert (Hi1 : i <= dec 1000 1) by qc_nra.
  revert HLP0 HLP1. generalize (L * P). intros x HLP0 HLP1.
  split; [qc_nra|]. split; [qc_nra|]. split.
  - apply Qc_is_canon. qc_nra.
  - intro HT. assert (Hi7 : dec 76901 10000 <= i) by qc_nra. qc_nra.
Qed.

(** X1: on a point in its domain the efficiency xi = Lambda * Phi /
    Gamma is a true quotient (Gamma is never zero) between 0 and 1000,
    and a coherent point (xi >= 7.6901) never needs healing: its Gamma
    is at most 0.3. *)
Theorem coherent_points_need_no_healing (p : ManifoldPoint)
  (Hp : in_domain p) :
  0 <= xi p /\ xi p <= dec 1000 1 /\
  xi p * Gamma p = Lambda p * Phi p /\
  (is_coherent p = true -> needs_healing p = false) /\
  (needs_healing p = true -> is_coherent p = false).
Proof.
  destruct (xi_bounds p Hp) as (H0 & H1 & Hq & HT).
  assert (Hc : is_coherent p = true -> needs_healing p = false).
  { unfold is_coherent, needs_healing, Qcleb. intro H.
    apply negb_true_iff, Qcltb_false in H.
    apply Qcltb_false. exact (HT H). }
  repeat split; try assumption.
  intro Hh. destruct (is_coherent p); [|reflexivity].
  rewrite (Hc eq_refl) in Hh. discriminate Hh.
Qed.

Lemma coherent_points_need_no_healing_witness :
  in_domain default_point /\
  0 <= xi default_point /\ xi default_point <= dec 1000 1 /\
  xi default_point * Gamma default_point =
    Lambda default_point * Phi default_point /\
  (is_coherent default_point = true -> needs_healing default_point = false) /\
  (needs_healing default_point = true -> is_coherent default_point = false).
Proof.
  assert (H : in_domain default_point)
    by exact (in_domain_new_point _ _ _ _ _ _).
  split; [exact H|].
  exact (coherent_points_need_no_healing default_point H).
Defined.

(** X2: [to_vector] and [from_vector] are inverse of each other on
    constructed points: the vector of a point has six entries and
    building a point from it gives the point back, so constructing
    twice clamps once. *)
Theorem vector_round_trip (L P G t e s : Qc) :
  length (to_vector (new_point L P G t e s)) = 6%nat /\
  from_vector (to_vector (new_point L P G t e s)) = new_point L P G t e s /\
  to_vector (from_vector (to_vector (new_point L P G t e s))) =
    to_vector (new_point L P G t e s).
Proof.
  assert (H : from_vector (to_vector (new_point L P G t e s)) =
              new_point L P G t e s).
  { rewrite from_to_vector. apply post_init_id, in_domain_new_point. }
  split; [reflexivity|]. split; [exact H|]. rewrite H. reflexivity.
Qed.

(* ------------------------------------------------------------------ *)
(** ** The metric *)

(** X3: the metric is a symmetric 6 by 6 matrix at every point. *)
Theorem metric_is_symmetric (point : ManifoldPoint) :
  square 6 (MetricTensor.g point) /\
  transpose 6 (MetricTensor.g point) = MetricTensor.g point /\
  forall mu nu : nat,
    mget (MetricTensor.g point) mu nu = mget (MetricTensor.g point) nu mu.
Proof.
  split; [apply g_square|].
  rewrite g_cells. cbv zeta. split; [reflexivity|].
  intros mu nu.
  destruct mu as [|[|[|[|[|[|mu]]]]]];
    destruct nu as [|[|[|[|[|[|nu]]]]]]; try reflexivity;
    unfold mget, vget; cbn [nth];
    try (destruct mu; reflexivity); try (destruct nu; reflexivity).
  destruct mu, nu; reflexivity.
Qed.

(** Two points that differ by the same shift of Lambda and of Phi. *)
Lemma diagonal_shift_squared (a b G t e s : Qc) :
  0 <= a -> a <= 1 -> 0 <= b -> b <= 1 ->
  MetricTensor.distance_squared (new_point a a G t e s) (new_point b b G t e s) =
    dec 2 1 * ((b - a) * (b - a)) *
    (1 - MetricTensor.lambda_phi_coupling *
           (((a + b) / dec 2 1) * ((a + b) / dec 2 1))).
Proof.
  intros Ha0 Ha1 Hb0 Hb1.
  unfold MetricTensor.distance_squared, new_point, post_init, to_vector.
  cbn [Lambda Phi Gamma tau epsilon psi].
  rewrite (clip_id a 0 1 Ha0 Ha1), (clip_id b 0 1 Hb0 Hb1).
  generalize (clip G (dec 1 1000) 1) (clip e 0 1) (clip s 0 1).
  intros G' e' s'.
  rewrite g_cells. cbv zeta. cbv [vsub map2].
  rewrite quadratic_form.
  unfold from_vector, new_point, post_init, vdiv, vadd.
  cbn [map2 map vget nth Lambda Phi Gamma tau epsilon psi].
  assert (Hm0 : 0 <= (a + b) / dec 2 1) by qc_lra.
  assert (Hm1 : (a + b) / dec 2 1 <= 1) by qc_lra.
  rewrite (clip_id _ 0 1 Hm0 Hm1).
  generalize ((a + b) / dec 2 1). intro m.
  replace (dec 2 1) with (1 + 1) by (apply Qc_is_canon; reflexivity).
  ring.
Qed.

(** X4: the distance does not separate points.  Two distinct points
    that differ by the same shift of Lambda and of Phi, around a mean
    of at least 0.7, have a negative squared distance, which [distance]
    clamps: their distance is the square root of 0. *)
Theorem distance_does_not_separate_points (L : Libm) (a b G t e s : Qc)
  (Ha : 0 <= a /\ a <= 1) (Hb : 0 <= b /\ b <= 1)
  (Hab : a <> b) (Hmean : dec 14 10 <= a + b) :
  new_point a a G t e s <> new_point b b G t e s /\
  MetricTensor.distance_squared (new_point a a G t e s)
                                (new_point b b G t e s) < 0 /\
  MetricTensor.distance (new_point a a G t e s) (new_point b b G t e s)
    = fsqrt 0.
Proof.
  destruct Ha as [Ha0 Ha1], Hb as [Hb0 Hb1].
  assert (Hneg : MetricTensor.distance_squared (new_point a a G t e s)
                   (new_point b b G t e s) < 0).
  { rewrite (diagonal_shift_squared a b G t e s Ha0 Ha1 Hb0 Hb1).
    unfold MetricTensor.lambda_phi_coupling, LAMBDA_PHI.
    assert (Hd : 0 < (b - a) * (b - a)).
    { assert (Hd0 : b - a <> 0).
      { intro E. apply Hab. symmetry.
        replace b with ((b - a) + a) by ring. rewrite E. ring. }
      destruct (Qclt_le_dec 0 (b - a)) as [Hp | Hn].
      - revert Hp. generalize (b - a). intros d Hp. qc_nra.
      - assert (Hlt : b - a < 0).
        { destruct (Qcle_lt_or_eq _ _ Hn) as [Hlt | Heq];
            [exact Hlt | contradiction]. }
        revert Hlt. generalize (b - a). intros d Hlt. qc_nra. }
    revert Hd. generalize ((b - a) * (b - a)). intros D HD.
    assert (Hm : dec 7 10 <= (a + b) / dec 2 1) by qc_lra.
    revert Hm. generalize ((a + b) / dec 2 1). intros m Hm.
    assert (Hmm : dec 49 100 <= m * m) by qc_nra.
    revert Hmm. generalize (m * m). intros M HM. qc_nra. }
  split; [|split; [exact Hneg|]].
  - intro E. apply (f_equal Lambda) in E.
    unfold new_point, post_init in E. cbn [Lambda] in E.
    rewrite (clip_id a 0 1 Ha0 Ha1), (clip_id b 0 1 Hb0 Hb1) in E.
    exact (Hab E).
  - unfold MetricTensor.distance. cbv zeta. unfold Qcmax.
    replace (Qcltb 0 (MetricTensor.distance_squared (new_point a a G t e s)
                        (new_point b b G t e s))) with false; [reflexivity|].
    symmetry. apply Qcltb_false. apply Qclt_le_weak. exact Hneg.
Qed.

Lemma distance_does_not_separate_points_witness :
  (0 <= dec 8 10 /\ dec 8 10 <= 1) /\ (0 <= 1 /\ 1 <= 1) /\
  dec 8 10 <> 1 /\ dec 14 10 <= dec 8 10 + 1 /\
  new_point (dec 8 10) (dec 8 10) (dec 1 10) 0 0 0 <>
    new_point 1 1 (dec 1 10) 0 0 0 /\
  MetricTensor.distance_squared
    (new_point (dec 8 10) (dec 8 10) (dec 1 10) 0 0 0)
    (new_point 1 1 (dec 1 10) 0 0 0) < 0 /\
  @MetricTensor.distance rational_libm
    (new_point (dec 8 10) (dec 8 10) (dec 1 10) 0 0 0)
    (new_point 1 1 (dec 1 10) 0 0 0) = @fsqrt rational_libm 0.
Proof.
  assert (Ha : 0 <= dec 8 10 /\ dec 8 10 <= 1) by (split; discriminate).
  assert (Hb : 0 <= 1 /\ 1 <= (1 : Qc)) by (split; discriminate).
  assert (Hab : dec 8 10 <> 1) by discriminate.
  assert (Hmean : dec 14 10 <= dec 8 10 + 1) by discriminate.
  split; [exact Ha|]. split; [exact Hb|]. split; [exact Hab|].
  split; [exact Hmean|].
  exact (distance_does_not_separate_points rational_libm
           (dec 8 10) 1 (dec 1 10) 0 0 0 Ha Hb Hab Hmean).
Defined.

(* ------------------------------------------------------------------ *)
(** ** Connection and curvature *)

Lemma nth_tabulate_default {A : Type} (n : nat) (f : nat -> A) (i : nat) (d : A) :
  nth i (tabulate n f) d = if (i <? n)%nat then f i else d.
Proof.
  destruct (Nat.ltb_spec i n) as [H | H].
  - apply nth_tabulate. exact H.
  - apply nth_overflow. rewrite length_tabulate. exact H.
Qed.

Lemma nth_nil_nil {A : Type} (i : nat) : nth i (@nil (list A)) [] = [].
Proof. destruct i; reflexivity. Qed.

Lemma vget_nil (i : nat) : vget [] i = 0.
Proof. destruct i; reflexivity. Qed.

Lemma tget_tabulate (n : nat) (f : nat -> nat -> nat -> Qc) (i j k : nat) :
  tget (tabulate n (fun i => tabulate n (fun j => tabulate n (f i j)))) i j k =
    if ((i <? n) && (j <? n) && (k <? n))%nat then f i j k else 0.
Proof.
  unfold tget, mget, vget. rewrite (nth_tabulate_default n _ i).
  destruct (i <? n)%nat; cbn [andb].
  - rewrite (nth_tabulate_default n _ j). destruct (j <? n)%nat; cbn [andb].
    + apply nth_tabulate_default.
    + apply vget_nil.
  - rewrite nth_nil_nil. apply vget_nil.
Qed.

Lemma t4get_tabulate (n : nat) (f : nat -> nat -> nat -> nat -> Qc)
  (i j k l : nat) :
  t4get (tabulate n (fun i => tabulate n (fun j => tabulate n (fun k =>
           tabulate n (f i j k))))) i j k l =
    if ((i <? n) && (j <? n) && (k <? n) && (l <? n))%nat
    then f i j k l else 0.
Proof.
  unfold t4get. rewrite (nth_tabulate_default n _ i).
  destruct (i <? n)%nat; cbn [andb].
  - apply tget_tabulate.
  - unfold tget, mget. rewrite !nth_nil_nil. apply vget_nil.
Qed.

(** The difference quotient of two metrics is symmetric, as they
    are. *)
Lemma metric_difference_sym (p q : ManifoldPoint) (c : Qc) (mu nu : nat) :
  mget (mdiv (msub (MetricTensor.g p) (MetricTensor.g q)) c) mu nu =
  mget (mdiv (msub (MetricTensor.g p) (MetricTensor.g q)) c) nu mu.
Proof.
  rewrite !g_cells. cbv zeta. cbv [msub mdiv map2 map vsub vdiv].
  destruct mu as [|[|[|[|[|[|mu]]]]]];
    destruct nu as [|[|[|[|[|[|nu]]]]]]; try reflexivity;
    unfold mget, vget; cbn [nth];
    try (destruct mu; reflexivity); try (destruct nu; reflexivity).
  destruct mu, nu; reflexivity.
Qed.

Lemma metric_derivatives_sym (point : ManifoldPoint) (rho mu nu : nat) :
  tget (ChristoffelSymbols.metric_derivatives point) rho mu nu =
  tget (ChristoffelSymbols.metric_derivatives point) rho nu mu.
Proof.
  unfold ChristoffelSymbols.metric_derivatives, tget. cbv zeta.
  rewrite (nth_tabulate_default 6 _ rho).
  destruct (rho <? 6)%nat.
  - apply metric_difference_sym.
  - unfold mget. rewrite !nth_nil_nil, !vget_nil. reflexivity.
Qed.

Lemma compute_runs_at_default :
  is_ok (ChristoffelSymbols.compute default_point) = true.
Proof. vm_cast_no_check (eq_refl true). Qed.

(** X5: the Christoffel symbols that [compute] returns are symmetric
    in their two lower indices. *)
Theorem christoffel_symbols_are_symmetric (point : ManifoldPoint)
  (gamma : tensor3) (Hgamma : ChristoffelSymbols.compute point = Ok gamma)
  (sigma mu nu : nat) :
  tget gamma sigma mu nu = tget gamma sigma nu mu.
Proof.
  rewrite compute_unfold in Hgamma.
  apply bind_Ok_inv in Hgamma as (g_inv & _ & Hgamma).
  injection Hgamma as <-.
  rewrite !tget_tabulate.
  rewrite <- !andb_assoc, (andb_comm (mu <? 6)%nat (nu <? 6)%nat).
  destruct ((sigma <? 6)%nat && ((nu <? 6)%nat && (mu <? 6)%nat));
    [|reflexivity].
  apply sum_from_ext. intros rho _.
  rewrite (metric_derivatives_sym point rho mu nu). ring.
Qed.

Lemma christoffel_symbols_are_symmetric_witness :
  exists gamma,
    ChristoffelSymbols.compute default_point = Ok gamma /\
    forall sigma mu nu, tget gamma sigma mu nu = tget gamma sigma nu mu.
Proof.
  pose proof compute_runs_at_default as Hok.
  destruct (ChristoffelSymbols.compute default_point) as [gamma|e] eqn:E;
    [|discriminate Hok].
  exists gamma. split; [reflexivity|].
  exact (christoffel_symbols_are_symmetric default_point gamma E).
Defined.

Lemma sum_from_opp (acc : Qc) (n : nat) (f : nat -> Qc) :
  sum_from (- acc) n (fun i => - f i) = - sum_from acc n f.
Proof.
  induction n as [|n IH]; [reflexivity|].
  rewrite !sum_from_S, IH. ring.
Qed.

Lemma riemann_runs_at_default :
  is_ok (RiemannCurvature.riemann_tensor default_point) = true.
Proof. vm_cast_no_check (eq_refl true). Qed.

(** X6: the Riemann tensor that [riemann_tensor] returns is
    antisymmetric in its last two indices. *)
Theorem riemann_tensor_is_antisymmetric (point : ManifoldPoint)
  (R : tensor4) (HR : RiemannCurvature.riemann_tensor point = Ok R)
  (rho sigma mu nu : nat) :
  t4get R rho sigma mu nu = - t4get R rho sigma nu mu.
Proof.
  rewrite riemann_tensor_unfold in HR.
  apply bind_Ok_inv in HR as (gamma & _ & HR).
  apply bind_Ok_inv in HR as (dgamma & _ & HR).
  injection HR as <-.
  rewrite !t4get_tabulate.
  rewrite <- !andb_assoc, (andb_comm (mu <? 6)%nat (nu <? 6)%nat).
  destruct ((rho <? 6)%nat && ((sigma <? 6)%nat && ((nu <? 6)%nat && (mu <? 6)%nat)));
    [|reflexivity].
  rewrite <- sum_from_opp.
  replace (- (t4get dgamma nu rho mu sigma - t4get dgamma mu rho nu sigma))
    with (t4get dgamma mu rho nu sigma - t4get dgamma nu rho mu sigma) by ring.
  apply sum_from_ext. intros lam _. ring.
Qed.

Lemma riemann_tensor_is_antisymmetric_witness :
  exists R,
    RiemannCurvature.riemann_tensor default_point = Ok R /\
    forall rho sigma mu nu,
      t4get R rho sigma mu nu = - t4get R rho sigma nu mu.
Proof.
  pose proof riemann_runs_at_default as Hok.
  destruct (RiemannCurvature.riemann_tensor default_point) as [R|e] eqn:E;
    [|discriminate Hok].
  exists R. split; [reflexivity|].
  exact (riemann_tensor_is_antisymmetric default_point R E).
Defined.

(* ------------------------------------------------------------------ *)
(** ** The geodesic equation *)

Lemma fold_left_ext_in {A B : Type} (f g : A -> B -> A) (l : list B) :
  (forall a b, In b l -> f a b = g a b) ->
  forall a, fold_left f l a = fold_left g l a.
Proof.
  induction l as [|b l IH]; intros H a; [reflexivity|].
  cbn [fold_left]. rewrite (H a b (or_introl eq_refl)).
  apply IH. intros a' b' Hb. apply H. right. exact Hb.
Qed.

Lemma fold_minus_sum_from (n : nat) (f : nat -> Qc) (acc : Qc) :
  fold_left (fun a i => a - f i) (range n) acc = acc - sum_from 0 n f.
Proof.
  induction n as [|n IH].
  - cbn. ring.
  - rewrite range_S, fold_left_app, IH, sum_from_S. cbn [fold_left]. ring.
Qed.

(** The double loop of [geodesic_acceleration], as a double sum. *)
Lemma acceleration_cell (gamma : tensor3) (velocity : vec) (mu : nat) :
  fold_left (fun acc nu =>
    fold_left (fun acc sigma =>
      acc - tget gamma mu nu sigma * vget velocity nu * vget velocity sigma)
      (range 6) acc)
    (range 6) 0 =
  - sum_from 0 6 (fun nu => sum_from 0 6 (fun sigma =>
      tget gamma mu nu sigma * vget velocity nu * vget velocity sigma)).
Proof.
  rewrite (fold_left_ext_in _
             (fun acc nu => acc - sum_from 0 6 (fun sigma =>
                tget gamma mu nu sigma * vget velocity nu * vget velocity sigma))).
  - rewrite fold_minus_sum_from. ring.
  - intros a nu _. apply fold_minus_sum_from.
Qed.

Lemma geodesic_acceleration_cells (position velocity : vec) :
  GeodesicSolver.geodesic_acceleration position velocity =
    bind (ChristoffelSymbols.compute (from_vector position)) (fun gamma =>
    Ok (tabulate 6 (fun mu =>
      - sum_from 0 6 (fun nu => sum_from 0 6 (fun sigma =>
          tget gamma mu nu sigma * vget velocity nu * vget velocity sigma))))).
Proof.
  unfold GeodesicSolver.geodesic_acceleration. cbv zeta.
  destruct (ChristoffelSymbols.compute (from_vector position)) as [gamma|e];
    [|reflexivity].
  cbn [bind]. f_equal. apply tabulate_ext. intros mu _.
  apply acceleration_cell.
Qed.

(** X7: the geodesic acceleration is a quadratic form of the velocity:
    scaling the velocity by [c] scales the acceleration by [c * c] (so
    reversing the velocity leaves the acceleration as it is), and the
    call raises for the scaled velocity when it raises for the
    velocity. *)
Theorem acceleration_is_quadratic_in_velocity (position velocity : vec)
  (c : Qc) :
  GeodesicSolver.geodesic_acceleration position (vscale c velocity) =
    bind (GeodesicSolver.geodesic_acceleration position velocity)
         (fun a => Ok (vscale (c * c) a)).
Proof.
  rewrite !geodesic_acceleration_cells.
  destruct (ChristoffelSymbols.compute (from_vector position)) as [gamma|e];
    [|reflexivity].
  cbn [bind]. f_equal. unfold vscale at 3, tabulate. rewrite map_map.
  apply map_ext. intro mu.
  match goal with
  | |- - ?s1 = _ * - ?s2 =>
      assert (E : s1 = c * c * s2); [|rewrite E; ring]
  end.
  rewrite <- sum_from_scale. apply sum_from_ext. intros nu _.
  rewrite <- sum_from_scale. apply sum_from_ext. intros sigma _.
  rewrite !vget_vscale. ring.
Qed.

Lemma vget_zeros (n i : nat) : vget (repeat 0 n) i = 0.
Proof. unfold vget. apply nth_repeat. Qed.

(** With a zero velocity the acceleration is zero. *)
Lemma acceleration_at_rest (position : vec) (gamma : tensor3) :
  ChristoffelSymbols.compute (from_vector position) = Ok gamma ->
  GeodesicSolver.geodesic_acceleration position (repeat 0 6) =
    Ok (repeat 0 6).
Proof.
  intro H. rewrite geodesic_acceleration_cells, H. cbn [bind]. f_equal.
  change (repeat 0 6) with (tabulate 6 (fun _ : nat => (0 : Qc))) at 3.
  apply tabulate_ext. intros mu _.
  rewrite sum_from_zero; [ring|]. intros nu _.
  apply sum_from_zero. intros sigma _.
  rewrite !vget_zeros. ring.
Qed.

Lemma vadd_zeros (x0 x1 x2 x3 x4 x5 c : Qc) :
  vadd [x0; x1; x2; x3; x4; x5] (vscale c (repeat 0 6)) =
    [x0; x1; x2; x3; x4; x5].
Proof.
  cbv [vadd vscale map2 map repeat].
  repeat (apply f_equal2; [ring|]). reflexivity.
Qed.

Lemma vadd_zeros_plain (x0 x1 x2 x3 x4 x5 : Qc) :
  vadd [x0; x1; x2; x3; x4; x5] (repeat 0 6) = [x0; x1; x2; x3; x4; x5].
Proof.
  cbv [vadd map2 repeat].
  repeat (apply f_equal2; [ring|]). reflexivity.
Qed.

(** One RK4 pass from a point of the clamp box, at rest. *)
Lemma rk4_step_at_rest (dt : Qc) (p : ManifoldPoint) (gamma : tensor3) :
  in_clamp_box p ->
  ChristoffelSymbols.compute p = Ok gamma ->
  GeodesicSolver.rk4_step dt (to_vector p) (repeat 0 6) =
    Ok (to_vector p, repeat 0 6).
Proof.
  intros Hbox Hgamma.
  assert (Hp : from_vector (to_vector p) = p).
  { rewrite from_to_vector. apply post_init_id, in_clamp_box_domain, Hbox. }
  assert (Hacc : GeodesicSolver.geodesic_acceleration (to_vector p)
                   (repeat 0 6) = Ok (repeat 0 6)).
  { apply (acceleration_at_rest _ gamma). rewrite Hp. exact Hgamma. }
  assert (Hz : forall c, vadd (repeat 0 6) (vscale c (repeat 0 6)) = repeat 0 6)
    by (intro c; exact (vadd_zeros 0 0 0 0 0 0 c)).
  assert (Hx : forall c, vadd (to_vector p) (vscale c (repeat 0 6)) = to_vector p)
    by (intro c; destruct p as [pL pP pG pt pe ps]; apply vadd_zeros).
  unfold GeodesicSolver.rk4_step. cbv zeta.
  rewrite Hacc. cbn [bind]. rewrite !Hz, !Hx, Hacc. cbn [bind].
  rewrite !Hz, !Hx, Hacc. cbn [bind]. rewrite !Hz, !Hx, Hacc. cbn [bind].
  rewrite (vadd_zeros_plain 0 0 0 0 0 0 : vadd (repeat 0 6) (repeat 0 6) = repeat 0 6).
  rewrite Hz. f_equal. f_equal.
  destruct Hbox as ((?&?)&(?&?)&(?&?)&(?&?)&(?&?)).
  destruct p as [pL pP pG pt pe ps];
    unfold GeodesicSolver.clamp, to_vector, vget;
    cbn [nth Lambda Phi Gamma tau epsilon psi] in *.
  rewrite !clip_id by assumption. reflexivity.
Qed.

Lemma compute_of_inverse (point : ManifoldPoint) :
  match MetricTensor.g_inverse point with
  | Ok _ => exists gamma, ChristoffelSymbols.compute point = Ok gamma
  | Raise e => ChristoffelSymbols.compute point = Raise e
  end.
Proof.
  rewrite compute_unfold.
  destruct (MetricTensor.g_inverse point) as [g_inv|e]; cbn [bind];
    [eexists|]; reflexivity.
Qed.

Lemma integrate_loop_raises_at_once (n : nat) (dt : Qc) (x v : vec) (e : exn) :
  GeodesicSolver.rk4_step dt x v = Raise e ->
  GeodesicSolver.integrate_loop (S n) dt x v = Raise e.
Proof. intro H. rewrite integrate_loop_S, H. reflexivity. Qed.

Lemma g_inverse_raises (point : ManifoldPoint) (e : exn) :
  MetricTensor.g_inverse point = Raise e -> e = LinAlgError.
Proof. exact (inv_raises _ e). Qed.

Lemma step_size_of_positive (num_steps : Z) :
  (1 <= num_steps)%Z ->
  GeodesicSolver.step_size num_steps = Ok (1 / Q2Qc (inject_Z num_steps)).
Proof.
  intro H. unfold GeodesicSolver.step_size.
  destruct (Z.eqb_spec num_steps 0); [lia | reflexivity].
Qed.

Lemma solve_at_rest (p : ManifoldPoint) (num_steps max_iterations : Z)
  (gamma : tensor3) :
  in_clamp_box p -> (1 <= num_steps)%Z -> (1 <= max_iterations)%Z ->
  ChristoffelSymbols.compute p = Ok gamma ->
  GeodesicSolver.solve_traced p p num_steps max_iterations =
    Ok (repeat p (S (Z.to_nat num_steps)), true).
Proof.
  intros Hbox Hsteps Hiter Hgamma.
  apply (solve_traced_rest p num_steps max_iterations _
           (step_size_of_positive _ Hsteps)).
  - exact (rk4_step_at_rest _ p gamma Hbox Hgamma).
  - exact (in_clamp_box_domain p Hbox).
  - lia.
Qed.

Lemma solve_at_a_singular_start (p end_ : ManifoldPoint)
  (num_steps max_iterations : Z) :
  in_domain p -> (1 <= num_steps)%Z -> (1 <= max_iterations)%Z ->
  ChristoffelSymbols.compute p = Raise LinAlgError ->
  GeodesicSolver.solve p end_ num_steps max_iterations = Raise LinAlgError.
Proof.
  intros Hdom Hsteps Hiter Hc.
  assert (Hp : from_vector (to_vector p) = p).
  { rewrite from_to_vector. apply post_init_id, Hdom. }
  assert (Hacc : forall v, GeodesicSolver.geodesic_acceleration
                             (to_vector p) v = Raise LinAlgError).
  { intro v. rewrite geodesic_acceleration_cells, Hp, Hc. reflexivity. }
  assert (Hstep : forall dt v, GeodesicSolver.rk4_step dt (to_vector p) v =
                               Raise LinAlgError).
  { intros dt v. unfold GeodesicSolver.rk4_step. cbv zeta.
    rewrite Hacc. reflexivity. }
  rewrite solve_unfold, solve_traced_unfold, (step_size_of_positive _ Hsteps).
  cbn [bind].
  destruct (Z.to_nat max_iterations) as [|fuel] eqn:Hfuel; [lia|].
  rewrite shoot_S. unfold GeodesicSolver._integrate.
  destruct (Z.to_nat num_steps) as [|n] eqn:Hn; [lia|].
  rewrite (integrate_loop_raises_at_once _ _ _ _ _ (Hstep _ _)).
  reflexivity.
Qed.

(** X8: the geodesic from a point of the clamp box to itself.  Where
    the metric can be inverted the first shot converges and [solve]
    returns the constant path of [num_steps + 1] copies of the point;
    where the metric is singular [solve] raises [LinAlgError]. *)
Theorem solve_from_a_point_to_itself (p : ManifoldPoint)
  (num_steps max_iterations : Z)
  (Hbox : in_clamp_box p)
  (Hsteps : (1 <= num_steps)%Z) (Hiter : (1 <= max_iterations)%Z) :
  match MetricTensor.g_inverse p return Prop with
  | Ok _ =>
      GeodesicSolver.solve p p num_steps max_iterations =
        Ok (repeat p (S (Z.to_nat num_steps))) /\
      GeodesicSolver.solve_traced p p num_steps max_iterations =
        Ok (repeat p (S (Z.to_nat num_steps)), true)
  | Raise _ =>
      GeodesicSolver.solve p p num_steps max_iterations = Raise LinAlgError
  end.
Proof.
  pose proof (compute_of_inverse p) as Hc.
  pose proof (g_inverse_raises p) as He.
  destruct (MetricTensor.g_inverse p) as [g_inv|e].
  - destruct Hc as [gamma Hgamma].
    pose proof (solve_at_rest p num_steps max_iterations gamma
                  Hbox Hsteps Hiter Hgamma) as Ht.
    split; [exact (solve_of_traced _ _ _ _ _ _ Ht) | exact Ht].
  - rewrite (He e eq_refl) in Hc.
    exact (solve_at_a_singular_start p p num_steps max_iterations
             (in_clamp_box_domain p Hbox) Hsteps Hiter Hc).
Qed.

Lemma solve_from_a_point_to_itself_witness :
  in_clamp_box lifted_point /\
  match MetricTensor.g_inverse lifted_point return Prop with
  | Ok _ =>
      GeodesicSolver.solve lifted_point lifted_point 50 50 =
        Ok (repeat lifted_point (S (Z.to_nat 50))) /\
      GeodesicSolver.solve_traced lifted_point lifted_point 50 50 =
        Ok (repeat lifted_point (S (Z.to_nat 50)), true)
  | Raise _ =>
      GeodesicSolver.solve lifted_point lifted_point 50 50 = Raise LinAlgError
  end.
Proof.
  assert (Hbox : in_clamp_box lifted_point).
  { unfold in_clamp_box. repeat split; discriminate. }
  split; [exact Hbox|].
  exact (solve_from_a_point_to_itself lifted_point 50 50 Hbox
           ltac:(lia) ltac:(lia)).
Defined.

(* ------------------------------------------------------------------ *)
(** ** Exceptions *)

Lemma mapM_raises {A B : Type} (f : A -> res B) (l : list A) (e : exn) :
  (forall a e', f a = Raise e' -> e' = LinAlgError) ->
  mapM f l = Raise e -> e = LinAlgError.
Proof.
  intro Hf. induction l as [|a l IH]; cbn [mapM]; intro H; [discriminate|].
  apply bind_Raise_inv in H as [H | (b & _ & H)]; [exact (Hf _ _ H)|].
  apply bind_Raise_inv in H as [H | (bs & _ & H)]; [exact (IH H) | discriminate].
Qed.

Lemma foldM_raises {A S : Type} (f : S -> A -> res S) (l : list A) (e : exn) :
  (forall s a e', f s a = Raise e' -> e' = LinAlgError) ->
  forall s, foldM f l s = Raise e -> e = LinAlgError.
Proof.
  intro Hf. induction l as [|a l IH]; cbn [foldM]; intros s H; [discriminate|].
  apply bind_Raise_inv in H as [H | (s' & _ & H)];
    [exact (Hf _ _ _ H) | exact (IH _ H)].
Qed.

Lemma christoffel_derivatives_raises (p : ManifoldPoint) (e : exn) :
  RiemannCurvature.christoffel_derivatives p = Raise e -> e = LinAlgError.
Proof.
  unfold RiemannCurvature.christoffel_derivatives. cbv zeta.
  apply mapM_raises. intros mu e' H.
  apply bind_Raise_inv in H as [H | (gp & _ & H)]; [exact (compute_raises _ _ H)|].
  apply bind_Raise_inv in H as [H | (gm & _ & H)];
    [exact (compute_raises _ _ H) | discriminate].
Qed.

Lemma riemann_tensor_raises (p : ManifoldPoint) (e : exn) :
  RiemannCurvature.riemann_tensor p = Raise e -> e = LinAlgError.
Proof.
  rewrite riemann_tensor_unfold. intro H.
  apply bind_Raise_inv in H as [H | (gamma & _ & H)];
    [exact (compute_raises _ _ H)|].
  apply bind_Raise_inv in H as [H | (dgamma & _ & H)];
    [exact (christoffel_derivatives_raises _ _ H) | discriminate].
Qed.

Lemma scalar_curvature_raises (p : ManifoldPoint) (e : exn) :
  RiemannCurvature.scalar_curvature p = Raise e -> e = LinAlgError.
Proof.
  rewrite scalar_curvature_unfold. unfold RiemannCurvature.ricci_tensor.
  intro H.
  apply bind_Raise_inv in H as [H | (ricci & _ & H)].
  - apply bind_Raise_inv in H as [H | (R & _ & H)];
      [exact (riemann_tensor_raises _ _ H) | discriminate].
  - apply bind_Raise_inv in H as [H | (g_inv & _ & H)];
      [exact (g_inverse_raises _ _ H) | discriminate].
Qed.

Lemma curvature_gradient_raises (p : ManifoldPoint) (e : exn) :
  RiemannCurvature.curvature_gradient p = Raise e -> e = LinAlgError.
Proof.
  rewrite curvature_gradient_unfold. intro H.
  apply bind_Raise_inv in H as [H | (R0 & _ & H)];
    [exact (scalar_curvature_raises _ _ H)|].
  revert H. apply mapM_raises. intros i e' H.
  apply bind_Raise_inv in H as [H | (Rp & _ & H)];
    [exact (scalar_curvature_raises _ _ H) | discriminate].
Qed.

Lemma decoherence_field_raises (p : ManifoldPoint) (e : exn) :
  CRSM6D.decoherence_field p = Raise e -> e = LinAlgError.
Proof.
  unfold CRSM6D.decoherence_field, CRSM6D.scalar_curvature_at. intro H.
  apply bind_Raise_inv in H as [H | (R0 & _ & H)];
    [exact (scalar_curvature_raises _ _ H) | discriminate].
Qed.

Lemma coherence_potential_raises {L : Libm} (p : ManifoldPoint) (e : exn) :
  CRSM6D.coherence_potential p = Raise e -> e = LinAlgError.
Proof.
  unfold CRSM6D.coherence_potential, CRSM6D.scalar_curvature_at. cbv zeta.
  intro H.
  apply bind_Raise_inv in H as [H | (R0 & _ & H)];
    [exact (scalar_curvature_raises _ _ H) | discriminate].
Qed.

Lemma sense_curvature_raises {L : Libm} (a : GeodesicAgent) (e : exn) :
  GeodesicAgent.sense_curvature a = Raise e -> e = LinAlgError.
Proof.
  unfold GeodesicAgent.sense_curvature, CRSM6D.scalar_curvature_at,
    CRSM6D.curvature_gradient_at. cbv zeta. intro H.
  apply bind_Raise_inv in H as [H | (sc & _ & H)];
    [exact (scalar_curvature_raises _ _ H)|].
  apply bind_Raise_inv in H as [H | (grad & _ & H)];
    [exact (curvature_gradient_raises _ _ H)|].
  apply bind_Raise_inv in H as [H | (df & _ & H)];
    [exact (decoherence_field_raises _ _ H)|].
  apply bind_Raise_inv in H as [H | (cp & _ & H)];
    [exact (coherence_potential_raises _ _ H) | discriminate].
Qed.

Lemma telemetry_raises {L : Libm} (agent_id : string) (a : GeodesicAgent)
  (e : exn) :
  GeodesicAgent.telemetry agent_id a = Raise e -> e = LinAlgError.
Proof.
  unfold GeodesicAgent.telemetry. intro H.
  apply bind_Raise_inv in H as [H | (r & _ & H)];
    [exact (sense_curvature_raises _ _ H) | discriminate].
Qed.

Lemma observe_raises {L : Libm} (a : AURAAgent) (e : exn) :
  AURAAgent.observe a = Raise e -> e = LinAlgError.
Proof.
  unfold AURAAgent.observe. intro H.
  apply bind_Raise_inv in H as [H | (r & _ & H)];
    [exact (sense_curvature_raises _ _ H) | discriminate].
Qed.

Lemma flee_step_raises {L : Libm} (a : GeodesicAgent) (e : exn) :
  GeodesicAgent.flee_step a = Raise e -> e = LinAlgError.
Proof.
  unfold GeodesicAgent.flee_step, CRSM6D.curvature_gradient_at. intro H.
  apply bind_Raise_inv in H as [H | (grad & _ & H)];
    [exact (curvature_gradient_raises _ _ H) | discriminate].
Qed.

Lemma flee_high_curvature_raises {L : Libm} (steps : nat) :
  forall a e, GeodesicAgent.flee_high_curvature steps a = Raise e ->
              e = LinAlgError.
Proof.
  induction steps as [|n IH]; intros a e H; [discriminate|].
  rewrite flee_high_curvature_S in H.
  apply bind_Raise_inv in H as [H | (a' & _ & H)];
    [exact (flee_step_raises _ _ H) | exact (IH _ _ H)].
Qed.

Lemma solve_raises (start end_ : ManifoldPoint) (num_steps max_iterations : Z)
  (e : exn) :
  (num_steps <> 0)%Z -> (1 <= max_iterations)%Z ->
  GeodesicSolver.solve start end_ num_steps max_iterations = Raise e ->
  e = LinAlgError.
Proof.
  intros Hsteps Hiter. rewrite solve_unfold, solve_traced_unfold.
  unfold GeodesicSolver.step_size.
  destruct (Z.eqb_spec num_steps 0) as [E | _]; [contradiction|].
  cbn [bind]. intro H.
  apply bind_Raise_inv in H as [H | (r & _ & H)]; [|discriminate].
  destruct (Z.to_nat max_iterations) as [|fuel] eqn:Hfuel; [lia|].
  apply bind_Raise_inv in H as [H | (r & Hr & H)];
    [exact (shoot_raises _ _ _ _ _ _ _ _ H)|].
  destruct (shoot_some _ _ _ _ _ _ _ _ Hr) as [path Hpath].
  rewrite Hpath in H. discriminate.
Qed.

Lemma set_target_raises (target : ManifoldPoint) (a : GeodesicAgent) (e : exn) :
  GeodesicAgent.set_target target a = Raise e -> e = LinAlgError.
Proof.
  unfold GeodesicAgent.set_target, CRSM6D.find_geodesic. intro H.
  apply bind_Raise_inv in H as [H | (path & _ & H)]; [|discriminate].
  revert H. apply solve_raises; lia.
Qed.

Lemma coupled_step_raises {L : Libm} (s : AURAIDENSystem) (e : exn) :
  AURAIDENSystem.coupled_step s = Raise e -> e = LinAlgError.
Proof.
  unfold AURAIDENSystem.coupled_step, AURAIDENSystem.observe_and_respond.
  intro H.
  apply bind_Raise_inv in H as [H | (s1 & _ & H)]; [|discriminate].
  apply bind_Raise_inv in H as [H | (r & _ & H)];
    [exact (observe_raises _ _ H)|].
  apply bind_Raise_inv in H as [H | (a1 & _ & H)]; [|discriminate].
  destruct (cs_needs_healing (fst r)); [discriminate|].
  destruct (Qcltb (dec 1 2) (danger_level (fst r))); [|discriminate].
  unfold AIDENAgent.flee_high_curvature in H.
  apply bind_Raise_inv in H as [H | (b & _ & H)];
    [exact (flee_high_curvature_raises _ _ _ H) | discriminate].
Qed.

Lemma coupled_steps_raises {L : Libm} (steps : nat) :
  forall s e, AURAIDENSystem.coupled_steps steps s = Raise e -> e = LinAlgError.
Proof.
  induction steps as [|n IH]; intros s e H; [discriminate|].
  cbn [AURAIDENSystem.coupled_steps] in H.
  apply bind_Raise_inv in H as [H | (r & _ & H)];
    [exact (coupled_step_raises _ _ H) | exact (IH _ _ H)].
Qed.

Lemma optimize_pass_raises {L : Libm} (a : AIDENAgent) (e : exn) :
  AIDENAgent.optimize_pass a = Raise e -> e = LinAlgError.
Proof.
  unfold AIDENAgent.optimize_pass. cbv zeta. intro H.
  apply bind_Raise_inv in H as [H | (potential & _ & H)];
    [exact (coherence_potential_raises _ _ H)|].
  apply bind_Raise_inv in H as [H | (grad & _ & H)]; [|discriminate].
  revert H. apply mapM_raises. intros i e' H.
  apply bind_Raise_inv in H as [H | (pp & _ & H)];
    [exact (coherence_potential_raises _ _ H) | discriminate].
Qed.

Lemma optimize_loop_raises {L : Libm} (iterations : nat) :
  forall a e, AIDENAgent.optimize_loop iterations a = Raise e ->
              e = LinAlgError.
Proof.
  induction iterations as [|n IH]; intros a e H; [discriminate|].
  cbn [AIDENAgent.optimize_loop] in H.
  apply bind_Raise_inv in H as [H | (a' & _ & H)];
    [exact (optimize_pass_raises _ _ H) | exact (IH _ _ H)].
Qed.

(** X9: the only exception that the operations of the agents and of
    the coupled pair can raise is [LinAlgError], the one of a singular
    metric: the zero division and the unbound local of the solver are
    out of their reach. *)
Theorem agents_raise_nothing_but_LinAlgError (L : Libm) (e : exn) :
  (forall a, GeodesicAgent.sense_curvature a = Raise e -> e = LinAlgError) /\
  (forall id a, GeodesicAgent.telemetry id a = Raise e -> e = LinAlgError) /\
  (forall target a,
     GeodesicAgent.set_target target a = Raise e -> e = LinAlgError) /\
  (forall draws target max_steps a,
     GeodesicAgent.navigate_to draws target max_steps a = Raise e ->
     e = LinAlgError) /\
  (forall steps a,
     GeodesicAgent.flee_high_curvature steps a = Raise e -> e = LinAlgError) /\
  (forall a, AURAAgent.observe a = Raise e -> e = LinAlgError) /\
  (forall center radius resolution a,
     AURAAgent.map_region center radius resolution a = Raise e ->
     e = LinAlgError) /\
  (forall iterations a,
     AIDENAgent.optimize_position iterations a = Raise e -> e = LinAlgError) /\
  (forall s, AURAIDENSystem.coupled_step s = Raise e -> e = LinAlgError) /\
  (forall steps s, AURAIDENSystem.run steps s = Raise e -> e = LinAlgError).
Proof.
  split; [intro a; apply sense_curvature_raises|].
  split; [intros id a; apply telemetry_raises|].
  split; [intros target a; apply set_target_raises|].
  split.
  { intros draws target max_steps a H. unfold GeodesicAgent.navigate_to in H.
    apply bind_Raise_inv in H as [H | (a' & _ & H)];
      [exact (set_target_raises _ _ _ H) | discriminate]. }
  split; [intros steps a; apply flee_high_curvature_raises|].
  split; [intro a; apply observe_raises|].
  split.
  { intros center radius resolution a H. unfold AURAAgent.map_region in H.
    cbv zeta in H.
    apply bind_Raise_inv in H as [H | (a' & _ & H)]; [|discriminate].
    revert H. apply foldM_raises. intros s1 dL e1.
    apply foldM_raises. intros s2 dP e2.
    apply foldM_raises. intros s3 dG e3 H.
    apply bind_Raise_inv in H as [H | (r & _ & H)];
      [exact (observe_raises _ _ H) | discriminate]. }
  split.
  { intros iterations a H. unfold AIDENAgent.optimize_position in H.
    apply bind_Raise_inv in H as [H | (a' & _ & H)];
      [exact (optimize_loop_raises _ _ _ H) | discriminate]. }
  split; [intro s; apply coupled_step_raises|].
  intros steps s H. unfold AURAIDENSystem.run in H. cbv zeta in H.
  apply bind_Raise_inv in H as [H | (s1 & _ & H)];
    [exact (coupled_steps_raises _ _ _ H)|].
  apply bind_Raise_inv in H as [H | (ta & _ & H)];
    [exact (telemetry_raises _ _ _ H)|].
  apply bind_Raise_inv in H as [H | (td & _ & H)];
    [exact (telemetry_raises _ _ _ H) | discriminate].
Qed.

(* ------------------------------------------------------------------ *)
(** ** Sensing on a singular metric *)

Lemma curvature_at_a_singular_point (p : ManifoldPoint) (e : exn) :
  MetricTensor.g_inverse p = Raise e ->
  ChristoffelSymbols.compute p = Raise LinAlgError /\
  RiemannCurvature.riemann_tensor p = Raise LinAlgError /\
  RiemannCurvature.scalar_curvature p = Raise LinAlgError /\
  RiemannCurvature.curvature_gradient p = Raise LinAlgError.
Proof.
  intro H. pose proof (g_inverse_raises _ _ H) as ->.
  assert (Hc : ChristoffelSymbols.compute p = Raise LinAlgError)
    by (rewrite compute_unfold, H; reflexivity).
  assert (Hr : RiemannCurvature.riemann_tensor p = Raise LinAlgError)
    by (rewrite riemann_tensor_unfold, Hc; reflexivity).
  assert (Hs : RiemannCurvature.scalar_curvature p = Raise LinAlgError).
  { rewrite scalar_curvature_unfold. unfold RiemannCurvature.ricci_tensor.
    rewrite Hr. reflexivity. }
  repeat split; try assumption.
  rewrite curvature_gradient_unfold, Hs. reflexivity.
Qed.

(** C2, amended: [g_inverse] has no fallback, and nothing catches its
    failure.  Where the inversion of the metric raises, at a point of
    the domain, the exception is [LinAlgError], and it comes out of
    everything that needs the inverse there: the Christoffel symbols,
    the Riemann tensor, the scalar curvature and its gradient, the
    geodesic acceleration at the point for every velocity, and every
    geodesic or transport plan that starts from the point. *)
Theorem C2_g_inverse_failure_is_not_caught (point : ManifoldPoint) (e : exn)
  (Hdomain : in_domain point)
  (Hraise : MetricTensor.g_inverse point = Raise e) :
  e = LinAlgError /\
  ChristoffelSymbols.compute point = Raise LinAlgError /\
  RiemannCurvature.riemann_tensor point = Raise LinAlgError /\
  RiemannCurvature.scalar_curvature point = Raise LinAlgError /\
  RiemannCurvature.curvature_gradient point = Raise LinAlgError /\
  (forall velocity,
     GeodesicSolver.geodesic_acceleration (to_vector point) velocity =
       Raise LinAlgError) /\
  (forall end_ num_steps max_iterations,
     (1 <= num_steps)%Z -> (1 <= max_iterations)%Z ->
     GeodesicSolver.solve point end_ num_steps max_iterations =
       Raise LinAlgError) /\
  (forall target num_steps,
     (1 <= num_steps)%Z ->
     WassersteinTransport.transport_plan point target num_steps =
       Raise LinAlgError /\
     CRSM6D.optimal_transport point target num_steps = Raise LinAlgError).
Proof.
  destruct (curvature_at_a_singular_point _ _ Hraise) as (Hc & Hr & Hs & Hg).
  assert (Hsolve : forall end_ num_steps max_iterations,
            (1 <= num_steps)%Z -> (1 <= max_iterations)%Z ->
            GeodesicSolver.solve point end_ num_steps max_iterations =
              Raise LinAlgError).
  { intros end_ num_steps max_iterations Hsteps Hiter.
    exact (solve_at_a_singular_start _ _ _ _ Hdomain Hsteps Hiter Hc). }
  split; [exact (g_inverse_raises _ _ Hraise)|].
  split; [exact Hc|]. split; [exact Hr|]. split; [exact Hs|].
  split; [exact Hg|].
  split.
  { intro velocity. rewrite geodesic_acceleration_cells, from_to_vector,
      (post_init_id _ Hdomain), Hc. reflexivity. }
  split; [exact Hsolve|].
  intros target num_steps Hsteps.
  unfold CRSM6D.optimal_transport, WassersteinTransport.transport_plan.
  split; apply Hsolve; try assumption; lia.
Qed.

Lemma C2_g_inverse_failure_is_not_caught_witness :
  in_domain singular_point /\
  MetricTensor.g_inverse singular_point = Raise LinAlgError /\
  ChristoffelSymbols.compute singular_point = Raise LinAlgError /\
  RiemannCurvature.scalar_curvature singular_point = Raise LinAlgError /\
  GeodesicSolver.solve singular_point default_point 100 50 =
    Raise LinAlgError.
Proof.
  assert (Hd : in_domain singular_point)
    by exact (in_domain_new_point _ _ _ _ _ _).
  assert (Hs : MetricTensor.g_inverse singular_point = Raise LinAlgError)
    by (vm_compute; reflexivity).
  destruct (C2_g_inverse_failure_is_not_caught singular_point LinAlgError
              Hd Hs) as (_ & Hc & _ & Hsc & _ & _ & Hsolve & _).
  split; [exact Hd|]. split; [exact Hs|]. split; [exact Hc|].
  split; [exact Hsc|].
  apply Hsolve; lia.
Defined.

(** X10: an agent that stands on a point where the metric is singular
    cannot sense, report, flee or plan: [sense_curvature], [telemetry],
    [flee_high_curvature] (for at least one step), [set_target] and
    [navigate_to] all raise [LinAlgError]. *)
Theorem singular_position_blocks_the_agent (L : Libm) (a : GeodesicAgent)
  (e : exn)
  (Hsingular : MetricTensor.g_inverse (position a) = Raise e)
  (Hdomain : in_domain (position a)) :
  e = LinAlgError /\
  CRSM6D.scalar_curvature_at (position a) = Raise LinAlgError /\
  CRSM6D.curvature_gradient_at (position a) = Raise LinAlgError /\
  CRSM6D.decoherence_field (position a) = Raise LinAlgError /\
  CRSM6D.coherence_potential (position a) = Raise LinAlgError /\
  GeodesicAgent.sense_curvature a = Raise LinAlgError /\
  (forall id, GeodesicAgent.telemetry id a = Raise LinAlgError) /\
  (forall steps,
     GeodesicAgent.flee_high_curvature (S steps) a = Raise LinAlgError) /\
  (forall target, GeodesicAgent.set_target target a = Raise LinAlgError) /\
  (forall draws target max_steps,
     GeodesicAgent.navigate_to draws target max_steps a = Raise LinAlgError).
Proof.
  destruct (curvature_at_a_singular_point _ _ Hsingular) as (Hc & _ & Hs & Hg).
  assert (Hsense : GeodesicAgent.sense_curvature a = Raise LinAlgError).
  { unfold GeodesicAgent.sense_curvature, CRSM6D.scalar_curvature_at.
    cbv zeta. cbn [position GeodesicAgent.set_state]. rewrite Hs. reflexivity. }
  assert (Htarget : forall target,
            GeodesicAgent.set_target target a = Raise LinAlgError).
  { intro target. unfold GeodesicAgent.set_target, CRSM6D.find_geodesic.
    rewrite (solve_at_a_singular_start _ _ 50 50 Hdomain ltac:(lia) ltac:(lia) Hc).
    reflexivity. }
  split; [exact (g_inverse_raises _ _ Hsingular)|].
  split; [exact Hs|]. split; [exact Hg|].
  split; [unfold CRSM6D.decoherence_field, CRSM6D.scalar_curvature_at;
          rewrite Hs; reflexivity|].
  split; [unfold CRSM6D.coherence_potential, CRSM6D.scalar_curvature_at;
          cbv zeta; rewrite Hs; reflexivity|].
  split; [exact Hsense|].
  split; [intro id; unfold GeodesicAgent.telemetry; rewrite Hsense;
          reflexivity|].
  split.
  { intro steps. rewrite flee_high_curvature_S.
    unfold GeodesicAgent.flee_step, CRSM6D.curvature_gradient_at.
    rewrite Hg. reflexivity. }
  split; [exact Htarget|].
  intros draws target max_steps. unfold GeodesicAgent.navigate_to.
  rewrite Htarget. reflexivity.
Qed.

Lemma singular_position_blocks_the_agent_witness :
  MetricTensor.g_inverse (position stranded_agent) = Raise LinAlgError /\
  in_domain (position stranded_agent) /\
  @GeodesicAgent.sense_curvature rational_libm stranded_agent =
    Raise LinAlgError /\
  (forall target,
     GeodesicAgent.set_target target stranded_agent = Raise LinAlgError).
Proof.
  assert (Hs : MetricTensor.g_inverse (position stranded_agent) =
               Raise LinAlgError) by (vm_compute; reflexivity).
  assert (Hd : in_domain (position stranded_agent))
    by exact (in_domain_new_point _ _ _ _ _ _).
  destruct (singular_position_blocks_the_agent rational_libm stranded_agent
              LinAlgError Hs Hd)
    as (_ & _ & _ & _ & _ & Hsense & _ & _ & Htarget & _).
  split; [exact Hs|]. split; [exact Hd|]. split; [exact Hsense | exact Htarget].
Defined.

(* ------------------------------------------------------------------ *)
(** ** What an agent senses *)

Lemma Qcabs'_nonneg (x : Qc) : 0 <= Qcabs' x.
Proof. unfold Qcabs'. case_ltb x 0; qc_lra. Qed.

(** The arithmetic of the danger level. *)
Lemma danger_bounds (d r g : Qc) :
  d = g * (1 + r * dec 1 10) -> 0 <= r -> 0 <= g ->
  g <= d /\
  Qcmin 1 g <= Qcmin 1 (d + r * dec 1 10) /\
  Qcmin 1 (d + r * dec 1 10) <= 1 /\
  (dec 3 10 < g -> dec 3 10 < Qcmin 1 (d + r * dec 1 10)).
Proof.
  intros Hd Hr Hg.
  assert (Hle : g <= d) by (rewrite Hd; qc_nra).
  clear Hd. split; [exact Hle|]. unfold Qcmin.
  case_ltb (d + r * dec 1 10) 1; case_ltb g 1.
  - split; [qc_lra|]. split; [qc_lra|]. intro H3. qc_lra.
  - split; [qc_lra|]. split; [qc_lra|]. intro H3. qc_lra.
  - split; [qc_lra|]. split; [qc_lra|]. intro H3. qc_lra.
  - split; [qc_lra|]. split; [qc_lra|]. intro H3. qc_lra.
Qed.

Lemma sense_curvature_Ok {L : Libm} (a : GeodesicAgent)
  (sense : CurvatureSense) (a' : GeodesicAgent) :
  GeodesicAgent.sense_curvature a = Ok (sense, a') ->
  a' = GeodesicAgent.set_state SENSING a /\
  RiemannCurvature.scalar_curvature (position a) =
    Ok (cs_scalar_curvature sense) /\
  RiemannCurvature.curvature_gradient (position a) =
    Ok (cs_curvature_gradient sense) /\
  cs_decoherence_field sense =
    Gamma (position a) *
    (1 + Qcabs' (cs_scalar_curvature sense) * dec 1 10) /\
  cs_coherence_potential sense =
    - flog (Qcmax (dec 1 1000) (xi (position a))) +
    dec 1 10 * Qcabs' (cs_scalar_curvature sense) /\
  cs_is_coherent sense = is_coherent (position a) /\
  cs_needs_healing sense = needs_healing (position a).
Proof.
  unfold GeodesicAgent.sense_curvature, CRSM6D.scalar_curvature_at,
    CRSM6D.curvature_gradient_at, CRSM6D.decoherence_field,
    CRSM6D.coherence_potential, CRSM6D.is_coherent_region,
    CRSM6D.scalar_curvature_at.
  cbv zeta. cbn [position GeodesicAgent.set_state]. intro H.
  apply bind_Ok_inv in H as (sc & Hsc & H). rewrite Hsc in H.
  apply bind_Ok_inv in H as (grad & Hgrad & H).
  cbn [bind] in H. injection H as <- <-.
  cbn [cs_scalar_curvature cs_curvature_gradient cs_decoherence_field
       cs_coherence_potential cs_is_coherent cs_needs_healing].
  repeat split; assumption.
Qed.

(** X11: what [sense_curvature] returns.  The agent is left in the
    state [SENSING] and is otherwise unchanged; the decoherence field
    is Gamma * (1 + |R| / 10) for the scalar curvature R of the same
    record, so it is never below Gamma; and the danger level lies
    between the smaller of 1 and Gamma, and 1: sensing in the domain
    never reports a danger of 0, and a reading that needs healing
    reports a danger above 0.3. *)
Theorem sensed_danger_is_bounded (L : Libm) (a a' : GeodesicAgent)
  (sense : CurvatureSense)
  (Hsense : GeodesicAgent.sense_curvature a = Ok (sense, a'))
  (Hgamma : 0 <= Gamma (position a)) :
  a' = GeodesicAgent.set_state SENSING a /\
  cs_decoherence_field sense =
    Gamma (position a) *
    (1 + Qcabs' (cs_scalar_curvature sense) * dec 1 10) /\
  Gamma (position a) <= cs_decoherence_field sense /\
  Qcmin 1 (Gamma (position a)) <= danger_level sense /\
  danger_level sense <= 1 /\
  cs_needs_healing sense = needs_healing (position a) /\
  (cs_needs_healing sense = true -> dec 3 10 < danger_level sense).
Proof.
  destruct (sense_curvature_Ok a sense a' Hsense)
    as (Ha & _ & _ & Hdf & _ & _ & Hh).
  pose proof (Qcabs'_nonneg (cs_scalar_curvature sense)) as Habs.
  destruct (danger_bounds _ _ _ Hdf Habs Hgamma) as (Hle & Hd1 & Hd2 & Hd3).
  split; [exact Ha|]. split; [exact Hdf|]. split; [exact Hle|].
  split; [exact Hd1|]. split; [exact Hd2|]. split; [exact Hh|].
  rewrite Hh. unfold needs_healing. intro Hn. apply Qcltb_true in Hn.
  exact (Hd3 Hn).
Qed.

(** The first observation of the system does not raise. *)
Lemma first_observer_senses :
  exists r, @GeodesicAgent.sense_curvature rational_libm first_observer = Ok r.
Proof.
  pose proof first_coupled_step_runs as Hok.
  destruct (@GeodesicAgent.sense_curvature rational_libm first_observer)
    as [r|e] eqn:E; [exists r; reflexivity|].
  exfalso.
  assert (Hraise : @AURAIDENSystem.coupled_step rational_libm
                     AURAIDENSystem.init = Raise e).
  { unfold AURAIDENSystem.coupled_step, AURAIDENSystem.observe_and_respond,
      AURAAgent.observe.
    fold first_observer. rewrite E. reflexivity. }
  rewrite Hraise in Hok. discriminate Hok.
Qed.

Lemma sensed_danger_is_bounded_witness :
  exists sense a',
    @GeodesicAgent.sense_curvature rational_libm first_observer =
      Ok (sense, a') /\
    0 <= Gamma (position first_observer) /\
    a' = GeodesicAgent.set_state SENSING first_observer /\
    Gamma (position first_observer) <= cs_decoherence_field sense /\
    danger_level sense <= 1.
Proof.
  destruct first_observer_senses as [[sense a'] Hsense].
  assert (Hg : 0 <= Gamma (position first_observer)) by discriminate.
  destruct (sensed_danger_is_bounded rational_libm first_observer a' sense
              Hsense Hg) as (Ha & _ & Hle & _ & H1 & _).
  exists sense, a'.
  split; [exact Hsense|]. split; [exact Hg|]. split; [exact Ha|].
  split; [exact Hle | exact H1].
Defined.

(* ------------------------------------------------------------------ *)
(** ** Telemetry and the run of the coupled pair *)

Lemma telemetry_Ok {L : Libm} (agent_id : string) (a : GeodesicAgent)
  (t : Telemetry) (a' : GeodesicAgent) :
  GeodesicAgent.telemetry agent_id a = Ok (t, a') ->
  exists sense,
    GeodesicAgent.sense_curvature a = Ok (sense, a') /\
    a' = GeodesicAgent.set_state SENSING a /\
    tm_agent_id t = agent_id /\
    tm_pole t = pole a /\
    tm_state t = SENSING /\
    tc_scalar (tm_curvature t) = cs_scalar_curvature sense /\
    tc_danger_level (tm_curvature t) = danger_level sense /\
    tn_path_length (tm_navigation t) = GeodesicAgent._compute_path_length a /\
    tx_trajectory_length (tm_metrics t) = length (trajectory a).
Proof.
  unfold GeodesicAgent.telemetry. intro H.
  apply bind_Ok_inv in H as ([sense a1] & Hsense & H).
  cbn [fst snd] in H. injection H as <- <-.
  destruct (sense_curvature_Ok a sense a1 Hsense) as (-> & _).
  exists sense. split; [exact Hsense|].
  repeat split.
Qed.

Lemma telemetry_runs {L : Libm} (agent_id : string) (a : GeodesicAgent)
  (r : CurvatureSense * GeodesicAgent) :
  GeodesicAgent.sense_curvature a = Ok r ->
  exists t, GeodesicAgent.telemetry agent_id a = Ok (t, snd r).
Proof.
  intro H. unfold GeodesicAgent.telemetry. rewrite H. cbn [bind].
  eexists. reflexivity.
Qed.

(** X12: [telemetry] senses before it reports.  Whatever the state of
    the agent was, the report says [SENSING] and the agent is left in
    the state [SENSING]; nothing else of the agent changes, and the
    danger level reported is at most 1. *)
Theorem telemetry_overwrites_the_state (L : Libm) (agent_id : string)
  (a a' : GeodesicAgent) (t : Telemetry)
  (Hreport : GeodesicAgent.telemetry agent_id a = Ok (t, a')) :
  tm_state t = SENSING /\
  state a' = SENSING /\
  a' = GeodesicAgent.set_state SENSING a /\
  position a' = position a /\ path a' = path a /\
  path_index a' = path_index a /\ trajectory a' = trajectory a /\
  tm_agent_id t = agent_id /\ tm_pole t = pole a /\
  tx_trajectory_length (tm_metrics t) = length (trajectory a) /\
  tc_danger_level (tm_curvature t) <= 1.
Proof.
  destruct (telemetry_Ok agent_id a t a' Hreport)
    as (sense & Hsense & Ha & Hid & Hpole & Hstate & _ & Hdanger & _ & Hlen).
  subst a'.
  split; [exact Hstate|]. split; [reflexivity|]. split; [reflexivity|].
  split; [reflexivity|]. split; [reflexivity|]. split; [reflexivity|].
  split; [reflexivity|]. split; [exact Hid|]. split; [exact Hpole|].
  split; [exact Hlen|].
  rewrite Hdanger. unfold danger_level, Qcmin.
  case_ltb (cs_decoherence_field sense +
            Qcabs' (cs_scalar_curvature sense) * dec 1 10) 1.
  - apply Qclt_le_weak. exact E.
  - apply Qcle_refl.
Qed.

Lemma telemetry_overwrites_the_state_witness :
  exists t a',
    @GeodesicAgent.telemetry rational_libm "AURA_PRIMARY" first_observer
      = Ok (t, a') /\
    state first_observer = DORMANT /\
    tm_state t = SENSING /\ state a' = SENSING.
Proof.
  destruct first_observer_senses as [r Hr].
  destruct (telemetry_runs "AURA_PRIMARY" first_observer r Hr) as [t Ht].
  destruct (telemetry_overwrites_the_state rational_libm "AURA_PRIMARY"
              first_observer (snd r) t Ht) as (H1 & H2 & _).
  exists t, (snd r).
  split; [exact Ht|]. split; [reflexivity|]. split; [exact H1 | exact H2].
Defined.

Lemma coupled_step_history {L : Libm} (s s' : AURAIDENSystem) (sync : Qc) :
  AURAIDENSystem.coupled_step s = Ok (sync, s') ->
  synchronization_history s' = synchronization_history s ++ [sync].
Proof.
  unfold AURAIDENSystem.coupled_step. intro H.
  apply bind_Ok_inv in H as (s1 & Hs1 & H).
  destruct (observe_and_respond_spec s s1 Hs1) as (_ & _ & _ & Hh).
  injection H as <- <-.
  unfold AURAIDENSystem.synchronization, AURAIDENSystem._apply_coupling.
  cbn [snd fst synchronization_history]. rewrite Hh. reflexivity.
Qed.

Lemma coupled_steps_history {L : Libm} (steps : nat) :
  forall s s', AURAIDENSystem.coupled_steps steps s = Ok s' ->
    exists syncs, length syncs = steps /\
      synchronization_history s' = synchronization_history s ++ syncs.
Proof.
  induction steps as [|n IH]; intros s s' H.
  - injection H as <-. exists []. split; [reflexivity|].
    rewrite app_nil_r. reflexivity.
  - cbn [AURAIDENSystem.coupled_steps] in H.
    apply bind_Ok_inv in H as ([sync s1] & Hstep & H). cbn [snd] in H.
    destruct (IH _ _ H) as (syncs & Hlen & Hh).
    exists (sync :: syncs). split; [cbn; lia|].
    rewrite Hh, (coupled_step_history _ _ _ Hstep), <- app_assoc.
    reflexivity.
Qed.

(** X13: [run] returns a history that holds one more reading than the
    steps it ran.  The history returned is the one of the system
    before the run followed by one reading per coupled step and by the
    final reading, which is also the value of [final_sync]; both
    telemetry reports say [SENSING], and both agents are left in the
    state [SENSING]. *)
Theorem run_history_ends_with_the_final_sync (L : Libm) (steps : Z)
  (s s' : AURAIDENSystem) (r : AURAIDENSystem.RunResult)
  (Hrun : AURAIDENSystem.run steps s = Ok (r, s')) :
  AURAIDENSystem.sync_history r = synchronization_history s' /\
  (exists syncs,
     length syncs = Z.to_nat steps /\
     AURAIDENSystem.sync_history r =
       synchronization_history s ++ syncs ++ [AURAIDENSystem.final_sync r]) /\
  length (AURAIDENSystem.sync_history r) =
    (length (synchronization_history s) + Z.to_nat steps + 1)%nat /\
  tm_state (AURAIDENSystem.aura_telemetry r) = SENSING /\
  tm_state (AURAIDENSystem.aiden_telemetry r) = SENSING /\
  state (aura_base (aura s')) = SENSING /\
  state (aiden_base (aiden s')) = SENSING.
Proof.
  unfold AURAIDENSystem.run in Hrun. cbv zeta in Hrun.
  apply bind_Ok_inv in Hrun as (s1 & Hsteps & Hrun).
  apply bind_Ok_inv in Hrun as ([ta a1] & Hta & Hrun).
  apply bind_Ok_inv in Hrun as ([td a2] & Htd & Hrun).
  injection Hrun as <- <-.
  destruct (coupled_steps_history _ _ _ Hsteps) as (syncs & Hlen & Hh).
  destruct (telemetry_Ok _ _ _ _ Hta) as (_ & _ & Ha1 & _ & _ & Hsa & _).
  destruct (telemetry_Ok _ _ _ _ Htd) as (_ & _ & Ha2 & _ & _ & Hsd & _).
  cbn [fst snd] in *.
  cbn [AURAIDENSystem.sync_history AURAIDENSystem.final_sync
       AURAIDENSystem.aura_telemetry AURAIDENSystem.aiden_telemetry
       AURAIDENSystem.synchronization fst snd synchronization_history
       aura aiden AURAAgent.with_base AIDENAgent.with_base
       aura_base aiden_base].
  generalize (fexp (- CRSM6D.distance (AURAIDENSystem.aura_position s1)
                                      (AURAIDENSystem.aiden_position s1))).
  intro final. rewrite Hh, <- app_assoc.
  split; [reflexivity|].
  split; [exists syncs; split; [exact Hlen | reflexivity]|].
  split; [rewrite !length_app, Hlen; cbn [length]; lia|].
  split; [exact Hsa|]. split; [exact Hsd|].
  rewrite Ha1, Ha2. split; reflexivity.
Qed.

Lemma sense_by_position {L : Libm} (a b : GeodesicAgent)
  (r : CurvatureSense * GeodesicAgent) :
  position a = position b ->
  GeodesicAgent.sense_curvature a = Ok r ->
  GeodesicAgent.sense_curvature b =
    Ok (fst r, GeodesicAgent.set_state SENSING b).
Proof.
  unfold GeodesicAgent.sense_curvature. cbv zeta.
  cbn [position GeodesicAgent.set_state]. intros <- H.
  apply bind_Ok_inv in H as (sc & -> & H).
  apply bind_Ok_inv in H as (grad & -> & H).
  apply bind_Ok_inv in H as (df & -> & H).
  apply bind_Ok_inv in H as (cp & -> & H).
  injection H as <-. reflexivity.
Qed.

(** A run of no step: the final reading and the two reports. *)
Lemma run_no_step {L : Libm} (s : AURAIDENSystem) (ta td : Telemetry)
  (a1 a2 : GeodesicAgent) :
  GeodesicAgent.telemetry "AURA_PRIMARY" (aura_base (aura s)) = Ok (ta, a1) ->
  GeodesicAgent.telemetry "AIDEN_PRIMARY" (aiden_base (aiden s)) = Ok (td, a2) ->
  exists r s', AURAIDENSystem.run 0 s = Ok (r, s').
Proof.
  intros Hta Htd. unfold AURAIDENSystem.run. cbv zeta.
  change (AURAIDENSystem.coupled_steps (Z.to_nat 0) s) with (Ok s).
  cbn [bind AURAIDENSystem.synchronization snd fst aura aiden].
  rewrite Hta. cbn [bind aiden]. rewrite Htd. cbn [bind].
  eexists. eexists. reflexivity.
Qed.

Lemma run_history_ends_with_the_final_sync_witness :
  exists r s',
    @AURAIDENSystem.run rational_libm 0 twin_system = Ok (r, s') /\
    AURAIDENSystem.sync_history r = [AURAIDENSystem.final_sync r] /\
    tm_state (AURAIDENSystem.aura_telemetry r) = SENSING /\
    tm_state (AURAIDENSystem.aiden_telemetry r) = SENSING.
Proof.
  destruct first_observer_senses as [ra Hra].
  pose proof (sense_by_position first_observer
                (aiden_base (aiden twin_system)) ra eq_refl Hra) as Hrd.
  destruct (telemetry_runs "AURA_PRIMARY" _ _ Hra) as [ta Hta].
  destruct (telemetry_runs "AIDEN_PRIMARY" _ _ Hrd) as [td Htd].
  destruct (run_no_step twin_system ta td _ _ Hta Htd) as (r & s' & Hrun).
  destruct (run_history_ends_with_the_final_sync rational_libm 0 twin_system
              s' r Hrun) as (_ & (syncs & Hlen & Hh) & _ & Ha & Hd & _).
  exists r, s'. split; [exact Hrun|].
  destruct syncs; [|discriminate Hlen].
  split; [exact Hh|]. split; [exact Ha | exact Hd].
Defined.

(* ------------------------------------------------------------------ *)
(** ** Path lengths *)

Lemma sum_from_shift (n : nat) (f : nat -> Qc) :
  sum_from 0 (S n) f = f O + sum_from 0 n (fun i => f (S i)).
Proof.
  induction n as [|n IH].
  - rewrite sum_from_S. cbn. ring.
  - rewrite sum_from_S, IH, (sum_from_S _ n). ring.
Qed.

Lemma path_length_sum {L : Libm} (path : list ManifoldPoint) :
  GeodesicSolver.path_length path =
    sum_from 0 (length path - 1) (fun i =>
      MetricTensor.distance (nth i path default_point)
                            (nth (S i) path default_point)).
Proof.
  unfold GeodesicSolver.path_length.
  destruct (Nat.ltb_spec (length path) 2) as [H | H]; [|reflexivity].
  destruct path as [|p [|q l]]; [reflexivity | reflexivity | cbn in H; lia].
Qed.

Lemma path_length_cons {L : Libm} (p q : ManifoldPoint)
  (l : list ManifoldPoint) :
  GeodesicSolver.path_length (p :: q :: l) =
    MetricTensor.distance p q + GeodesicSolver.path_length (q :: l).
Proof.
  rewrite !path_length_sum. cbn [length Nat.sub].
  rewrite Nat.sub_0_r, sum_from_shift. reflexivity.
Qed.



Lemma fold_seq_shift (f : nat -> Qc) (m : nat) :
  forall k j acc,
    fold_left (fun a i => a + f i) (seq (k + j) m) acc =
    fold_left (fun a i => a + f (k + i)%nat) (seq j m) acc.
Proof.
  induction m as [|m IH]; intros k j acc; [reflexivity|].
  cbn [seq fold_left]. rewrite <- (IH k (S j)), Nat.add_succ_r. reflexivity.
Qed.

Lemma nth_skipn_add {A : Type} (d : A) (k : nat) :
  forall (l : list A) i, nth i (skipn k l) d = nth (k + i) l d.
Proof.
  induction k as [|k IH]; intros l i; [reflexivity|].
  destruct l as [|a l]; [destruct i; reflexivity|]. cbn. apply IH.
Qed.

Lemma remaining_length_skipn {L : Libm} (a : GeodesicAgent) :
  GeodesicAgent._compute_path_length a =
    GeodesicSolver.path_length (skipn (path_index a) (path a)).
Proof.
  unfold GeodesicAgent._compute_path_length.
  rewrite path_length_sum, length_skipn.
  destruct (GeodesicAgent.path_exhausted a) eqn:E.
  - apply path_exhausted_true in E.
    replace (length (path a) - path_index a - 1)%nat with O by lia.
    reflexivity.
  - apply path_exhausted_false in E.
    replace (length (path a) - path_index a - 1)%nat
      with (length (path a) - 1 - path_index a)%nat by lia.
    unfold sum_from, range, CRSM6D.distance.
    rewrite <- (Nat.add_0_r (path_index a)) at 1.
    rewrite fold_seq_shift.
    apply fold_left_ext_in. intros acc i _.
    rewrite !nth_skipn_add, Nat.add_succ_r. reflexivity.
Qed.

(** X15: the length that an agent has left to travel is the length of
    the part of its path that starts at the current index; at index 0
    it is the length of the whole path. *)
Theorem remaining_length_is_the_length_of_the_rest (L : Libm)
  (a : GeodesicAgent) :
  GeodesicAgent._compute_path_length a =
    GeodesicSolver.path_length (skipn (path_index a) (path a)) /\
  (path_index a = O ->
   GeodesicAgent._compute_path_length a = GeodesicSolver.path_length (path a)).
Proof.
  split; [apply remaining_length_skipn|].
  intro H. rewrite remaining_length_skipn, H. reflexivity.
Qed.

Lemma skipn_nth_cons {A : Type} (d : A) (k : nat) :
  forall l : list A, (k < length l)%nat ->
    skipn k l = nth k l d :: skipn (S k) l.
Proof.
  induction k as [|k IH]; intros [|a l] H; cbn in H; try lia; [reflexivity|].
  cbn [skipn nth]. rewrite (IH l) by lia. reflexivity.
Qed.

Lemma step_moves {L : Libm} (u : Qc) (noise : vec) (a : GeodesicAgent) :
  needs_healing (position a) = false ->
  GeodesicAgent.path_exhausted a = false ->
  path (snd (GeodesicAgent.step u noise a)) = path a /\
  path_index (snd (GeodesicAgent.step u noise a)) = S (path_index a) /\
  total_distance (snd (GeodesicAgent.step u noise a)) =
    total_distance a +
    CRSM6D.distance (position a) (nth (S (path_index a)) (path a) default_point) /\
  fst (GeodesicAgent.step u noise a) = true.
Proof.
  intros Hh He. unfold GeodesicAgent.step. rewrite Hh, He. cbv zeta.
  cbn [mutation_rate].
  destruct (Qcltb u (mutation_rate a)); cbn [fst snd];
    repeat split; reflexivity.
Qed.

(** X16: a step along the path moves length from the remaining path
    to the distance travelled.  For an agent that stands on the point
    of its path at the current index and does not need healing, the sum
    of [total_distance] and of the remaining length is the same before
    and after [step], whether the step mutates or not. *)
Theorem step_conserves_the_path_length (L : Libm) (a : GeodesicAgent)
  (u : Qc) (noise : vec)
  (Hhealthy : needs_healing (position a) = false)
  (Hahead : (path_index a + 1 < length (path a))%nat)
  (Hon : position a = nth (path_index a) (path a) default_point) :
  fst (GeodesicAgent.step u noise a) = true /\
  total_distance (snd (GeodesicAgent.step u noise a)) +
  GeodesicAgent._compute_path_length (snd (GeodesicAgent.step u noise a)) =
  total_distance a + GeodesicAgent._compute_path_length a.
Proof.
  pose proof (proj2 (path_exhausted_false a) Hahead) as He.
  destruct (step_moves u noise a Hhealthy He) as (Hp & Hi & Ht & Hb).
  split; [exact Hb|].
  rewrite !remaining_length_skipn, Hp, Hi, Ht.
  rewrite (skipn_nth_cons default_point (path_index a)) by lia.
  rewrite (skipn_nth_cons default_point (S (path_index a))) by lia.
  rewrite path_length_cons, <- Hon. unfold CRSM6D.distance. ring.
Qed.

Lemma step_conserves_the_path_length_witness :
  needs_healing (position navigating_calm_agent) = false /\
  (path_index navigating_calm_agent + 1 <
     length (path navigating_calm_agent))%nat /\
  position navigating_calm_agent =
    nth (path_index navigating_calm_agent) (path navigating_calm_agent)
        default_point /\
  @total_distance
     (snd (@GeodesicAgent.step rational_libm 1 (repeat 0 6)
             navigating_calm_agent)) +
  @GeodesicAgent._compute_path_length rational_libm
     (snd (@GeodesicAgent.step rational_libm 1 (repeat 0 6)
             navigating_calm_agent)) =
  total_distance navigating_calm_agent +
  @GeodesicAgent._compute_path_length rational_libm navigating_calm_agent.
Proof.
  assert (H1 : needs_healing (position navigating_calm_agent) = false)
    by reflexivity.
  assert (H2 : (path_index navigating_calm_agent + 1 <
                 length (path navigating_calm_agent))%nat)
    by (cbn; lia).
  assert (H3 : position navigating_calm_agent =
               nth (path_index navigating_calm_agent)
                   (path navigating_calm_agent) default_point)
    by reflexivity.
  split; [exact H1|]. split; [exact H2|]. split; [exact H3|].
  exact (proj2 (step_conserves_the_path_length rational_libm
                  navigating_calm_agent 1 (repeat 0 6) H1 H2 H3)).
Defined.

(* ------------------------------------------------------------------ *)
(** ** Navigation *)

Lemma inject_Z_le (k m : Z) :
  (k <= m)%Z -> Q2Qc (inject_Z k) <= Q2Qc (inject_Z m).
Proof.
  intro H. unfold Qcle, Q2Qc. cbn [this]. rewrite !Qred_correct.
  rewrite <- Zle_Qle. exact H.
Qed.

Lemma inject_Z_lt (k m : Z) :
  (k < m)%Z -> Q2Qc (inject_Z k) < Q2Qc (inject_Z m).
Proof.
  intro H. unfold Qclt, Q2Qc. cbn [this]. rewrite !Qred_correct.
  rewrite <- Zlt_Qlt. exact H.
Qed.

(** The quotient of two counts, the first at most the second. *)
Lemma ratio_bounds (k m : Z) :
  (0 <= k <= m)%Z -> (0 < m)%Z ->
  0 <= Q2Qc (inject_Z k) / Q2Qc (inject_Z m) /\
  Q2Qc (inject_Z k) / Q2Qc (inject_Z m) <= 1 /\
  (k = 0%Z -> Q2Qc (inject_Z k) / Q2Qc (inject_Z m) = 0) /\
  (k = m -> Q2Qc (inject_Z k) / Q2Qc (inject_Z m) = 1).
Proof.
  intros [Hk0 Hkm] Hm.
  pose proof (inject_Z_le _ _ Hk0) as Hx0.
  pose proof (inject_Z_le _ _ Hkm) as Hxy.
  pose proof (inject_Z_lt _ _ Hm) as Hy.
  change (Q2Qc (inject_Z 0)) with (0 : Qc) in Hx0, Hy.
  destruct (Qcinv_pos _ Hy) as [Hi Hyi].
  split; [|split; [|split]].
  - unfold Qcdiv. revert Hx0 Hi.
    generalize (Q2Qc (inject_Z k)) (/ Q2Qc (inject_Z m)).
    intros x i Hx0 Hi. qc_nra.
  - unfold Qcdiv. apply Qc_eq_Qeq in Hyi. revert Hx0 Hxy Hy Hi Hyi.
    generalize (Q2Qc (inject_Z k)) (Q2Qc (inject_Z m)).
    intros x y. generalize (/ y). intros i Hx0 Hxy Hy Hi Hyi. qc_nra.
  - intros ->. change (Q2Qc (inject_Z 0)) with (0 : Qc). unfold Qcdiv. ring.
  - intros ->. exact Hyi.
Qed.

(** X17: what [sense_navigation] reports.  Without a path the progress
    and the estimated steps are 0.  With the index inside the path the
    progress lies between 0 and 1 and the estimate is the number of
    path points from the current one on, so at least 1: at the last
    point of a path the remaining length is 0 and the progress is 1,
    but the estimate still counts one step. *)
Theorem navigation_sense_bounds (L : Libm) (a : GeodesicAgent) :
  ns_current_position (GeodesicAgent.sense_navigation a) = position a /\
  ns_path_length (GeodesicAgent.sense_navigation a) =
    GeodesicSolver.path_length (skipn (path_index a) (path a)) /\
  (path a = [] ->
     ns_progress (GeodesicAgent.sense_navigation a) = 0 /\
     ns_estimated_steps (GeodesicAgent.sense_navigation a) = 0%Z /\
     ns_path_length (GeodesicAgent.sense_navigation a) = 0) /\
  ((path_index a < length (path a))%nat ->
     0 <= ns_progress (GeodesicAgent.sense_navigation a) /\
     ns_progress (GeodesicAgent.sense_navigation a) <= 1 /\
     (1 <= ns_estimated_steps (GeodesicAgent.sense_navigation a))%Z /\
     ns_estimated_steps (GeodesicAgent.sense_navigation a) =
       (Z.of_nat (length (path a)) - Z.of_nat (path_index a))%Z /\
     (path_index a = O ->
        ns_progress (GeodesicAgent.sense_navigation a) = 0) /\
     ((path_index a + 1)%nat = length (path a) ->
        ns_path_length (GeodesicAgent.sense_navigation a) = 0 /\
        ns_estimated_steps (GeodesicAgent.sense_navigation a) = 1%Z /\
        ((1 < length (path a))%nat ->
           ns_progress (GeodesicAgent.sense_navigation a) = 1))).
Proof.
  unfold GeodesicAgent.sense_navigation.
  cbn [ns_current_position ns_path_length ns_progress ns_estimated_steps].
  split; [reflexivity|]. split; [apply remaining_length_skipn|].
  split.
  { intro E. unfold GeodesicAgent._compute_path_length,
      GeodesicAgent.path_exhausted. rewrite E. repeat split. }
  intro Hidx.
  destruct (path a) as [|p l] eqn:Epath; [cbn in Hidx; lia|].
  rewrite <- Epath in *.
  assert (Hest : (1 <= Z.of_nat (length (path a)) - Z.of_nat (path_index a))%Z)
    by lia.
  assert (Hend : (path_index a + 1)%nat = length (path a) ->
                 GeodesicAgent._compute_path_length a = 0).
  { intro He. unfold GeodesicAgent._compute_path_length.
    rewrite (proj2 (path_exhausted_true a)) by lia. reflexivity. }
  destruct (Nat.ltb_spec 1 (length (path a))) as [Hlen | Hlen].
  - destruct (ratio_bounds (Z.of_nat (path_index a))
                (Z.of_nat (length (path a)) - 1) ltac:(lia) ltac:(lia))
      as (H0 & H1 & Hz & Ho).
    split; [exact H0|]. split; [exact H1|]. split; [exact Hest|].
    split; [reflexivity|].
    split; [intro E; apply Hz; lia|].
    intro He. split; [exact (Hend He)|]. split; [lia|].
    intros _. apply Ho. lia.
  - split; [apply Qcle_refl|]. split; [discriminate|]. split; [exact Hest|].
    split; [reflexivity|]. split; [reflexivity|].
    intro He. split; [exact (Hend He)|]. split; [lia|]. intro. lia.
Qed.

Lemma solve_length (start end_ : ManifoldPoint) (num_steps max_iterations : Z)
  (pts : list ManifoldPoint) :
  GeodesicSolver.solve start end_ num_steps max_iterations = Ok pts ->
  length pts = S (Z.to_nat num_steps) /\
  nth 0 pts default_point = from_vector (to_vector start).
Proof.
  rewrite solve_unfold. intro H.
  apply bind_Ok_inv in H as ([pts' conv] & Hrun & H). injection H as <-.
  destruct (solve_traced_spec _ _ _ _ _ _ Hrun)
    as (dt & k & v & path & _ & _ & Hpath & -> & _).
  destruct (_integrate_spec _ _ _ _ _ Hpath) as (rest & -> & Hlen & _).
  cbn [map length nth]. rewrite length_map, Hlen. split; reflexivity.
Qed.

Lemma step_keeps_the_index_inside {L : Libm} (u : Qc) (noise : vec)
  (a : GeodesicAgent) :
  (path_index a < length (path a))%nat ->
  (path_index (snd (GeodesicAgent.step u noise a)) <
     length (path (snd (GeodesicAgent.step u noise a))))%nat.
Proof.
  intro H. unfold GeodesicAgent.step.
  destruct (needs_healing (position a)); [exact H|].
  destruct (GeodesicAgent.path_exhausted a) eqn:E; [exact H|].
  apply path_exhausted_false in E. cbv zeta. cbn [mutation_rate].
  destruct (Qcltb u (mutation_rate a));
    cbn [snd GeodesicAgent._evolve path path_index]; lia.
Qed.

(** X18: after [set_target] the agent stands on the first of the 51
    points of its path: the navigation sense reads a progress of 0 and
    51 estimated steps, and the remaining length is the length of the
    whole path.  From then on [step] keeps the index inside the
    path. *)
Theorem navigation_after_set_target (L : Libm) (destination : ManifoldPoint)
  (a a' : GeodesicAgent)
  (Hdomain : in_domain (position a))
  (Htarget : GeodesicAgent.set_target destination a = Ok a') :
  length (path a') = 51%nat /\ path_index a' = O /\
  position a' = position a /\
  nth (path_index a') (path a') default_point = position a' /\
  ns_target_position (GeodesicAgent.sense_navigation a') = Some destination /\
  ns_progress (GeodesicAgent.sense_navigation a') = 0 /\
  ns_estimated_steps (GeodesicAgent.sense_navigation a') = 51%Z /\
  ns_path_length (GeodesicAgent.sense_navigation a') =
    GeodesicSolver.path_length (path a') /\
  (forall u noise,
     (path_index (snd (GeodesicAgent.step u noise a')) <
        length (path (snd (GeodesicAgent.step u noise a'))))%nat).
Proof.
  unfold GeodesicAgent.set_target, CRSM6D.find_geodesic in Htarget.
  apply bind_Ok_inv in Htarget as (pts & Hsolve & Htarget).
  injection Htarget as <-.
  destruct (solve_length _ _ _ _ _ Hsolve) as [Hlen Hfirst].
  rewrite from_to_vector, (post_init_id _ Hdomain) in Hfirst.
  change (S (Z.to_nat 50)) with 51%nat in Hlen.
  unfold GeodesicAgent.sense_navigation.
  cbn [path path_index position target ns_target_position ns_progress
       ns_estimated_steps ns_path_length].
  split; [exact Hlen|]. split; [reflexivity|]. split; [reflexivity|].
  split; [exact Hfirst|]. split; [reflexivity|].
  destruct pts as [|p pts]; [discriminate Hlen|].
  rewrite Hlen. cbn [Nat.ltb Nat.leb].
  split; [unfold Qcdiv; change (Q2Qc (inject_Z (Z.of_nat 0))) with (0 : Qc); ring|].
  split; [reflexivity|].
  split.
  { rewrite remaining_length_skipn. reflexivity. }
  intros u noise. apply step_keeps_the_index_inside.
  cbn [path path_index]. rewrite Hlen. lia.
Qed.

Lemma navigation_after_set_target_witness :
  in_domain (position calm_agent) /\
  GeodesicAgent.set_target lifted_point calm_agent = Ok navigating_calm_agent /\
  length (path navigating_calm_agent) = 51%nat /\
  ns_estimated_steps
    (@GeodesicAgent.sense_navigation rational_libm navigating_calm_agent)
    = 51%Z.
Proof.
  assert (Hd : in_domain (position calm_agent))
    by exact (in_domain_new_point _ _ _ _ _ _).
  destruct (navigation_after_set_target rational_libm lifted_point calm_agent
              navigating_calm_agent Hd set_target_calm)
    as (Hlen & _ & _ & _ & _ & _ & Hest & _).
  split; [exact Hd|]. split; [exact set_target_calm|].
  split; [exact Hlen | exact Hest].
Defined.

Lemma AgentState_eqb_eq (s s' : AgentState) :
  AgentState_eqb s s' = true <-> s = s'.
Proof. destruct s, s'; cbn; split; congruence. Qed.

Lemma navigate_loop_reports {L : Libm} (n : nat) (draws : nat -> Qc * vec)
  (destination : ManifoldPoint) :
  forall k a,
    fst (GeodesicAgent.navigate_loop n k draws destination a) = true <->
    state (snd (GeodesicAgent.navigate_loop n k draws destination a))
      = CONVERGED.
Proof.
  induction n as [|n IH]; intros k a; cbn [GeodesicAgent.navigate_loop].
  - cbn [fst snd]. apply AgentState_eqb_eq.
  - destruct (negb (fst (GeodesicAgent.step (fst (draws k)) (snd (draws k)) a))).
    + cbn [fst snd]. apply AgentState_eqb_eq.
    + destruct (Qcltb _ _).
      * cbn [fst snd GeodesicAgent.set_state state]. split; reflexivity.
      * apply IH.
Qed.

(** When the path is used up the loop of [navigate_to] answers true at
    once, wherever the destination is. *)
Lemma navigate_loop_at_the_end {L : Libm} (n k : nat)
  (draws : nat -> Qc * vec) (destination : ManifoldPoint) (a : GeodesicAgent) :
  needs_healing (position a) = false ->
  GeodesicAgent.path_exhausted a = true ->
  GeodesicAgent.navigate_loop (S n) k draws destination a =
    (true, GeodesicAgent.set_state CONVERGED a).
Proof.
  intros Hh He. cbn [GeodesicAgent.navigate_loop].
  rewrite (step_converged _ _ a Hh He). reflexivity.
Qed.

(** X19: [navigate_to] answers whether the agent ends in the state
    [CONVERGED]: its boolean is true exactly when that is the final
    state.  With no step allowed the answer is false and the agent is
    the one that [set_target] leaves, in the state [NAVIGATING]; and a
    pass that finds the path used up answers true without looking at
    the distance to the destination. *)
Theorem navigate_to_answers_the_final_state (L : Libm)
  (draws : nat -> Qc * vec) (destination : ManifoldPoint) (max_steps : Z)
  (a a' : GeodesicAgent) (reached : bool)
  (Hnav : GeodesicAgent.navigate_to draws destination max_steps a
            = Ok (reached, a')) :
  (reached = true <-> state a' = CONVERGED) /\
  ((max_steps <= 0)%Z ->
     reached = false /\ state a' = NAVIGATING /\
     GeodesicAgent.set_target destination a = Ok a') /\
  (forall n k b far,
     needs_healing (position b) = false ->
     GeodesicAgent.path_exhausted b = true ->
     GeodesicAgent.navigate_loop (S n) k draws far b =
       (true, GeodesicAgent.set_state CONVERGED b)).
Proof.
  unfold GeodesicAgent.navigate_to in Hnav.
  apply bind_Ok_inv in Hnav as (a1 & Hset & Hnav).
  injection Hnav as Hnav.
  pose proof (navigate_loop_reports (Z.to_nat max_steps) draws destination
                O a1) as Hrep.
  rewrite Hnav in Hrep. cbn [fst snd] in Hrep.
  split; [exact Hrep|]. split.
  - intro H. replace (Z.to_nat max_steps) with O in Hnav by lia.
    cbn [GeodesicAgent.navigate_loop] in Hnav.
    injection Hnav as <- <-.
    unfold GeodesicAgent.set_target in Hset.
    apply bind_Ok_inv in Hset as (pts & Hsolve & Hset).
    pose proof Hset as Hset'. injection Hset' as <-.
    cbn [state AgentState_eqb].
    split; [reflexivity|]. split; [reflexivity|].
    unfold GeodesicAgent.set_target. rewrite Hsolve. reflexivity.
  - intros n k b far. apply navigate_loop_at_the_end.
Qed.

Lemma first_quiet_step_arrives :
  fst (@GeodesicAgent.navigate_loop rational_libm 100 0 quiet_draws
         lifted_point navigating_calm_agent) = true.
Proof. vm_compute. reflexivity. Qed.

Lemma navigate_to_answers_the_final_state_witness :
  exists a',
    @GeodesicAgent.navigate_to rational_libm quiet_draws lifted_point 100
      calm_agent = Ok (true, a') /\
    state a' = CONVERGED.
Proof.
  assert (Hnav : exists a',
            @GeodesicAgent.navigate_to rational_libm quiet_draws lifted_point
              100 calm_agent = Ok (true, a')).
  { unfold GeodesicAgent.navigate_to. rewrite set_target_calm. cbn [bind].
    pose proof first_quiet_step_arrives as H.
    destruct (@GeodesicAgent.navigate_loop rational_libm (Z.to_nat 100) 0
                quiet_draws lifted_point navigating_calm_agent)
      as [b a'] eqn:E.
    change (Z.to_nat 100) with 100%nat in E. rewrite E in H.
    cbn [fst] in H. subst b. exists a'. reflexivity. }
  destruct Hnav as [a' Hnav]. exists a'. split; [exact Hnav|].
  exact (proj1 (proj1 (navigate_to_answers_the_final_state rational_libm
                         quiet_draws lifted_point 100 calm_agent a' true Hnav))
               eq_refl).
Defined.

(* ------------------------------------------------------------------ *)
(** ** Healing and evolution *)

Lemma healed_lambda (L G : Qc) :
  0 <= L -> L <= 1 -> 0 < G -> G <= 1 ->
  L <= clip (Qcmin 1 (L / Qcmax (dec 1 100) G)) 0 1.
Proof.
  intros HL0 HL1 HG0 HG1.
  assert (Hm : 0 < Qcmax (dec 1 100) G /\ Qcmax (dec 1 100) G <= 1).
  { unfold Qcmax. case_ltb (dec 1 100) G; split; qc_lra. }
  destruct Hm as [Hm0 Hm1].
  destruct (Qcinv_pos _ Hm0) as [Hi Hmi]. apply Qc_eq_Qeq in Hmi.
  assert (Hq : L <= L / Qcmax (dec 1 100) G).
  { unfold Qcdiv. revert Hm0 Hm1 Hi Hmi.
    generalize (Qcmax (dec 1 100) G). intro m. generalize (/ m).
    intros i Hm0 Hm1 Hi Hmi.
    assert (H1 : 1 <= i) by qc_nra. qc_nra. }
  revert Hq. generalize (L / Qcmax (dec 1 100) G). intros q Hq.
  assert (Hmin : L <= Qcmin 1 q /\ Qcmin 1 q <= 1).
  { unfold Qcmin. case_ltb q 1; split; qc_lra. }
  destruct Hmin as [Hmin0 Hmin1].
  rewrite clip_id; [exact Hmin0 | qc_lra | exact Hmin1].
Qed.

(** X20: one healing is enough.  From a position in its domain,
    [_heal] leaves a position that no longer needs healing, with a
    Lambda that is not lower, the same epsilon and a tau advanced by
    0.01; it counts the healing, records the new position in the
    trajectory and leaves the path and its index alone. *)
Theorem healing_once_is_enough (a : GeodesicAgent)
  (Hdomain : in_domain (position a)) :
  needs_healing (position (GeodesicAgent._heal a)) = false /\
  Lambda (position a) <= Lambda (position (GeodesicAgent._heal a)) /\
  epsilon (position (GeodesicAgent._heal a)) = epsilon (position a) /\
  tau (position (GeodesicAgent._heal a)) = tau (position a) + dec 1 100 /\
  state (GeodesicAgent._heal a) = HEALING /\
  healing_count (GeodesicAgent._heal a) = S (healing_count a) /\
  trajectory (GeodesicAgent._heal a) =
    trajectory a ++ [position (GeodesicAgent._heal a)] /\
  path (GeodesicAgent._heal a) = path a /\
  path_index (GeodesicAgent._heal a) = path_index a.
Proof.
  destruct Hdomain as ((HL0 & HL1) & _ & (HG0 & HG1) & (He0 & He1) & _).
  split.
  { unfold needs_healing. rewrite healed_gamma. apply Qcltb_false.
    revert HG0 HG1. generalize (Gamma (position a)). intros G HG0 HG1.
    assert (Hle : dec 1 1000 <= 1) by qc_lra.
    destruct (clip_cases (G * (1 - CHI_PC)) (dec 1 1000) 1 Hle)
      as [[_ ->] | [[Hhi _] | (_ & _ & ->)]].
    - qc_lra.
    - exfalso. unfold CHI_PC in Hhi. qc_lra.
    - unfold CHI_PC. qc_lra. }
  split.
  { unfold GeodesicAgent._heal. cbv zeta.
    cbn [position]. unfold new_point, post_init. cbn [Lambda].
    apply healed_lambda; try assumption. qc_lra. }
  split.
  { unfold GeodesicAgent._heal. cbv zeta.
    cbn [position]. unfold new_point, post_init. cbn [epsilon].
    apply clip_id; assumption. }
  repeat split.
Qed.

Lemma healing_once_is_enough_witness :
  in_domain (position decoherent_agent) /\
  needs_healing (position decoherent_agent) = true /\
  needs_healing (position (GeodesicAgent._heal decoherent_agent)) = false.
Proof.
  assert (Hd : in_domain (position decoherent_agent))
    by exact (in_domain_new_point _ _ _ _ _ _).
  split; [exact Hd|]. split; [reflexivity|].
  exact (proj1 (healing_once_is_enough decoherent_agent Hd)).
Defined.

(** [min(1.0, max(0.0, x))] *)
Lemma unit_clamp_cases (x : Qc) :
  (x < 0 /\ Qcmin 1 (Qcmax 0 x) = 0) \/
  (1 < x /\ Qcmin 1 (Qcmax 0 x) = 1) \/
  (0 <= x /\ x <= 1 /\ Qcmin 1 (Qcmax 0 x) = x).
Proof.
  unfold Qcmin, Qcmax. case_ltb 0 x.
  - case_ltb x 1.
    + right. right. split; [qc_lra|]. split; [qc_lra | reflexivity].
    + destruct (Qcle_lt_or_eq _ _ E0) as [Hlt | Heq].
      * right. left. split; [exact Hlt | reflexivity].
      * right. right. rewrite <- Heq.
        split; [qc_lra|]. split; [qc_lra | reflexivity].
  - assert (H01 : Qcltb 0 1 = true) by reflexivity. rewrite H01.
    destruct (Qcle_lt_or_eq _ _ E) as [Hlt | Heq].
    + left. split; [exact Hlt | reflexivity].
    + right. right. rewrite Heq. split; [qc_lra|]. split; [qc_lra | reflexivity].
Qed.



(** X22: the operator of the executor.  On a state in its domain it
    keeps Phi and psi, advances tau by ten times LAMBDA_PHI and never
    lowers epsilon.  Gamma becomes the larger of 0.01 and 0.99 Gamma:
    it does not grow from 0.01 on, but a Gamma below 0.01 is raised to
    0.01.  Lambda does not fall on a coherent state and does not rise
    on a state that is not coherent. *)
Theorem executor_operator_optimises (s : ManifoldPoint)
  (Hdomain : in_domain s) :
  in_domain (AIDENAgent.autopoietic_operator s) /\
  Phi (AIDENAgent.autopoietic_operator s) = Phi s /\
  psi (AIDENAgent.autopoietic_operator s) = psi s /\
  tau (AIDENAgent.autopoietic_operator s) = tau s + LAMBDA_PHI * dec 10 1 /\
  (epsilon s <= epsilon (AIDENAgent.autopoietic_operator s) /\
   epsilon (AIDENAgent.autopoietic_operator s) <= 1) /\
  Gamma (AIDENAgent.autopoietic_operator s) =
    Qcmax (dec 1 100) (Gamma s * dec 99 100) /\
  (dec 1 100 <= Gamma s -> Gamma (AIDENAgent.autopoietic_operator s) <= Gamma s) /\
  (Gamma s < dec 1 100 -> Gamma (AIDENAgent.autopoietic_operator s) = dec 1 100) /\
  (is_coherent s = true -> Lambda s <= Lambda (AIDENAgent.autopoietic_operator s)) /\
  (is_coherent s = false -> Lambda (AIDENAgent.autopoietic_operator s) <= Lambda s).
Proof.
  destruct Hdomain as ((HL0 & HL1) & (HP0 & HP1) & (HG0 & HG1) & (He0 & He1)
                       & (Hs0 & Hs1)).
  split; [exact (in_domain_new_point _ _ _ _ _ _)|].
  unfold AIDENAgent.autopoietic_operator, new_point, post_init, is_coherent,
    Qcleb. cbv zeta.
  cbn [Lambda Phi Gamma tau epsilon psi].
  rewrite (clip_id (Phi s) _ _ HP0 HP1), (clip_id (psi s) _ _ Hs0 Hs1).
  assert (Heps : epsilon s <= Qcmin 1 (epsilon s * dec 101 100) /\
                 0 <= Qcmin 1 (epsilon s * dec 101 100) /\
                 Qcmin 1 (epsilon s * dec 101 100) <= 1).
  { revert He0 He1. clear. generalize (epsilon s). intros e He0 He1.
    unfold Qcmin. case_ltb (e * dec 101 100) 1;
      (split; [|split]); qc_lra. }
  destruct Heps as (He & He0' & He1').
  rewrite (clip_id _ 0 1 He0' He1').
  assert (Hgam : dec 1 1000 <= Qcmax (dec 1 100) (Gamma s * dec 99 100) /\
                 Qcmax (dec 1 100) (Gamma s * dec 99 100) <= 1 /\
                 (dec 1 100 <= Gamma s ->
                  Qcmax (dec 1 100) (Gamma s * dec 99 100) <= Gamma s) /\
                 (Gamma s < dec 1 100 ->
                  Qcmax (dec 1 100) (Gamma s * dec 99 100) = dec 1 100)).
  { revert HG0 HG1. clear. generalize (Gamma s). intros g HG0 HG1.
    unfold Qcmax. case_ltb (dec 1 100) (g * dec 99 100).
    - split; [qc_lra|]. split; [qc_lra|]. split; [intro H; qc_lra|].
      intro H. exfalso. qc_lra.
    - split; [qc_lra|]. split; [qc_lra|]. split; [intro H; exact H|].
      intro H. reflexivity. }
  destruct Hgam as (Hg0 & Hg1 & Hg2 & Hg3).
  rewrite (clip_id _ _ 1 Hg0 Hg1).
  split; [reflexivity|]. split; [reflexivity|]. split; [reflexivity|].
  split; [split; assumption|]. split; [reflexivity|].
  split; [exact Hg2|]. split; [exact Hg3|].
  unfold PHI_THRESHOLD. generalize (xi s). intro x.
  destruct (unit_clamp_cases
              (Lambda s + dec 1 100 * (x / dec 76901 10000 - 1)))
    as [[H ->] | [[H ->] | (H & H' & ->)]].
  - rewrite (clip_id 0 0 1) by qc_lra.
    split; intro Hc.
    + apply negb_true_iff, Qcltb_false in Hc. qc_lra.
    + exact HL0.
  - rewrite (clip_id 1 0 1) by qc_lra.
    split; intro Hc.
    + exact HL1.
    + apply negb_false_iff, Qcltb_true in Hc. qc_lra.
  - rewrite (clip_id _ 0 1 H H').
    split; intro Hc.
    + apply negb_true_iff, Qcltb_false in Hc. qc_lra.
    + apply negb_false_iff, Qcltb_true in Hc. qc_lra.
Qed.

Lemma executor_operator_optimises_witness :
  in_domain default_point /\
  is_coherent default_point = true /\
  Lambda default_point <= Lambda (AIDENAgent.autopoietic_operator default_point).
Proof.
  assert (Hd : in_domain default_point)
    by exact (in_domain_new_point _ _ _ _ _ _).
  destruct (executor_operator_optimises default_point Hd)
    as (_ & _ & _ & _ & _ & _ & _ & _ & Hc & _).
  split; [exact Hd|]. split; [reflexivity|]. exact (Hc eq_refl).
Defined.

Lemma execute_mutation_loop_spec (target_xi : Qc) (noise : nat -> vec)
  (fuel : nat) :
  forall k a,
    (1001 - evolution_count a <= fuel)%nat -> (1 <= fuel)%nat ->
    exists a',
      GeodesicAgent.execute_mutation_loop fuel k noise target_xi a = Some a' /\
      (target_xi <= xi (position a') \/ (1000 < evolution_count a')%nat) /\
      (evolution_count a <= evolution_count a')%nat /\
      (evolution_count a' <= Nat.max (S (evolution_count a)) 1001)%nat /\
      (xi (position a) < target_xi ->
       (evolution_count a < evolution_count a')%nat) /\
      (target_xi <= xi (position a) -> a' = a) /\
      trajectory a' = trajectory a /\ path a' = path a /\
      path_index a' = path_index a /\
      (generation a' + evolution_count a = generation a + evolution_count a')%nat.
Proof.
  induction fuel as [|fuel IH]; intros k a Hfuel H1; [lia|].
  cbn [GeodesicAgent.execute_mutation_loop].
  case_ltb (xi (position a)) target_xi.
  - destruct (Nat.ltb_spec 1000 (evolution_count (GeodesicAgent._evolve (noise k) a)))
      as [Hcap | Hcap].
    + exists (GeodesicAgent._evolve (noise k) a).
      cbn [GeodesicAgent._evolve evolution_count trajectory path path_index
           generation] in *.
      split; [reflexivity|]. split; [right; exact Hcap|].
      split; [lia|]. split; [lia|]. split; [intro; lia|].
      split; [intro H; exfalso; exact (Qclt_not_le _ _ E H)|].
      repeat split; lia.
    + cbn [GeodesicAgent._evolve evolution_count] in Hcap.
      destruct (IH (S k) (GeodesicAgent._evolve (noise k) a)) as
        (a' & Hrun & Hend & Hlo & Hhi & _ & _ & Ht & Hp & Hi & Hg);
        [cbn [GeodesicAgent._evolve evolution_count]; lia
        |cbn [GeodesicAgent._evolve evolution_count] in Hfuel |- *; lia|].
      exists a'.
      cbn [GeodesicAgent._evolve evolution_count trajectory path path_index
           generation] in *.
      split; [exact Hrun|]. split; [exact Hend|].
      split; [lia|]. split; [lia|]. split; [intro; lia|].
      split; [intro H; exfalso; exact (Qclt_not_le _ _ E H)|].
      split; [exact Ht|]. split; [exact Hp|]. split; [exact Hi|]. lia.
  - exists a. split; [reflexivity|]. split; [left; exact E|].
    split; [lia|]. split; [lia|].
    split; [intro H; exfalso; exact (Qclt_not_le _ _ H E)|].
    split; [reflexivity|]. repeat split; lia.
Qed.

(** X23: [execute_mutation] always ends.  A budget of 1001 tests of
    its condition (or more) is enough for every agent, target and
    sequence of draws; on return the target is met or the count of
    evolutions is above 1000.  The cap is tested after the mutation:
    an agent below its target mutates at least once, even when its
    count is already above 1000, and an agent at its target is left
    as it is.  The mutations are not recorded in the trajectory. *)
Theorem execute_mutation_terminates (extra : nat) (noise : nat -> vec)
  (target_xi : Qc) (a : AIDENAgent) :
  exists a',
    AIDENAgent.execute_mutation (1001 + extra) noise target_xi a = Some a' /\
    (target_xi <= xi (position (aiden_base a')) \/
     (1000 < evolution_count (aiden_base a'))%nat) /\
    (evolution_count (aiden_base a) <= evolution_count (aiden_base a'))%nat /\
    (evolution_count (aiden_base a') <=
       Nat.max (S (evolution_count (aiden_base a))) 1001)%nat /\
    (xi (position (aiden_base a)) < target_xi ->
     (evolution_count (aiden_base a) < evolution_count (aiden_base a'))%nat) /\
    (target_xi <= xi (position (aiden_base a)) -> a' = a) /\
    trajectory (aiden_base a') = trajectory (aiden_base a) /\
    optimization_history a' = optimization_history a /\
    best_fitness a' = best_fitness a.
Proof.
  destruct (execute_mutation_loop_spec target_xi noise (1001 + extra) O
              (aiden_base a) ltac:(lia) ltac:(lia))
    as (b & Hrun & Hend & Hlo & Hhi & Hone & Hsame & Ht & _).
  unfold AIDENAgent.execute_mutation. rewrite Hrun.
  exists (AIDENAgent.with_base b a).
  cbn [AIDENAgent.with_base aiden_base optimization_history best_fitness].
  split; [reflexivity|]. split; [exact Hend|]. split; [exact Hlo|].
  split; [exact Hhi|]. split; [exact Hone|].
  split; [intro H; rewrite (Hsame H); destruct a; reflexivity|].
  split; [exact Ht|]. split; reflexivity.
Qed.

(* ------------------------------------------------------------------ *)
(** ** Fleeing *)

Lemma flee_step_Ok {L : Libm} (a a' : GeodesicAgent) :
  GeodesicAgent.flee_step a = Ok a' ->
  trajectory a' = trajectory a ++ [position a'] /\
  state a' = state a /\ path a' = path a /\ path_index a' = path_index a /\
  target a' = target a /\
  total_distance a' = total_distance a /\
  healing_count a' = healing_count a /\
  evolution_count a' = evolution_count a /\ generation a' = generation a.
Proof.
  unfold GeodesicAgent.flee_step. intro H.
  apply bind_Ok_inv in H as (grad & _ & H). injection H as <-.
  repeat split.
Qed.

Lemma flee_high_curvature_Ok {L : Libm} (steps : nat) :
  forall a a',
    GeodesicAgent.flee_high_curvature steps a = Ok a' ->
    length (trajectory a') = (length (trajectory a) + steps)%nat /\
    ((0 < steps)%nat -> last (trajectory a') default_point = position a') /\
    state a' = state a /\ path a' = path a /\ path_index a' = path_index a /\
    target a' = target a /\
    total_distance a' = total_distance a /\
    healing_count a' = healing_count a /\
    evolution_count a' = evolution_count a /\ generation a' = generation a.
Proof.
  induction steps as [|n IH]; intros a a' H.
  - injection H as <-. rewrite Nat.add_0_r.
    split; [reflexivity|]. split; [intro; lia|]. repeat split.
  - rewrite flee_high_curvature_S in H.
    apply bind_Ok_inv in H as (a1 & Hstep & H).
    destruct (flee_step_Ok _ _ Hstep)
      as (Ht & Hs & Hp & Hi & Htg & Hd & Hh & He & Hg).
    destruct (IH _ _ H)
      as (Ht' & Hl' & Hs' & Hp' & Hi' & Htg' & Hd' & Hh' & He' & Hg').
    split.
    { rewrite Ht', Ht, length_app. cbn [length]. lia. }
    split.
    { intros _. destruct n as [|n].
      - injection H as <-. rewrite Ht. apply last_last.
      - apply Hl'. lia. }
    repeat split; congruence.
Qed.

(** X24: [flee_high_curvature] moves the agent without counting the
    move.  A call of [steps] steps that does not raise appends exactly
    [steps] positions to the trajectory, the last of which is the
    position it ends on, in the domain; the state, the path and its
    index, the target and every counter, [total_distance] included,
    are as before. *)
Theorem fleeing_is_not_counted (L : Libm) (steps : nat)
  (a a' : GeodesicAgent)
  (Hflee : GeodesicAgent.flee_high_curvature steps a = Ok a') :
  length (trajectory a') = (length (trajectory a) + steps)%nat /\
  ((0 < steps)%nat ->
     last (trajectory a') default_point = position a' /\
     in_domain (position a')) /\
  (steps = O -> a' = a) /\
  state a' = state a /\ path a' = path a /\ path_index a' = path_index a /\
  target a' = target a /\
  total_distance a' = total_distance a /\
  healing_count a' = healing_count a /\
  evolution_count a' = evolution_count a /\ generation a' = generation a.
Proof.
  destruct (flee_high_curvature_Ok steps a a' Hflee) as (Ht & Hl & Hrest).
  split; [exact Ht|]. split.
  { intro H. split; [exact (Hl H)|].
    destruct steps as [|n]; [lia|]. exact (in_domain_flee n a a' Hflee). }
  split; [|exact Hrest].
  intros ->. injection Hflee as <-. reflexivity.
Qed.

Lemma fleeing_is_not_counted_witness :
  exists a',
    @GeodesicAgent.flee_high_curvature rational_libm 1 first_observer
      = Ok a' /\
    length (trajectory a') = 2%nat /\
    total_distance a' = total_distance first_observer.
Proof.
  destruct first_observer_senses as [[sense a1] Hsense].
  destruct (sense_curvature_Ok _ _ _ Hsense) as (_ & _ & Hgrad & _).
  assert (Hflee : exists a',
            @GeodesicAgent.flee_high_curvature rational_libm 1 first_observer
              = Ok a').
  { rewrite flee_high_curvature_S.
    unfold GeodesicAgent.flee_step, CRSM6D.curvature_gradient_at.
    rewrite Hgrad. cbn [bind GeodesicAgent.flee_high_curvature].
    eexists. reflexivity. }
  destruct Hflee as [a' Hflee].
  destruct (fleeing_is_not_counted rational_libm 1 first_observer a' Hflee)
    as (Ht & _ & _ & _ & _ & _ & _ & Hd & _).
  exists a'. split; [exact Hflee|]. split; [exact Ht | exact Hd].
Defined.

(* ------------------------------------------------------------------ *)
(** ** The observer: observations and the map *)

Lemma map_key_eqb_eq (k k' : map_key) : map_key_eqb k k' = true <-> k = k'.
Proof.
  destruct k as [[a b] c], k' as [[a' b'] c']. unfold map_key_eqb.
  rewrite !andb_true_iff, !Qceqb_true. split.
  - intros [[-> ->] ->]. reflexivity.
  - intro H. injection H as -> -> ->. repeat split.
Qed.

Lemma map_key_eqb_refl (k : map_key) : map_key_eqb k k = true.
Proof. apply map_key_eqb_eq. reflexivity. Qed.

Lemma dict_get_set_same (key : map_key) (v : Qc) (d : list (map_key * Qc)) :
  dict_get key (dict_set key v d) = Some v.
Proof.
  induction d as [|[k w] d IH]; cbn [dict_set dict_get].
  - rewrite map_key_eqb_refl. reflexivity.
  - destruct (map_key_eqb k key) eqn:E; cbn [dict_get]; rewrite E;
      [reflexivity | exact IH].
Qed.

Lemma dict_get_set_other (key k' : map_key) (v : Qc)
  (d : list (map_key * Qc)) :
  k' <> key -> dict_get k' (dict_set key v d) = dict_get k' d.
Proof.
  intro Hne.
  assert (Hk : map_key_eqb key k' = false).
  { destruct (map_key_eqb key k') eqn:E; [|reflexivity].
    apply map_key_eqb_eq in E. congruence. }
  induction d as [|[k w] d IH]; cbn [dict_set dict_get].
  - rewrite Hk. reflexivity.
  - destruct (map_key_eqb k key) eqn:E; cbn [dict_get].
    + apply map_key_eqb_eq in E. subst k. rewrite Hk. reflexivity.
    + destruct (map_key_eqb k k'); [reflexivity | exact IH].
Qed.

Lemma length_dict_set (key : map_key) (v : Qc) (d : list (map_key * Qc)) :
  length (dict_set key v d) =
    match dict_get key d with
    | Some _ => length d
    | None => S (length d)
    end.
Proof.
  induction d as [|[k w] d IH]; cbn [dict_set dict_get]; [reflexivity|].
  destruct (map_key_eqb k key); cbn [length]; [reflexivity|].
  rewrite IH. destruct (dict_get key d); reflexivity.
Qed.

Lemma observe_Ok {L : Libm} (a : AURAAgent) (sense : CurvatureSense)
  (a' : AURAAgent) :
  AURAAgent.observe a = Ok (sense, a') ->
  GeodesicAgent.sense_curvature (aura_base a) = Ok (sense, aura_base a') /\
  aura_base a' = GeodesicAgent.set_state SENSING (aura_base a) /\
  observations a' = observations a ++ [sense] /\
  manifold_map a' =
    dict_set (map_key_of (position (aura_base a)))
             (cs_scalar_curvature sense) (manifold_map a).
Proof.
  unfold AURAAgent.observe. intro H.
  apply bind_Ok_inv in H as ([sense1 b] & Hsense & H).
  cbn [fst snd] in H. injection H as <- <-.
  destruct (sense_curvature_Ok _ _ _ Hsense) as (-> & _).
  cbn [aura_base observations manifold_map]. repeat split. exact Hsense.
Qed.

(** X25: [observe] files the reading it returns.  The reading is
    appended to the observations, and the map then holds its scalar
    curvature under the key of the position (Lambda, Phi and Gamma
    rounded to two decimals): the other keys keep their values, and the
    map grows by one entry when the key is new and keeps its size when
    the key was there, so two observations from positions with the same
    key leave one entry. *)
Theorem observe_files_the_reading (L : Libm) (a a' : AURAAgent)
  (sense : CurvatureSense)
  (Hobserve : AURAAgent.observe a = Ok (sense, a')) :
  observations a' = observations a ++ [sense] /\
  dict_get (map_key_of (position (aura_base a))) (manifold_map a') =
    Some (cs_scalar_curvature sense) /\
  (forall k, k <> map_key_of (position (aura_base a)) ->
     dict_get k (manifold_map a') = dict_get k (manifold_map a)) /\
  length (manifold_map a') =
    match dict_get (map_key_of (position (aura_base a))) (manifold_map a) with
    | Some _ => length (manifold_map a)
    | None => S (length (manifold_map a))
    end /\
  position (aura_base a') = position (aura_base a) /\
  state (aura_base a') = SENSING.
Proof.
  destruct (observe_Ok a sense a' Hobserve) as (_ & Hb & Ho & Hm).
  rewrite Hm, Hb.
  split; [exact Ho|]. split; [apply dict_get_set_same|].
  split; [intros k Hk; apply dict_get_set_other; exact Hk|].
  split; [apply length_dict_set|]. split; reflexivity.
Qed.

Lemma observe_runs {L : Libm} (a : AURAAgent)
  (r : CurvatureSense * GeodesicAgent) :
  GeodesicAgent.sense_curvature (aura_base a) = Ok r ->
  exists a', AURAAgent.observe a = Ok (fst r, a').
Proof.
  intro H. unfold AURAAgent.observe. rewrite H. cbn [bind].
  eexists. reflexivity.
Qed.

Lemma observe_files_the_reading_witness :
  exists sense a',
    @AURAAgent.observe rational_libm (aura AURAIDENSystem.init)
      = Ok (sense, a') /\
    observations a' = [sense] /\
    length (manifold_map a') = 1%nat.
Proof.
  destruct first_observer_senses as [r Hr].
  destruct (observe_runs (aura AURAIDENSystem.init) r Hr) as [a' Ha'].
  destruct (observe_files_the_reading rational_libm _ _ _ Ha')
    as (Ho & _ & _ & Hl & _).
  exists (fst r), a'. split; [exact Ha'|]. split; [exact Ho | exact Hl].
Defined.

Lemma length_linspace (start stop : Qc) (num : nat) :
  length (linspace start stop num) = num.
Proof.
  destruct num as [|[|n]]; [reflexivity | reflexivity|].
  unfold linspace. apply length_tabulate.
Qed.

Lemma probed_trans (n m : nat) (a b c : AURAAgent) :
  probed n a b -> probed m b c -> probed (n + m) a c.
Proof.
  intros (Ho & Ht & Hp & Hi & Htg & Hd & Hg & Hs & Hz)
         (Ho' & Ht' & Hp' & Hi' & Htg' & Hd' & Hg' & Hs' & Hz').
  unfold probed.
  split; [lia|]. split; [congruence|]. split; [congruence|].
  split; [congruence|]. split; [congruence|]. split; [congruence|].
  split; [congruence|]. split.
  - intro H. destruct m as [|m].
    + rewrite (Hz' eq_refl). apply Hs. lia.
    + apply Hs'. lia.
  - intro H. assert (n = O) by lia. assert (m = O) by lia.
    rewrite (Hz' H1). apply Hz. exact H0.
Qed.

Lemma foldM_probed {L : Libm} {A : Type} (c : nat)
  (f : AURAAgent -> A -> res AURAAgent) (l : list A) :
  (forall a x a', f a x = Ok a' -> probed c a a') ->
  forall a a', foldM f l a = Ok a' -> probed (length l * c) a a'.
Proof.
  intro Hf. induction l as [|x l IH]; intros a a' H; cbn [foldM] in H.
  - injection H as <-. unfold probed. cbn [length Nat.mul].
    rewrite Nat.add_0_r.
    split; [reflexivity|]. split; [reflexivity|]. split; [reflexivity|].
    split; [reflexivity|]. split; [reflexivity|]. split; [reflexivity|].
    split; [reflexivity|]. split; [intro; lia | reflexivity].
  - apply bind_Ok_inv in H as (a1 & H1 & H).
    cbn [length Nat.mul].
    exact (probed_trans _ _ _ _ _ (Hf _ _ _ H1) (IH _ _ H)).
Qed.

Lemma probe_probed {L : Libm} (p : ManifoldPoint) (a : AURAAgent)
  (r : CurvatureSense * AURAAgent) :
  AURAAgent.observe
    (AURAAgent.with_base (GeodesicAgent.set_position p (aura_base a)) a)
    = Ok r ->
  probed 1 a (snd r).
Proof.
  destruct r as [sense a']. intro H.
  destruct (observe_Ok _ _ _ H) as (_ & Hb & Ho & _).
  unfold probed. cbn [snd]. rewrite Hb, Ho, length_app.
  cbn [AURAAgent.with_base aura_base observations length].
  split; [reflexivity|]. split; [reflexivity|]. split; [reflexivity|].
  split; [reflexivity|]. split; [reflexivity|]. split; [reflexivity|].
  split; [reflexivity|]. split; [reflexivity|]. intro. lia.
Qed.

(** X26: [map_region] probes a cube and comes back.  A call that does
    not raise leaves the observer on the position it started from,
    with one more observation per probe, [resolution] cubed in all;
    the trajectory, the path and its index are as before; the state is
    [SENSING] as soon as one probe was made, and a resolution of 0
    changes nothing. *)
Theorem map_region_comes_back (L : Libm) (center : ManifoldPoint)
  (radius : Qc) (resolution : nat) (a a' : AURAAgent)
  (Hmap : AURAAgent.map_region center radius resolution a = Ok a') :
  position (aura_base a') = position (aura_base a) /\
  length (observations a') =
    (length (observations a) + resolution * (resolution * resolution))%nat /\
  trajectory (aura_base a') = trajectory (aura_base a) /\
  path (aura_base a') = path (aura_base a) /\
  path_index (aura_base a') = path_index (aura_base a) /\
  ((0 < resolution)%nat -> state (aura_base a') = SENSING) /\
  (resolution = O -> a' = a).
Proof.
  unfold AURAAgent.map_region in Hmap. cbv zeta in Hmap.
  apply bind_Ok_inv in Hmap as (a1 & Hloop & Hmap). injection Hmap as <-.
  assert (Hp : probed (resolution * (resolution * resolution)) a a1).
  { rewrite <- (length_linspace (- radius) radius resolution) at 1 2 3.
    revert Hloop. apply foldM_probed. intros b dL b'.
    apply foldM_probed. intros c dP c'.
    rewrite <- (Nat.mul_1_r (length _)).
    apply foldM_probed. intros d dG d' H.
    apply bind_Ok_inv in H as (r & Hr & H). injection H as <-.
    exact (probe_probed _ _ _ Hr). }
  destruct Hp as (Ho & Ht & Hpa & Hi & _ & _ & _ & Hs & Hz).
  cbn [AURAAgent.with_base aura_base observations GeodesicAgent.set_position
       position trajectory path path_index state].
  split; [reflexivity|]. split; [exact Ho|]. split; [exact Ht|].
  split; [exact Hpa|]. split; [exact Hi|]. split.
  - intro H. apply Hs. destruct resolution; [lia | cbn; lia].
  - intros ->. rewrite (Hz eq_refl). destruct a as [b o m]. destruct b.
    reflexivity.
Qed.

(** A region of one probe. *)
Lemma map_region_one_probe {L : Libm} (center : ManifoldPoint) (radius : Qc)
  (a : AURAAgent) (r : CurvatureSense * AURAAgent) :
  AURAAgent.observe
    (AURAAgent.with_base
       (GeodesicAgent.set_position
          (probe_at center (- radius) (- radius) (- radius)) (aura_base a)) a)
    = Ok r ->
  exists a', AURAAgent.map_region center radius 1 a = Ok a'.
Proof.
  intro H. unfold AURAAgent.map_region. cbv zeta.
  cbn [linspace foldM]. fold (probe_at center (- radius) (- radius) (- radius)).
  rewrite H. cbn [bind]. eexists. reflexivity.
Qed.

Lemma map_region_comes_back_witness :
  exists a',
    @AURAAgent.map_region rational_libm (position first_observer) 0 1
      (aura AURAIDENSystem.init) = Ok a' /\
    position (aura_base a') = position first_observer /\
    length (observations a') = 1%nat.
Proof.
  destruct first_observer_senses as [r Hr].
  assert (Hp : probe_at (position first_observer) (- 0) (- 0) (- 0) =
               position first_observer)
    by (apply point_eqb_eq; reflexivity).
  pose proof (sense_by_position first_observer
    (aura_base (AURAAgent.with_base
       (GeodesicAgent.set_position
          (probe_at (position first_observer) (- 0) (- 0) (- 0))
          (aura_base (aura AURAIDENSystem.init)))
       (aura AURAIDENSystem.init)))
    r (eq_sym Hp) Hr) as Hs.
  destruct (observe_runs _ _ Hs) as [a1 Ha1].
  destruct (map_region_one_probe _ _ _ _ Ha1) as [a' Ha'].
  destruct (map_region_comes_back rational_libm _ _ _ _ _ Ha')
    as (Hpos & Hobs & _).
  exists a'. split; [exact Ha'|]. split; [exact Hpos | exact Hobs].
Defined.

(* ------------------------------------------------------------------ *)
(** ** The executor: descent on the coherence potential *)

Lemma optimize_pass_Ok {L : Libm} (a a' : AIDENAgent) :
  AIDENAgent.optimize_pass a = Ok a' ->
  length (optimization_history a') = S (length (optimization_history a)) /\
  trajectory (aiden_base a') =
    trajectory (aiden_base a) ++ [position (aiden_base a')] /\
  in_domain (position (aiden_base a')) /\
  best_fitness a <= best_fitness a' /\
  xi (position (aiden_base a')) <= best_fitness a' /\
  ((best_fitness a' = best_fitness a /\ best_position a' = best_position a) \/
   (best_fitness a < best_fitness a' /\
    best_fitness a' = xi (position (aiden_base a')) /\
    best_position a' = Some (position (aiden_base a')))) /\
  path (aiden_base a') = path (aiden_base a) /\
  path_index (aiden_base a') = path_index (aiden_base a) /\
  state (aiden_base a') = state (aiden_base a).
Proof.
  unfold AIDENAgent.optimize_pass. cbv zeta. intro H.
  apply bind_Ok_inv in H as (potential & _ & H).
  apply bind_Ok_inv in H as (grad & _ & H).
  injection H as <-.
  cbn [aiden_base optimization_history best_fitness best_position
       GeodesicAgent.record_trajectory GeodesicAgent.set_position
       position trajectory path path_index state].
  set (p' := from_vector _).
  assert (Hd : in_domain p') by exact (in_domain_new_point _ _ _ _ _ _).
  split; [rewrite length_app; cbn [length]; lia|].
  split; [reflexivity|]. split; [exact Hd|].
  rewrite from_to_vector, (post_init_id _ Hd).
  case_ltb (best_fitness a) (xi p').
  - split; [apply Qclt_le_weak; exact E|]. split; [apply Qcle_refl|].
    split; [right; repeat split; exact E|]. repeat split.
  - split; [apply Qcle_refl|]. split; [exact E|].
    split; [left; split; reflexivity|]. repeat split.
Qed.

Lemma optimize_loop_Ok {L : Libm} (n : nat) :
  forall a a',
    AIDENAgent.optimize_loop n a = Ok a' ->
    length (optimization_history a') = (length (optimization_history a) + n)%nat /\
    (exists visited,
       length visited = n /\
       trajectory (aiden_base a') = trajectory (aiden_base a) ++ visited) /\
    best_fitness a <= best_fitness a' /\
    ((0 < n)%nat ->
       xi (position (aiden_base a')) <= best_fitness a' /\
       in_domain (position (aiden_base a')) /\
       last (trajectory (aiden_base a')) default_point =
         position (aiden_base a')) /\
    (best_fitness a' = best_fitness a -> best_position a' = best_position a) /\
    (best_fitness a < best_fitness a' ->
       exists q, best_position a' = Some q /\ xi q = best_fitness a' /\
                 In q (trajectory (aiden_base a'))) /\
    (n = O -> a' = a) /\
    path (aiden_base a') = path (aiden_base a) /\
    path_index (aiden_base a') = path_index (aiden_base a) /\
    state (aiden_base a') = state (aiden_base a).
Proof.
  induction n as [|n IH]; intros a a' H; cbn [AIDENAgent.optimize_loop] in H.
  - injection H as <-. rewrite !Nat.add_0_r.
    split; [reflexivity|].
    split; [exists []; split; [reflexivity | rewrite app_nil_r; reflexivity]|].
    split; [apply Qcle_refl|]. split; [intro; lia|].
    split; [reflexivity|].
    split; [intro Hlt; exfalso; exact (Qclt_not_le _ _ Hlt (Qcle_refl _))|].
    repeat split.
  - apply bind_Ok_inv in H as (a1 & Hpass & H).
    destruct (optimize_pass_Ok _ _ Hpass)
      as (Hh & Ht & Hd & Hb & Hx & Hbest & Hp & Hi & Hs).
    destruct (IH _ _ H)
      as (Hh' & (visited & Hlen & Ht') & Hb' & Hpos' & Hsame' & Hbest' & Hz'
          & Hp' & Hi' & Hs').
    split; [lia|].
    split.
    { exists (position (aiden_base a1) :: visited).
      split; [cbn [length]; lia|].
      rewrite Ht', Ht, <- app_assoc. reflexivity. }
    split; [exact (Qcle_trans _ _ _ Hb Hb')|].
    split.
    { intros _. destruct n as [|n].
      - rewrite (Hz' eq_refl).
        split; [exact Hx|]. split; [exact Hd|]. rewrite Ht. apply last_last.
      - apply Hpos'. lia. }
    split.
    { intro Heq.
      assert (H1 : best_fitness a1 = best_fitness a).
      { apply Qcle_antisym; [rewrite <- Heq; exact Hb' | exact Hb]. }
      rewrite Hsame' by congruence.
      destruct Hbest as [[_ Hq] | (Hlt & _)]; [exact Hq|].
      exfalso. rewrite H1 in Hlt.
      exact (Qclt_not_le _ _ Hlt (Qcle_refl _)). }
    split.
    { intro Hlt.
      destruct (Qclt_le_dec (best_fitness a1) (best_fitness a')) as [Hup | Hle].
      - exact (Hbest' Hup).
      - assert (Heq : best_fitness a' = best_fitness a1)
          by (apply Qcle_antisym; assumption).
        destruct Hbest as [[Hf _] | (_ & Hf & Hq)].
        + exfalso. rewrite Heq, Hf in Hlt.
          exact (Qclt_not_le _ _ Hlt (Qcle_refl _)).
        + exists (position (aiden_base a1)).
          split; [rewrite (Hsame' Heq); exact Hq|].
          split; [rewrite Heq; symmetry; exact Hf|].
          rewrite Ht', Ht. apply in_or_app. left. apply in_or_app.
          right. left. reflexivity. }
    split; [discriminate|].
    split; [congruence|]. split; congruence.
Qed.

(** X27: [optimize_position] keeps the best.  A call of [n]
    iterations that does not raise returns the position it ends on,
    adds [n] potentials to the history and [n] positions to the
    trajectory, and never lowers [best_fitness], which from the first
    iteration on is at least the xi of the final position.  When
    [best_fitness] has risen, [best_position] is a position of the
    trajectory whose xi is [best_fitness]; when it has not, it is the
    one it was. *)
Theorem optimize_position_keeps_the_best (L : Libm) (iterations : Z)
  (a a' : AIDENAgent) (p : ManifoldPoint)
  (Hrun : AIDENAgent.optimize_position iterations a = Ok (p, a')) :
  p = position (aiden_base a') /\
  length (optimization_history a') =
    (length (optimization_history a) + Z.to_nat iterations)%nat /\
  length (trajectory (aiden_base a')) =
    (length (trajectory (aiden_base a)) + Z.to_nat iterations)%nat /\
  best_fitness a <= best_fitness a' /\
  ((0 < iterations)%Z ->
     xi p <= best_fitness a' /\ in_domain p /\
     last (trajectory (aiden_base a')) default_point = p) /\
  (best_fitness a' = best_fitness a -> best_position a' = best_position a) /\
  (best_fitness a < best_fitness a' ->
     exists q, best_position a' = Some q /\ xi q = best_fitness a' /\
               In q (trajectory (aiden_base a'))) /\
  ((iterations <= 0)%Z -> a' = a).
Proof.
  unfold AIDENAgent.optimize_position in Hrun.
  apply bind_Ok_inv in Hrun as (a1 & Hloop & Hrun).
  injection Hrun as <- <-.
  destruct (optimize_loop_Ok _ _ _ Hloop)
    as (Hh & (visited & Hlen & Ht) & Hb & Hpos & Hsame & Hbest & Hz & _).
  split; [reflexivity|]. split; [exact Hh|].
  split; [rewrite Ht, length_app, Hlen; reflexivity|].
  split; [exact Hb|].
  split; [intro H; apply Hpos; lia|].
  split; [exact Hsame|]. split; [exact Hbest|].
  intro H. apply Hz. lia.
Qed.

(** The first descent pass of the executor as the system places it. *)
Lemma first_descent_pass_runs :
  is_ok (@AIDENAgent.optimize_pass rational_libm
           (aiden AURAIDENSystem.init)) = true.
Proof. exact_no_check (eq_refl true). Qed.

Lemma optimize_position_keeps_the_best_witness :
  exists p a',
    @AIDENAgent.optimize_position rational_libm 1 (aiden AURAIDENSystem.init)
      = Ok (p, a') /\
    length (optimization_history a') = 1%nat /\
    xi p <= best_fitness a'.
Proof.
  pose proof first_descent_pass_runs as Hok.
  destruct (@AIDENAgent.optimize_pass rational_libm (aiden AURAIDENSystem.init))
    as [a1|e] eqn:Hpass; [|discriminate Hok].
  assert (Hrun : @AIDENAgent.optimize_position rational_libm 1
                   (aiden AURAIDENSystem.init)
                 = Ok (position (aiden_base a1), a1)).
  { unfold AIDENAgent.optimize_position.
    change (Z.to_nat 1) with 1%nat. cbn [AIDENAgent.optimize_loop].
    rewrite Hpass. reflexivity. }
  destruct (optimize_position_keeps_the_best rational_libm 1 _ _ _ Hrun)
    as (_ & Hh & _ & _ & Hpos & _).
  exists (position (aiden_base a1)), a1.
  split; [exact Hrun|]. split; [exact Hh|].
  exact (proj1 (Hpos ltac:(lia))).
Defined.

(* ------------------------------------------------------------------ *)
(** ** Transport between empty sets *)

Lemma map2_nil_r {A B C : Type} (f : A -> B -> C) (l : list A) :
  map2 f l [] = [].
Proof. destruct l; reflexivity. Qed.

Lemma msum_of_empty_rows (rows : mat) :
  Forall (fun row => row = []) rows -> WassersteinTransport.msum rows = 0.
Proof.
  unfold WassersteinTransport.msum. intro H.
  induction H as [|row rows -> _ IH]; [reflexivity|].
  cbn [map fold_left]. rewrite fold_plus_acc, IH. ring.
Qed.

Lemma hadamard_with_empty_rows (P C : mat) :
  Forall (fun row => row = []) C ->
  Forall (fun row => row = []) (WassersteinTransport.mhadamard P C).
Proof.
  unfold WassersteinTransport.mhadamard. intro H. revert P.
  induction H as [|row rows -> _ IH]; intros [|r P]; cbn [map2];
    try constructor.
  - apply map2_nil_r.
  - apply IH.
Qed.

(** X28: between an empty set of points, with its empty weights, and
    any other set with one weight per point, [w2_distance] is the
    square root of 0, whichever side is the empty one: the cost matrix
    has no cell, and so has the transport plan. *)
Theorem w2_distance_of_an_empty_set (L : Libm)
  (points : list ManifoldPoint) (weights : vec)
  (Hweights : length weights = length points) :
  WassersteinTransport.w2_distance [] [] points weights = fsqrt 0 /\
  WassersteinTransport.w2_distance points weights [] [] = fsqrt 0.
Proof.
  clear Hweights. split.
  - unfold WassersteinTransport.w2_distance. cbv zeta.
    cbn [map]. unfold WassersteinTransport.mhadamard.
    rewrite map2_nil_r. reflexivity.
  - unfold WassersteinTransport.w2_distance. cbv zeta.
    cbn [map length]. f_equal. apply msum_of_empty_rows.
    apply hadamard_with_empty_rows.
    induction points as [|s sp IH]; cbn [map]; constructor;
      [reflexivity | exact IH].
Qed.

Lemma w2_distance_of_an_empty_set_witness :
  @WassersteinTransport.w2_distance rational_libm
     [] [] [default_point; singular_point] [dec 1 2; dec 1 2]
    = @fsqrt rational_libm 0 /\
  @WassersteinTransport.w2_distance rational_libm
     [default_point; singular_point] [dec 1 2; dec 1 2] [] []
    = @fsqrt rational_libm 0.
Proof.
  apply (w2_distance_of_an_empty_set rational_libm
           [default_point; singular_point] [dec 1 2; dec 1 2]).
  reflexivity.
Defined.

(* ------------------------------------------------------------------ *)
(** ** Evolution and the coupled step *)

(** X29: what [_evolve] leaves.  The fitness is the xi of the new
    position over the threshold, so it is at least 1 exactly when the
    new position is coherent; the generation and the count of
    evolutions grow by one; the new position is in its domain but is
    not recorded in the trajectory, and the path and its index are as
    before. *)
Theorem evolution_sets_the_fitness (noise : vec) (a : GeodesicAgent) :
  fitness (GeodesicAgent._evolve noise a) =
    xi (position (GeodesicAgent._evolve noise a)) / PHI_THRESHOLD /\
  (1 <= fitness (GeodesicAgent._evolve noise a) <->
   is_coherent (position (GeodesicAgent._evolve noise a)) = true) /\
  0 <= fitness (GeodesicAgent._evolve noise a) /\
  in_domain (position (GeodesicAgent._evolve noise a)) /\
  state (GeodesicAgent._evolve noise a) = EVOLVING /\
  generation (GeodesicAgent._evolve noise a) = S (generation a) /\
  evolution_count (GeodesicAgent._evolve noise a) = S (evolution_count a) /\
  trajectory (GeodesicAgent._evolve noise a) = trajectory a /\
  path (GeodesicAgent._evolve noise a) = path a /\
  path_index (GeodesicAgent._evolve noise a) = path_index a.
Proof.
  assert (Hd : in_domain (position (GeodesicAgent._evolve noise a)))
    by exact (in_domain_new_point _ _ _ _ _ _).
  destruct (xi_bounds _ Hd) as (H0 & _).
  assert (Hf : fitness (GeodesicAgent._evolve noise a) =
               xi (position (GeodesicAgent._evolve noise a)) / PHI_THRESHOLD)
    by reflexivity.
  split; [exact Hf|]. rewrite Hf.
  unfold is_coherent, Qcleb, PHI_THRESHOLD. revert H0.
  generalize (xi (position (GeodesicAgent._evolve noise a))). intros x H0.
  split.
  { rewrite negb_true_iff, Qcltb_false. split; intro H; qc_lra. }
  split; [qc_lra|]. split; [exact Hd|]. repeat split.
Qed.

Lemma Ok_inj {A : Type} (x y : A) : Ok x = Ok y -> x = y.
Proof. intro H. injection H as H. exact H. Qed.

Lemma coupled_step_Ok {L : Libm} (s s' : AURAIDENSystem) (sync : Qc) :
  AURAIDENSystem.coupled_step s = Ok (sync, s') ->
  exists sense a1 d1,
    AURAAgent.observe (aura s) = Ok (sense, a1) /\
    (if cs_needs_healing sense then Ok (AIDENAgent.force_heal (aiden s))
     else if Qcltb (dec 1 2) (danger_level sense)
          then AIDENAgent.flee_high_curvature 3 (aiden s)
          else Ok (snd (AIDENAgent.evolve_step (aiden s)))) = Ok d1 /\
    s' = snd (AURAIDENSystem.synchronization
                (AURAIDENSystem._apply_coupling
                   {| aura := snd (AURAAgent.evolve_step a1);
                      aiden := d1;
                      coupling_strength := coupling_strength s;
                      synchronization_history := synchronization_history s |})).
Proof.
  unfold AURAIDENSystem.coupled_step, AURAIDENSystem.observe_and_respond.
  intro H.
  apply bind_Ok_inv in H as (s1 & Hs1 & H).
  apply bind_Ok_inv in Hs1 as ([sense a1] & Hobs & Hs1).
  apply bind_Ok_inv in Hs1 as (d1 & Hresp & Hs1).
  apply Ok_inj in Hs1. apply Ok_inj in H.
  apply (f_equal snd) in H. change (snd (sync, s')) with s' in H.
  exists sense, a1, d1.
  split; [exact Hobs|]. split; [exact Hresp|].
  rewrite <- H, <- Hs1. reflexivity.
Qed.

(** X30: the coupled step heals the executor for the observer.  When
    the position of the observer needs healing, [coupled_step] heals
    the executor, whatever its own Gamma, and does not heal the
    observer: the healing count of the executor grows by one and its
    state is [HEALING], the healing count of the observer is as before,
    and the observer has evolved by one generation. *)
Theorem coupled_step_heals_the_executor (L : Libm)
  (s s' : AURAIDENSystem) (sync : Qc)
  (Hstep : AURAIDENSystem.coupled_step s = Ok (sync, s'))
  (Hneeds : needs_healing (AURAIDENSystem.aura_position s) = true) :
  healing_count (aiden_base (aiden s')) =
    S (healing_count (aiden_base (aiden s))) /\
  state (aiden_base (aiden s')) = HEALING /\
  generation (aiden_base (aiden s')) = generation (aiden_base (aiden s)) /\
  healing_count (aura_base (aura s')) = healing_count (aura_base (aura s)) /\
  generation (aura_base (aura s')) = S (generation (aura_base (aura s))) /\
  state (aura_base (aura s')) = SENSING /\
  length (observations (aura s')) = S (length (observations (aura s))).
Proof.
  destruct (coupled_step_Ok s s' sync Hstep)
    as (sense & a1 & d1 & Hobs & Hresp & ->).
  destruct (observe_Ok _ _ _ Hobs) as (Hsense & Hb & Ho & _).
  destruct (sense_curvature_Ok _ _ _ Hsense) as (_ & _ & _ & _ & _ & _ & Hh).
  unfold AURAIDENSystem.aura_position in Hneeds. rewrite Hneeds in Hh.
  rewrite Hh in Hresp. injection Hresp as <-.
  unfold AURAIDENSystem.synchronization, AURAIDENSystem._apply_coupling.
  cbn [snd aura aiden AURAAgent.with_base AIDENAgent.with_base aura_base
       aiden_base GeodesicAgent.set_position AURAAgent.evolve_step
       AIDENAgent.force_heal GeodesicAgent.force_heal GeodesicAgent.evolve_step
       GeodesicAgent._heal healing_count state generation observations].
  rewrite Hb, Ho, length_app. cbn [GeodesicAgent.set_state healing_count
    generation state length].
  repeat split. lia.
Qed.

Lemma unsettled_step_runs :
  is_ok (@AURAIDENSystem.coupled_step rational_libm unsettled_system) = true.
Proof. exact_no_check (eq_refl true). Qed.

Lemma coupled_step_heals_the_executor_witness :
  exists sync s',
    @AURAIDENSystem.coupled_step rational_libm unsettled_system
      = Ok (sync, s') /\
    needs_healing (AURAIDENSystem.aura_position unsettled_system) = true /\
    needs_healing (AURAIDENSystem.aiden_position unsettled_system) = false /\
    healing_count (aiden_base (aiden s')) = 1%nat /\
    healing_count (aura_base (aura s')) = O.
Proof.
  pose proof unsettled_step_runs as Hok.
  destruct (@AURAIDENSystem.coupled_step rational_libm unsettled_system)
    as [[sync s']|e] eqn:Hstep; [|discriminate Hok].
  destruct (coupled_step_heals_the_executor rational_libm unsettled_system
              s' sync Hstep eq_refl) as (H1 & _ & _ & H2 & _).
  exists sync, s'. split; [reflexivity|]. split; [reflexivity|].
  split; [reflexivity|]. split; [exact H1 | exact H2].
Defined.
